(** * HTMLStaticSite: the page-generation layer ([src/gencontent.py])

    A shallow embedding of [extract_title], [generate_page] and
    [generate_pages_recursive], together with the parts of the Python
    runtime they call ([str] methods, [os.path], [os.walk], [os.makedirs],
    text-mode [open]), the properties of the specification stated and
    proved (or refuted) over that embedding, and further properties of
    the three functions: what the walk writes and what it leaves alone,
    that it returns, and how [generate_page] behaves on the file system.

    In the comments an HTML attribute is written with single quotes,
    [href='/about']; the text that the code handles has double quotes,
    and the definitions below build it with [dquote]. *)

From Equations Require Import Equations.
From Stdlib Require Import Ascii String Bool Arith Lia List.
Import ListNotations.

Set Default Goal Selector "!".

(* ===================================================================== *)
(** * Python strings *)
(* ===================================================================== *)

(** A Python [str], as the list of the bytes of its UTF-8 encoding.  The
    code compares characters and looks for ASCII patterns only, and an
    ASCII byte never occurs inside the encoding of another character, so
    searching, splitting and replacing give the same result on the bytes
    as on the characters. *)
Definition str : Type := list ascii.

(** A string literal of the source. *)
Definition lit (s : string) : str := list_ascii_of_string s.

Definition dquote : ascii := ascii_of_nat 34.
Definition newline : ascii := ascii_of_nat 10.
Definition carriage_return : ascii := ascii_of_nat 13.
Definition slash : ascii := ascii_of_nat 47.

(** [a == b] *)
Definition str_eqb (a b : str) : bool :=
  if list_eq_dec ascii_dec a b then true else false.

(** [s.startswith(p)] *)
Fixpoint startswith (p s : str) : bool :=
  match p, s with
  | [], _ => true
  | _ :: _, [] => false
  | a :: p', b :: s' => Ascii.eqb a b && startswith p' s'
  end.

(** [s.endswith(p)] *)
Definition endswith (p s : str) : bool := startswith (rev p) (rev s).

(** [s.lstrip(c)] and [s.rstrip(c)] for a one-character set [c]: every
    leading, respectively trailing, [c] goes. *)
Fixpoint lstrip_char (c : ascii) (s : str) : str :=
  match s with
  | [] => []
  | a :: s' => if Ascii.eqb a c then lstrip_char c s' else s
  end.

Definition rstrip_char (c : ascii) (s : str) : str :=
  rev (lstrip_char c (rev s)).

(** [s.split(c)] for a one-character separator [c]: never empty, and a
    separator at the end of [s] leaves an empty last field. *)
Fixpoint split_char (c : ascii) (s : str) : list str :=
  match s with
  | [] => [[]]
  | a :: s' =>
      if Ascii.eqb a c then [] :: split_char c s'
      else match split_char c s' with
           | [] => [[a]]
           | l :: ls => (a :: l) :: ls
           end
  end.

(** [sep.join(parts)] *)
Fixpoint join (sep : str) (parts : list str) : str :=
  match parts with
  | [] => []
  | [p] => p
  | p :: ps => p ++ sep ++ join sep ps
  end.

(** [s.replace(old, new)] for a non-empty [old]: scan from the left; at a
    match emit [new] and resume after the match, otherwise emit the
    character and move one to the right.  The match consumed the head
    character, so the scan resumes [len(old) - 1] characters into the
    tail. *)
Equations? replace_scan (old new s : str) : str by wf (length s) lt :=
  replace_scan old new [] := [];
  replace_scan old new (c :: s') with startswith old (c :: s') => {
    | true := new ++ replace_scan old new (skipn (length old - 1) s');
    | false := c :: replace_scan old new s' }.
Proof.
  all: simpl; try lia.
  rewrite length_skipn. lia.
Qed.

(** [s.replace(old, new)]; with an empty [old], Python puts [new] before
    every character and at the end. *)
Definition replace (old new s : str) : str :=
  match old with
  | [] => new ++ flat_map (fun c => c :: new) s
  | _ :: _ => replace_scan old new s
  end.

(** [x in s] for strings: [p] occurs in [s] as a substring. *)
Fixpoint contains (p s : str) : bool :=
  startswith p s ||
  match s with
  | [] => false
  | _ :: s' => contains p s'
  end.

(* ===================================================================== *)
(** * Exceptions and results *)
(* ===================================================================== *)

(** The exception classes that the modelled code can raise.  The Markdown
    renderer is an import of the program; whatever it raises is carried
    by [RendererError].  [UnicodeEncodeError] and [OSError] are what
    [write()] and the close of a file raise: a text that cannot be
    encoded, a device that is full. *)
Inductive exn : Type :=
| ValueError (msg : str)
| FileNotFoundError
| NotADirectoryError
| IsADirectoryError
| FileExistsError
| UnicodeEncodeError
| OSError
| RendererError (what : str).

Inductive result (A : Type) : Type :=
| Ok (a : A)
| Raise (e : exn).
Arguments Ok {A} a.
Arguments Raise {A} e.

(* ===================================================================== *)
(** * Title extraction *)
(* ===================================================================== *)

Definition heading_marker : str := lit "# ".
Definition no_title_message : str := lit "No title found in markdown".

(** The [for line in lines] loop of [extract_title]. *)
Fixpoint first_heading (lines : list str) : result str :=
  match lines with
  | [] => Raise (ValueError no_title_message)
  | line :: rest =>
      if startswith heading_marker line then Ok (skipn 2 line)
      else first_heading rest
  end.

Definition extract_title (md : str) : result str :=
  first_heading (split_char newline md).

(* ===================================================================== *)
(** * Template substitution and URL rewriting (the pure part of
      [generate_page]) *)
(* ===================================================================== *)

Definition title_token : str := lit "{{ Title }}".
Definition content_token : str := lit "{{ Content }}".
Definition site_marker : str := lit "HTMLStaticSite".

(** [href='] and [src=']: the attribute name up to the opening quote. *)
Definition href_open : str := lit "href=" ++ [dquote].
Definition src_open : str := lit "src=" ++ [dquote].

(** The four patterns of the URL rewriting:
    [href='HTMLStaticSite], [src='HTMLStaticSite], [href='/], [src='/]. *)
Definition href_marker : str := href_open ++ site_marker.
Definition src_marker : str := src_open ++ site_marker.
Definition href_root : str := href_open ++ [slash].
Definition src_root : str := src_open ++ [slash].

(** Lines 21-22. *)
Definition substitute (title html_content template : str) : str :=
  replace content_token html_content (replace title_token title template).

(** Lines 27-28. *)
Definition normalize_basepath (basepath : str) : str :=
  if endswith [slash] basepath then basepath else basepath ++ [slash].

(** Lines 31-34, on the normalized base path. *)
Definition fix_urls (basepath html : str) : str :=
  let html := replace href_marker (href_open ++ basepath) html in
  let html := replace src_marker (src_open ++ basepath) html in
  let html := replace href_root
                      (href_open ++ rstrip_char slash basepath ++ [slash]) html in
  let html := replace src_root
                      (src_open ++ rstrip_char slash basepath ++ [slash]) html in
  html.

(** The page text that [generate_page] writes: lines 21-34. *)
Definition render_page (title html_content template basepath : str) : str :=
  fix_urls (normalize_basepath basepath) (substitute title html_content template).

(* ===================================================================== *)
(** * The file system *)
(* ===================================================================== *)

(** A tree of directories and regular files.  A file holds text, and
    its data is that text: what a text-mode [write()] stored there,
    character for character (the platform is POSIX, where the line
    separator is [\n] and output is not translated).  A text-mode
    [read()] translates the line ends, see [universal_newlines]. *)
#[warnings="-register-all"]
Inductive node : Type :=
| File (data : str)
| Dir (entries : list (str * node)).

(** A location is the list of names from the root directory down. *)
Definition location : Type := list str.

(** What [write()] and the close of a file that was opened for writing
    do with a text: the text is stored, or an exception is raised and the
    file is left with some text (none when the text cannot be encoded,
    what went out when the device is full). *)
Inductive write_outcome : Type :=
| Stored
| Failed (e : exn) (remains : str).

Record fs : Type := mkfs {
  fs_root : node;          (* the root directory *)
  fs_cwd : location;       (* the working directory of the process *)
  (* the device: what becomes of a text written to the file at a place
     of a tree, the file being open (created or truncated) already *)
  fs_device : node -> location -> str -> write_outcome
}.

(** The entry named [k] of a directory. *)
Fixpoint assoc (k : str) (es : list (str * node)) : option node :=
  match es with
  | [] => None
  | (k', v) :: es' => if str_eqb k k' then Some v else assoc k es'
  end.

(** The directory with [v] under the name [k]: in the place of the
    entry of that name, or as a new last entry. *)
Fixpoint assoc_set (k : str) (v : node) (es : list (str * node))
  : list (str * node) :=
  match es with
  | [] => [(k, v)]
  | (k', v') :: es' =>
      if str_eqb k k' then (k, v) :: es' else (k', v') :: assoc_set k v es'
  end.

(** What there is at [loc], if anything. *)
Fixpoint get (n : node) (loc : location) : option node :=
  match loc with
  | [] => Some n
  | c :: rest =>
      match n with
      | Dir es =>
          match assoc c es with
          | Some m => get m rest
          | None => None
          end
      | File _ => None
      end
  end.

(** Bind [v] at [loc]; the parent of [loc] must be a directory. *)
Fixpoint put (n : node) (loc : location) (v : node) : option node :=
  match loc with
  | [] => Some v
  | c :: rest =>
      match n with
      | Dir es =>
          match rest with
          | [] => Some (Dir (assoc_set c v es))
          | _ :: _ =>
              match assoc c es with
              | Some m =>
                  match put m rest v with
                  | Some m' => Some (Dir (assoc_set c m' es))
                  | None => None
                  end
              | None => None
              end
          end
      | File _ => None
      end
  end.

Definition dot : str := lit ".".
Definition dotdot : str := lit "..".

(** Path resolution as the kernel does it: one component at a time from
    [loc]; the directory a component is looked up in must exist. *)
Fixpoint walk_components (root : node) (loc : location) (comps : list str)
  : result location :=
  match comps with
  | [] => Ok loc
  | c :: rest =>
      match get root loc with
      | None => Raise FileNotFoundError
      | Some (File _) => Raise NotADirectoryError
      | Some (Dir _) =>
          if str_eqb c [] || str_eqb c dot then walk_components root loc rest
          else if str_eqb c dotdot
               then walk_components root (removelast loc) rest
               else walk_components root (loc ++ [c]) rest
      end
  end.

Definition resolve (st : fs) (path : str) : result location :=
  match path with
  | [] => Raise FileNotFoundError
  | _ :: _ =>
      walk_components (fs_root st)
        (if startswith [slash] path then [] else fs_cwd st)
        (split_char slash path)
  end.

(** The translation of line ends by a text-mode [read()] (the default,
    [newline=None]): [\r\n] and a [\r] on its own are read as [\n]. *)
Fixpoint universal_newlines (s : str) : str :=
  match s with
  | [] => []
  | a :: s' =>
      if Ascii.eqb a carriage_return
      then newline ::
           match s' with
           | b :: s'' =>
               if Ascii.eqb b newline then universal_newlines s''
               else universal_newlines s'
           | [] => []
           end
      else a :: universal_newlines s'
  end.

(** [open(path, 'r')] followed by [read()]. *)
Definition read_file (st : fs) (path : str) : result str :=
  match resolve st path with
  | Raise e => Raise e
  | Ok loc =>
      match get (fs_root st) loc with
      | Some (File data) => Ok (universal_newlines data)
      | Some (Dir _) => Raise IsADirectoryError
      | None => Raise FileNotFoundError
      end
  end.

(** The components of a path without the empty ones at its end, which
    are what follows its trailing slashes. *)
Fixpoint drop_trailing_empty (comps : list str) : list str :=
  match comps with
  | [] => []
  | c :: rest =>
      match drop_trailing_empty rest with
      | [] => if str_eqb c [] then [] else [c]
      | r :: rest' => c :: r :: rest'
      end
  end.

(** The file system with the text [data] in the file at [loc], a place
    where [open_write] has put a file. *)
Definition store (st : fs) (loc : location) (data : str) : fs :=
  match put (fs_root st) loc (File data) with
  | Some root' => mkfs root' (fs_cwd st) (fs_device st)
  | None => st
  end.

(** [open(path, 'w')]: the file is created, or truncated when it is
    there; its directory must exist already.  The result is the place of
    the open file.  A path that ends in a slash names a directory: once
    the components before the slash are resolved, the kernel refuses to
    create or to write it, whatever is there. *)
Definition open_write (st : fs) (path : str) : fs * result location :=
  if endswith [slash] path
  then
    match walk_components (fs_root st)
            (if startswith [slash] path then [] else fs_cwd st)
            (drop_trailing_empty (split_char slash path)) with
    | Raise e => (st, Raise e)
    | Ok _ => (st, Raise IsADirectoryError)
    end
  else
    match resolve st path with
    | Raise e => (st, Raise e)
    | Ok loc =>
        match get (fs_root st) loc with
        | Some (Dir _) => (st, Raise IsADirectoryError)
        | _ =>
            match put (fs_root st) loc (File []) with
            | Some root' => (mkfs root' (fs_cwd st) (fs_device st), Ok loc)
            | None => (st, Raise FileNotFoundError)
            end
        end
    end.

(** [f.write(data)] and the close of the file at the end of the [with]
    block, for the file at [loc] that [open_write] has opened: the device
    stores the text, or the exception is raised and the file holds what
    the device left. *)
Definition write_text (st : fs) (loc : location) (data : str)
  : fs * result unit :=
  match fs_device st (fs_root st) loc data with
  | Stored => (store st loc data, Ok tt)
  | Failed e remains => (store st loc remains, Raise e)
  end.

(** Lines 38-39: [with open(path, 'w') as f: f.write(data)]. *)
Definition write_file (st : fs) (path data : str) : fs * result unit :=
  match open_write st path with
  | (st1, Raise e) => (st1, Raise e)
  | (st1, Ok loc) => write_text st1 loc data
  end.

(** [os.makedirs(path, exist_ok=True)]: every directory on the way is
    created when missing; a regular file on the way is an error. *)
Fixpoint make_components (root : node) (loc : location) (comps : list str)
  : node * result unit :=
  match comps with
  | [] => (root, Ok tt)
  | c :: rest =>
      if str_eqb c [] || str_eqb c dot then make_components root loc rest
      else if str_eqb c dotdot
           then make_components root (removelast loc) rest
           else
             match get root (loc ++ [c]) with
             | Some (Dir _) => make_components root (loc ++ [c]) rest
             | Some (File _) =>
                 (root, Raise (match rest with
                               | [] => FileExistsError
                               | _ :: _ => NotADirectoryError
                               end))
             | None =>
                 match put root (loc ++ [c]) (Dir []) with
                 | Some root' => make_components root' (loc ++ [c]) rest
                 | None => (root, Raise FileNotFoundError)
                 end
             end
  end.

Definition makedirs (st : fs) (path : str) : fs * result unit :=
  match path with
  | [] => (st, Raise FileNotFoundError)
  | _ :: _ =>
      let (root', r) :=
        make_components (fs_root st)
          (if startswith [slash] path then [] else fs_cwd st)
          (split_char slash path) in
      (mkfs root' (fs_cwd st) (fs_device st), r)
  end.

Definition is_dir_node (n : node) : bool :=
  match n with Dir _ => true | File _ => false end.

(** [os.scandir(path)], split the way [os.walk] does: the names of the
    sub-directories and the names of everything else. *)
Definition scandir (st : fs) (path : str) : result (list str * list str) :=
  match resolve st path with
  | Raise e => Raise e
  | Ok loc =>
      match get (fs_root st) loc with
      | Some (Dir es) =>
          Ok (map fst (filter (fun e => is_dir_node (snd e)) es),
              map fst (filter (fun e => negb (is_dir_node (snd e))) es))
      | Some (File _) => Raise NotADirectoryError
      | None => Raise FileNotFoundError
      end
  end.

(* ===================================================================== *)
(** * [os.path] *)
(* ===================================================================== *)

(** [os.path.join(a, b)] *)
Definition path_join (a b : str) : str :=
  if startswith [slash] b then b
  else match a with
       | [] => b
       | _ :: _ => if endswith [slash] a then a ++ b else a ++ [slash] ++ b
       end.

(** The loop of [os.path.normpath] on an absolute path, which keeps the
    components kept so far in [acc] (reversed): empty and [.] components
    go, [..] removes the component before it and is dropped at the
    root. *)
Fixpoint norm_components (acc : list str) (comps : list str) : list str :=
  match comps with
  | [] => rev acc
  | c :: rest =>
      if str_eqb c [] || str_eqb c dot then norm_components acc rest
      else if str_eqb c dotdot then norm_components (tl acc) rest
      else norm_components (c :: acc) rest
  end.

(** The non-empty components of [os.path.abspath(path)]. *)
Definition abspath_components (cwd : location) (path : str) : list str :=
  if startswith [slash] path
  then norm_components [] (split_char slash path)
  else norm_components (rev cwd) (split_char slash path).

Fixpoint common_prefix_length (a b : list str) : nat :=
  match a, b with
  | x :: a', y :: b' =>
      if str_eqb x y then S (common_prefix_length a' b') else 0
  | _, _ => 0
  end.

(** [os.path.relpath(path, start)] *)
Definition relpath (cwd : location) (path start : str) : result str :=
  match path with
  | [] => Raise (ValueError (lit "no path specified"))
  | _ :: _ =>
      let start_list := abspath_components cwd start in
      let path_list := abspath_components cwd path in
      let i := common_prefix_length start_list path_list in
      let rel_list :=
        repeat dotdot (length start_list - i) ++ skipn i path_list in
      match rel_list with
      | [] => Ok dot
      | _ :: _ => Ok (join [slash] rel_list)
      end
  end.

(* ===================================================================== *)
(** * Programs with a file system and exceptions *)
(* ===================================================================== *)

(** A command runs on a file system and leaves a file system, together
    with a value or the exception that ended it. *)
Definition io (A : Type) : Type := fs -> fs * result A.

Definition ret {A : Type} (a : A) : io A := fun st => (st, Ok a).

Definition bind {A B : Type} (m : io A) (k : A -> io B) : io B :=
  fun st =>
    match m st with
    | (st', Ok a) => k a st'
    | (st', Raise e) => (st', Raise e)
    end.

(** A computation that does not touch the file system. *)
Definition lift {A : Type} (r : result A) : io A := fun st => (st, r).

(** A computation that only reads the file system. *)
Definition observe {A : Type} (f : fs -> result A) : io A :=
  fun st => (st, f st).

Declare Scope io_scope.
Delimit Scope io_scope with io.
Notation "x <- m ;; k" := (bind m (fun x => k))
  (at level 61, m at next level, right associativity) : io_scope.
Notation "m ;;; k" := (bind m (fun _ => k))
  (at level 61, right associativity) : io_scope.

(** [for x in xs: body(x)] *)
Fixpoint for_each {A : Type} (xs : list A) (body : A -> io unit) : io unit :=
  match xs with
  | [] => ret tt
  | x :: xs' => bind (body x) (fun _ => for_each xs' body)
  end.

(** [for root, dirs, files in os.walk(top): body(root, dirs, files)],
    top-down.  [os.walk] keeps a stack of directories still to visit; it
    lists a directory only when it reaches it (so it sees what the body
    did before), skips a directory it cannot list, and after the body
    pushes the sub-directories it had listed.  [fuel] bounds the number
    of directories taken from the stack; [None] is a walk cut short by
    it. *)
Fixpoint os_walk (fuel : nat) (stack : list str)
    (body : str -> list str -> list str -> io unit) (st : fs)
  : option (fs * result unit) :=
  match stack with
  | [] => Some (st, Ok tt)
  | top :: rest =>
      match fuel with
      | 0 => None
      | S fuel' =>
          match scandir st top with
          | Raise _ => os_walk fuel' rest body st
          | Ok (dirs, files) =>
              match body top dirs files st with
              | (st', Raise e) => Some (st', Raise e)
              | (st', Ok _) =>
                  os_walk fuel' (map (path_join top) dirs ++ rest) body st'
              end
          end
      end
  end.

(* ===================================================================== *)
(** * [generate_page] and [generate_pages_recursive] *)
(* ===================================================================== *)

Definition md_suffix : str := lit ".md".
Definition html_suffix : str := lit ".html".
Definition default_basepath : str := lit "/".

(** Line 50. *)
Definition output_filename (file : str) : str :=
  replace md_suffix html_suffix file.

Section Generator.

(** [markdown_to_html_node(markdown).to_html()], imported from
    [markdown_blocks]: a function of the Markdown text that returns the
    HTML text or raises. *)
Variable markdown_to_html : str -> result str.

Open Scope io_scope.

Definition generate_page
    (input_path template_path output_path basepath : str) : io unit :=
  markdown <- observe (fun st => read_file st input_path) ;;
  title <- lift (extract_title markdown) ;;
  html_content <- lift (markdown_to_html markdown) ;;
  template <- observe (fun st => read_file st template_path) ;;
  let html := replace title_token title template in
  let html := replace content_token html_content html in
  let basepath := normalize_basepath basepath in
  let html := fix_urls basepath html in
  (fun st => write_file st output_path html).

(** The body of the inner loop, for one entry [file] of [root]. *)
Definition visit_file
    (content_dir template_path output_dir basepath root file : str)
  : io unit :=
  if endswith md_suffix file then
    rel_dir <- observe (fun st => relpath (fs_cwd st) root content_dir) ;;
    let input_path := path_join root file in
    let output_subdir := path_join output_dir rel_dir in
    (fun st => makedirs st output_subdir) ;;;
    let output_path := path_join output_subdir (output_filename file) in
    generate_page input_path template_path output_path basepath
  else ret tt.

Definition generate_pages_recursive (fuel : nat)
    (content_dir template_path output_dir basepath : str) (st : fs)
  : option (fs * result unit) :=
  os_walk fuel [content_dir]
    (fun root _ files =>
       for_each files
         (visit_file content_dir template_path output_dir basepath root))
    st.

End Generator.

(* ===================================================================== *)
(** * Vocabulary of the proofs *)
(* ===================================================================== *)

(** An occurrence of [p] in [x ++ b] that starts inside [x]. *)
Definition occurs_from (p x b : str) : Prop :=
  exists x1 x2, x = x1 ++ x2 /\ x2 <> [] /\ startswith p (x2 ++ b) = true.

(** Every occurrence of [p] in [a ++ b] that starts inside [a] ends
    inside [a]. *)
Definition no_straddle (p a b : str) : Prop :=
  forall a1 a2,
    a = a1 ++ a2 -> a2 <> [] -> startswith p (a2 ++ b) = true ->
    startswith p a2 = true.

(** Every place inside [x] is either the start of a match that lies in
    [x], or no start of a match whatever follows [x]. *)
Fixpoint closed_under (old x : str) : bool :=
  match x with
  | [] => true
  | _ :: x' =>
      (startswith old x || negb (startswith x old)) && closed_under old x'
  end.

(** No place inside [x] is the start of a match, whatever follows. *)
Fixpoint clear_of (old x : str) : bool :=
  match x with
  | [] => true
  | _ :: x' =>
      negb (startswith old x) && negb (startswith x old) && clear_of old x'
  end.

(** [x] can be scanned on its own: a match neither runs into [x] from
    the left nor out of [x] to the right. *)
Definition seam_ok (old x : str) : bool :=
  clear_of x (tl old) && closed_under old x.

(** The text [x] can be rewritten on its own by each of the four passes
    of [fix_urls]. *)
Definition passes_ok (basepath x : str) : bool :=
  let x1 := replace href_marker (href_open ++ basepath) x in
  let x2 := replace src_marker (src_open ++ basepath) x1 in
  let x3 := replace href_root
              (href_open ++ rstrip_char slash basepath ++ [slash]) x2 in
  seam_ok href_marker x && seam_ok src_marker x1 &&
  seam_ok href_root x2 && seam_ok src_root x3.

(** The non-empty ends of a string. *)
Fixpoint tails (x : str) : list str :=
  match x with
  | [] => []
  | _ :: x' => x :: tails x'
  end.

(** A line of a document that is not a level-1 heading. *)
Definition not_heading (line : str) : Prop :=
  startswith heading_marker line = false.

(* ===================================================================== *)
(** * Vocabulary of the file system proofs *)
(* ===================================================================== *)

(** There is a directory, respectively a regular file, at [l]. *)
Definition is_dir (root : node) (l : location) : Prop :=
  exists es, get root l = Some (Dir es).

Definition is_file (root : node) (l : location) : Prop :=
  exists data, get root l = Some (File data).

(** A name that a directory can hold. *)
Definition valid_name (c : str) : Prop :=
  c <> [] /\ c <> dot /\ c <> dotdot /\ ~ In slash c.

(** Every name in the tree is one that a directory can hold. *)
Definition valid_names (root : node) : Prop :=
  forall l, get root l <> None -> Forall valid_name l.

(** [valid_name], as a check that computes. *)
Definition valid_nameb (c : str) : bool :=
  negb (str_eqb c []) && negb (str_eqb c dot) && negb (str_eqb c dotdot)
  && negb (existsb (Ascii.eqb slash) c).

(** The same check for every name of a tree. *)
Fixpoint names_ok (n : node) : bool :=
  match n with
  | File _ => true
  | Dir es =>
      (fix entries_ok (es : list (str * node)) : bool :=
         match es with
         | [] => true
         | (k, v) :: es' => valid_nameb k && names_ok v && entries_ok es'
         end) es
  end.

(** From [r] to [r']: directories stay directories, files stay files,
    every file of [r'] was a file of [r] or is at a place in [P], and
    names stay valid. *)
Definition grows (P : location -> Prop) (r r' : node) : Prop :=
  (forall l, is_dir r l -> is_dir r' l)
  /\ (forall l, is_file r l -> is_file r' l)
  /\ (forall l, is_file r' l -> is_file r l \/ P l)
  /\ (valid_names r -> valid_names r').

(** The file system as the generator needs it: names are valid and the
    working directory is a directory. *)
Definition sound (st : fs) : Prop :=
  valid_names (fs_root st) /\ is_dir (fs_root st) (fs_cwd st).

(** From [st] to [st']: the tree grows and the working directory is the
    same. *)
Definition fs_grows (P : location -> Prop) (st st' : fs) : Prop :=
  grows P (fs_root st) (fs_root st') /\ fs_cwd st' = fs_cwd st.

(** The path that [os.walk] builds for the directory [ds] below [top]. *)
Definition walk_path (top : str) (ds : list str) : str :=
  fold_left path_join ds top.

(** [os.path.relpath] of that directory with respect to [top]. *)
Definition rel_dir_of (ds : list str) : str :=
  match ds with
  | [] => dot
  | _ :: _ => join [slash] ds
  end.

(** The place [l] is where the page of an [.md] file of the content tree
    [c] of [st0] goes in the output tree [o]. *)
Definition mirrored (st0 : fs) (c o : location) (l : location) : Prop :=
  exists ds f,
    l = o ++ ds ++ [output_filename f]
    /\ endswith md_suffix f = true
    /\ is_file (fs_root st0) (c ++ ds ++ [f]).

(** The directory [ds] of the content tree [c] of [st0] is mirrored
    under [o] in [st1]. *)
Definition covered (st0 : fs) (c o : location) (st1 : fs) (ds : list str)
  : Prop :=
  forall ds' f,
    is_file (fs_root st0) (c ++ ds ++ ds' ++ [f]) ->
    endswith md_suffix f = true ->
    is_file (fs_root st1) (o ++ ds ++ ds' ++ [output_filename f]).

(* ===================================================================== *)
(** * Vocabulary of the proofs about the walk *)
(* ===================================================================== *)

(** From [r] to [r']: a file keeps its data unless it is at a place in
    [P]. *)
Definition keeps (P : location -> Prop) (r r' : node) : Prop :=
  forall l d, get r l = Some (File d) -> P l \/ get r' l = Some (File d).

(** A place in the output tree [o] where a page can go: below [o], under
    the output name of an entry that ends in [.md]. *)
Definition page_place (o : location) (l : location) : Prop :=
  exists ds f,
    l = o ++ ds ++ [output_filename f] /\ endswith md_suffix f = true.

(** The tree below [c] is the same in [r'] as in [r]. *)
Definition same_at (c : location) (r r' : node) : Prop :=
  forall l, get r' (c ++ l) = get r (c ++ l).

(** Neither of the two places is inside the other: they part at the
    names [a] and [b] below a common directory [p]. *)
Definition apart (c o : location) : Prop :=
  exists p a b l1 l2, c = p ++ a :: l1 /\ o = p ++ b :: l2 /\ a <> b.

(** A bound on the number of directories that a walk started at a node
    takes from the stack. *)
Fixpoint walk_bound (n : node) : nat :=
  match n with
  | File _ => 1
  | Dir es =>
      S (length es *
         (fix most (es : list (str * node)) : nat :=
            match es with
            | [] => 0
            | (_, v) :: es' => Nat.max (walk_bound v) (most es')
            end) es)
  end.

(** The largest bound among the entries of a directory. *)
Fixpoint most_bound (es : list (str * node)) : nat :=
  match es with
  | [] => 0
  | (_, v) :: es' => Nat.max (walk_bound v) (most_bound es')
  end.

(** The bound for the directory [ds] of the tree [n], and for a stack of
    such directories. *)
Definition bound_at (n : node) (ds : list str) : nat :=
  match get n ds with
  | Some m => walk_bound m
  | None => 1
  end.

Definition stack_bound (n : node) (dss : list (list str)) : nat :=
  list_sum (map (bound_at n) dss).

(** [x] is the page that the generator renders from a file that holds
    the text [d], which it reads with the line ends translated. *)
Definition page_of (markdown_to_html : str -> result str)
    (template basepath d x : str) : Prop :=
  exists title html_content,
    extract_title (universal_newlines d) = Ok title
    /\ markdown_to_html (universal_newlines d) = Ok html_content
    /\ x = render_page title html_content template basepath.

(** At [l] in [r] there is the page of an [.md] file of the content tree
    [c] of [st0], at the place below [o] where its page goes. *)
Definition rendered (markdown_to_html : str -> result str)
    (template basepath : str) (st0 : fs) (c o : location)
    (r : node) (l : location) : Prop :=
  exists ds g d x,
    l = o ++ ds ++ [output_filename g]
    /\ endswith md_suffix g = true
    /\ get (fs_root st0) (c ++ ds ++ [g]) = Some (File d)
    /\ page_of markdown_to_html template basepath d x
    /\ get r l = Some (File x).

(** Every file of [r] is a file of [st0] with its data, or such a
    page. *)
Definition faithful (markdown_to_html : str -> result str)
    (template basepath : str) (st0 : fs) (c o : location) (r : node)
  : Prop :=
  forall l x,
    get r l = Some (File x) ->
    get (fs_root st0) l = Some (File x)
    \/ rendered markdown_to_html template basepath st0 c o r l.

(* ===================================================================== *)
(** * A sample site *)
(* ===================================================================== *)

(** [href='/about'] and [href='HTMLStaticSite/style.css'] *)
Definition about_link : str := href_open ++ lit "/about" ++ [dquote].
Definition style_link : str :=
  href_open ++ site_marker ++ lit "/style.css" ++ [dquote].

Definition sample_template : str :=
  lit "<html><head><title>{{ Title }}</title><link " ++ style_link ++
  lit "></head><body><a " ++ about_link ++
  lit ">About</a>{{ Content }}</body></html>".

Definition sample_index : str :=
  lit "# Welcome" ++ [newline; newline] ++ lit "Hello **world**.".

Definition sample_notes : str :=
  lit "Some notes" ++ [newline] ++ lit "# Notes  " ++ [newline] ++
  lit "# Later heading".

(** A renderer to run the generator with: the text in a paragraph. *)
Definition sample_renderer (markdown : str) : result str :=
  Ok (lit "<p>" ++ markdown ++ lit "</p>").

(** A device that stores every text, and one that is full. *)
Definition reliable_device (_ : node) (_ : location) (_ : str)
  : write_outcome := Stored.

Definition full_device (_ : node) (_ : location) (_ : str)
  : write_outcome := Failed OSError [].

(** The working directory [/work] with [template.html] and
    [content/], which holds [index.md], [notes.md.md], [readme.txt] and
    [blog/post1.md]. *)
Definition sample_fs : fs :=
  mkfs
    (Dir [(lit "work",
           Dir [(lit "template.html", File sample_template);
                (lit "content",
                 Dir [(lit "index.md", File sample_index);
                      (lit "notes.md.md", File sample_notes);
                      (lit "readme.txt", File (lit "plain text"));
                      (lit "blog",
                       Dir [(lit "post1.md", File (lit "# Post"))])])])])
    [lit "work"]
    reliable_device.

(** A directory with two templates and two documents: [banner.html]
    has the title token twice, [title.html] has it once and no content
    token; the heading of [token.md] is the content token. *)
Definition banner_template : str :=
  lit "<title>{{ Title }}</title><h1>{{ Title }}</h1>{{ Content }}".

Definition token_fs : fs :=
  mkfs
    (Dir [(lit "work",
           Dir [(lit "banner.html", File banner_template);
                (lit "title.html", File (lit "<title>{{ Title }}</title>"));
                (lit "index.md", File sample_index);
                (lit "token.md", File (lit "# {{ Content }}"))])])
    [lit "work"]
    reliable_device.

(** The same site on a device that is full. *)
Definition sample_fs_full : fs :=
  mkfs (fs_root sample_fs) (fs_cwd sample_fs) full_device.

(** The state a run ends in. *)
Definition final_state (run : option (fs * result unit)) (otherwise : fs)
  : fs :=
  match run with
  | Some (st, _) => st
  | None => otherwise
  end.

(** The sample site after the walk into [public]. *)
Definition sample_fs_walked : fs :=
  final_state
    (generate_pages_recursive sample_renderer 2 (lit "content")
       (lit "template.html") (lit "public") default_basepath sample_fs)
    sample_fs.

(** A site whose content directory holds [about.txt], then [draft.md]
    without a heading, then [index.md]. *)
Definition draft_fs : fs :=
  mkfs
    (Dir [(lit "work",
           Dir [(lit "template.html", File sample_template);
                (lit "content",
                 Dir [(lit "about.txt", File (lit "plain text"));
                      (lit "draft.md", File (lit "no heading yet"));
                      (lit "index.md", File sample_index)])])])
    [lit "work"]
    reliable_device.

(** [draft_fs] with the directory [/work/public]. *)
Definition draft_fs_public : fs :=
  fst (makedirs draft_fs (lit "public/.")).

(* ===================================================================== *)
(** * Facts about strings *)
(* ===================================================================== *)

Lemma str_eqb_eq (a b : str) : str_eqb a b = true <-> a = b.
Proof.
  unfold str_eqb. destruct (list_eq_dec ascii_dec a b); split; congruence.
Qed.

Lemma str_eqb_refl (a : str) : str_eqb a a = true.
Proof. apply str_eqb_eq. reflexivity. Qed.

Lemma str_eqb_neq (a b : str) : str_eqb a b = false <-> a <> b.
Proof.
  unfold str_eqb. destruct (list_eq_dec ascii_dec a b); split; congruence.
Qed.

Lemma startswith_iff (p s : str) :
  startswith p s = true <-> exists t, s = p ++ t.
Proof.
  revert s. induction p as [|a p IH]; intros s; simpl.
  - split; [intros _; exists s; reflexivity | reflexivity].
  - destruct s as [|b s].
    + split; [discriminate | intros [t Ht]; discriminate].
    + rewrite andb_true_iff, Ascii.eqb_eq, IH. split.
      * intros [-> [t ->]]. exists t. reflexivity.
      * intros [t Ht]. injection Ht as -> ->. split; [reflexivity | eauto].
Qed.

Lemma startswith_app (p t : str) : startswith p (p ++ t) = true.
Proof. apply startswith_iff. exists t. reflexivity. Qed.

Lemma startswith_refl (p : str) : startswith p p = true.
Proof. apply startswith_iff. exists []. symmetry. apply app_nil_r. Qed.

Lemma startswith_false_iff (p s : str) :
  startswith p s = false <-> forall t, s <> p ++ t.
Proof.
  split.
  - intros H t ->. rewrite startswith_app in H. discriminate.
  - intros H. destruct (startswith p s) eqn:E; [|reflexivity].
    apply startswith_iff in E. destruct E as [t ->]. exfalso. eapply H; eauto.
Qed.

Lemma endswith_iff (p s : str) :
  endswith p s = true <-> exists t, s = t ++ p.
Proof.
  unfold endswith. rewrite startswith_iff. split.
  - intros [t Ht]. exists (rev t).
    rewrite <- (rev_involutive s), Ht, rev_app_distr, rev_involutive.
    reflexivity.
  - intros [t ->]. exists (rev t). apply rev_app_distr.
Qed.

Lemma endswith_app (t p : str) : endswith p (t ++ p) = true.
Proof. apply endswith_iff. eauto. Qed.

(** ** [replace] *)

Lemma replace_scan_hit (old new t : str) :
  old <> [] ->
  replace_scan old new (old ++ t) = new ++ replace_scan old new t.
Proof.
  destruct old as [|a old]; [congruence | intros _].
  change ((a :: old) ++ t) with (a :: (old ++ t)).
  rewrite replace_scan_equation_2.
  change (a :: old ++ t) with ((a :: old) ++ t).
  rewrite startswith_app. simpl.
  rewrite Nat.sub_0_r, skipn_app, skipn_all, Nat.sub_diag. reflexivity.
Qed.

Lemma replace_scan_miss (old new : str) (c : ascii) (t : str) :
  startswith old (c :: t) = false ->
  replace_scan old new (c :: t) = c :: replace_scan old new t.
Proof.
  intros H. rewrite replace_scan_equation_2, H. reflexivity.
Qed.

Lemma no_straddle_tail (p : str) (c : ascii) (a b : str) :
  no_straddle p (c :: a) b -> no_straddle p a b.
Proof.
  intros H a1 a2 -> Hne Hs. apply (H (c :: a1) a2); auto.
Qed.

Lemma no_straddle_skip (p a1 a2 b : str) :
  no_straddle p (a1 ++ a2) b -> no_straddle p a2 b.
Proof.
  induction a1 as [|c a1 IH]; simpl; intros H; [exact H|].
  apply IH. eapply no_straddle_tail; eauto.
Qed.

(** The scan of [a ++ b] is the scan of [a] followed by the scan of [b]
    when no match lies across the seam. *)
Lemma replace_scan_app (old new a b : str) :
  old <> [] ->
  no_straddle old a b ->
  replace_scan old new (a ++ b) =
  replace_scan old new a ++ replace_scan old new b.
Proof.
  intros Hold. remember (length a) as n eqn:Hn.
  revert a Hn. induction n as [n IH] using lt_wf_ind. intros a Hn Hns.
  destruct a as [|c a]; [simp replace_scan; reflexivity|].
  destruct (startswith old ((c :: a) ++ b)) eqn:E.
  - assert (Hin : startswith old (c :: a) = true).
    { apply (Hns [] (c :: a)); [reflexivity | discriminate | exact E]. }
    apply startswith_iff in Hin. destruct Hin as [t Ht]. rewrite Ht.
    rewrite <- app_assoc, !replace_scan_hit by assumption.
    rewrite <- app_assoc. f_equal.
    apply (IH (length t)); [|reflexivity|].
    + subst n. rewrite Ht, length_app.
      destruct old; [congruence | simpl; lia].
    + rewrite Ht in Hns. eapply no_straddle_skip; eauto.
  - assert (E' : startswith old (c :: a) = false).
    { apply startswith_false_iff. intros t Ht.
      rewrite Ht, <- app_assoc, startswith_app in E. discriminate. }
    simpl app. simpl in E.
    rewrite (replace_scan_miss _ _ _ _ E), (replace_scan_miss _ _ _ _ E').
    simpl. f_equal.
    apply (IH (length a)); [subst n; simpl; lia | reflexivity |].
    eapply no_straddle_tail; eauto.
Qed.

(** Without an occurrence starting in [x], the scan copies [x]. *)
Lemma replace_scan_copy (old new x b : str) :
  ~ occurs_from old x b ->
  replace_scan old new (x ++ b) = x ++ replace_scan old new b.
Proof.
  induction x as [|c x IH]; intros H; [reflexivity|].
  simpl app. rewrite replace_scan_miss.
  - f_equal. apply IH. intros (x1 & x2 & -> & Hne & Hs).
    apply H. exists (c :: x1), x2. auto.
  - destruct (startswith old (c :: x ++ b)) eqn:E; [|reflexivity].
    exfalso. apply H. exists [], (c :: x). repeat split; [discriminate | exact E].
Qed.

Lemma occurs_from_nil_r (p x b : str) :
  occurs_from p x [] -> occurs_from p x b.
Proof.
  intros (x1 & x2 & -> & Hne & Hs). exists x1, x2. repeat split; auto.
  rewrite app_nil_r in Hs. apply startswith_iff in Hs. destruct Hs as [t ->].
  rewrite <- app_assoc. apply startswith_app.
Qed.

Lemma replace_scan_id (old new x : str) :
  ~ occurs_from old x [] -> replace_scan old new x = x.
Proof.
  intros H. rewrite <- (app_nil_r x) at 1.
  rewrite replace_scan_copy by assumption. simp replace_scan.
  apply app_nil_r.
Qed.



(** ** Seams that no match crosses, decided on the known text *)
Lemma startswith_app_cases (p x b : str) :
  startswith p (x ++ b) = true ->
  startswith p x = true \/ startswith x p = true.
Proof.
  rewrite !startswith_iff. intros [t Ht].
  apply app_eq_app in Ht. destruct Ht as [l [[-> _] | [-> _]]]; eauto.
Qed.

Lemma closed_under_cons (old : str) (c : ascii) (x : str) :
  closed_under old (c :: x) =
  (startswith old (c :: x) || negb (startswith (c :: x) old))
  && closed_under old x.
Proof. reflexivity. Qed.

Lemma clear_of_cons (old : str) (c : ascii) (x : str) :
  clear_of old (c :: x) =
  negb (startswith old (c :: x)) && negb (startswith (c :: x) old)
  && clear_of old x.
Proof. reflexivity. Qed.

Lemma closed_under_no_straddle (old x b : str) :
  closed_under old x = true -> no_straddle old x b.
Proof.
  intros H a1 a2 -> Hne Hs.
  induction a1 as [|c a1 IH].
  - destruct a2 as [|c a2]; [congruence|].
    simpl app in H. rewrite closed_under_cons in H.
    apply andb_true_iff in H. destruct H as [H _].
    apply orb_true_iff in H. destruct H as [H | H]; [exact H|].
    apply startswith_app_cases in Hs. destruct Hs as [Hs | Hs]; [exact Hs|].
    rewrite Hs in H. discriminate.
  - apply IH. simpl app in H. rewrite closed_under_cons in H.
    apply andb_true_iff in H. tauto.
Qed.

Lemma clear_of_no_occurrence (old x b : str) :
  clear_of old x = true -> ~ occurs_from old x b.
Proof.
  intros H (x1 & x2 & -> & Hne & Hs).
  induction x1 as [|c x1 IH].
  - destruct x2 as [|c x2]; [congruence|].
    simpl app in H. rewrite clear_of_cons in H.
    apply andb_true_iff in H. destruct H as [H _].
    apply andb_true_iff in H. destruct H as [H1 H2].
    apply negb_true_iff in H1, H2.
    apply startswith_app_cases in Hs. destruct Hs; congruence.
  - apply IH. simpl app in H. rewrite clear_of_cons in H.
    apply andb_true_iff in H. tauto.
Qed.

Lemma clear_of_suffix (x l q : str) :
  clear_of x (l ++ q) = true -> q <> [] ->
  startswith x q = false /\ startswith q x = false.
Proof.
  intros H Hq. induction l as [|c l IH].
  - destruct q as [|c q]; [congruence|].
    simpl app in H. rewrite clear_of_cons in H.
    apply andb_true_iff in H. destruct H as [H _].
    apply andb_true_iff in H. destruct H as [H1 H2].
    apply negb_true_iff in H1, H2. auto.
  - apply IH. simpl app in H. rewrite clear_of_cons in H.
    apply andb_true_iff in H. tauto.
Qed.

(** No match runs from [a] into a following [x] when no proper end of
    [old] fits the start of [x]. *)
Lemma no_straddle_left (old x a b : str) :
  clear_of x (tl old) = true -> no_straddle old a (x ++ b).
Proof.
  intros H a1 a2 _ Hne Hs.
  destruct (startswith_app_cases _ _ _ Hs) as [Hin | Hpre]; [exact Hin|].
  apply startswith_iff in Hpre. destruct Hpre as [q Hq].
  destruct q as [|c q].
  - rewrite app_nil_r in Hq. subst old. apply startswith_refl.
  - exfalso. subst old.
    apply startswith_iff in Hs.
    destruct Hs as [t Ht]. rewrite <- app_assoc in Ht.
    apply app_inv_head in Ht.
    assert (Hs : startswith (c :: q) (x ++ b) = true).
    { apply startswith_iff. eauto. }
    destruct a2 as [|y a2]; [congruence|]. simpl tl in H.
    destruct (clear_of_suffix x a2 (c :: q) H ltac:(discriminate)) as [H1 H2].
    destruct (startswith_app_cases _ _ _ Hs); congruence.
Qed.

Lemma replace_nonempty (old new s : str) :
  old <> [] -> replace old new s = replace_scan old new s.
Proof. destruct old; [congruence | reflexivity]. Qed.

(** The scan of [a ++ x ++ b] splits at both ends of [x]. *)
Lemma replace_around (old new x a b : str) :
  old <> [] ->
  seam_ok old x = true ->
  replace old new (a ++ x ++ b) =
  replace old new a ++ replace old new x ++ replace old new b.
Proof.
  intros Hold Hx. rewrite !replace_nonempty by assumption.
  apply andb_true_iff in Hx. destruct Hx as [Hc Hx].
  rewrite replace_scan_app; [|assumption|].
  - f_equal. apply replace_scan_app; [assumption|].
    apply closed_under_no_straddle. exact Hx.
  - apply no_straddle_left. exact Hc.
Qed.

(** Replacing [old] by itself changes nothing. *)
Lemma replace_scan_same (old s : str) :
  old <> [] -> replace_scan old old s = s.
Proof.
  intros Hold. remember (length s) as n eqn:Hn. revert s Hn.
  induction n as [n IH] using lt_wf_ind. intros s Hn.
  destruct s as [|c s]; [simp replace_scan; reflexivity|].
  destruct (startswith old (c :: s)) eqn:E.
  - apply startswith_iff in E. destruct E as [t Ht]. rewrite Ht.
    rewrite replace_scan_hit by assumption. f_equal.
    apply (IH (length t)); [|reflexivity].
    subst n. rewrite Ht, length_app. destruct old; [congruence | simpl; lia].
  - rewrite replace_scan_miss by assumption. f_equal.
    apply (IH (length s)); [subst n; simpl; lia | reflexivity].
Qed.

(** Without an occurrence of [old] the scan changes nothing. *)
Lemma replace_scan_absent (old new s : str) :
  contains old s = false -> replace_scan old new s = s.
Proof.
  induction s as [|c s IH]; intros H; [simp replace_scan; reflexivity|].
  simpl in H. apply orb_false_iff in H. destruct H as [H1 H2].
  rewrite replace_scan_miss by exact H1. f_equal. auto.
Qed.

Lemma contains_iff (p s : str) :
  contains p s = true <-> exists a b, s = a ++ p ++ b.
Proof.
  induction s as [|c s IH]; simpl.
  - rewrite orb_false_r, startswith_iff. split.
    + intros [t Ht]. exists [], t. exact Ht.
    + intros (a & b & H). destruct a; [eauto|discriminate].
  - rewrite orb_true_iff, startswith_iff, IH. split.
    + intros [[t Ht] | (a & b & ->)].
      * exists [], t. exact Ht.
      * exists (c :: a), b. reflexivity.
    + intros (a & b & H). destruct a as [|x a].
      * left. exists b. exact H.
      * right. injection H as _ ->. eauto.
Qed.


Lemma replace_scan_self (old new : str) :
  old <> [] -> replace_scan old new old = new.
Proof.
  intros H. rewrite <- (app_nil_r old) at 2.
  rewrite replace_scan_hit by assumption. simp replace_scan.
  apply app_nil_r.
Qed.

(** [s.replace(old, new) == new.join(s.split(old))], read from right to
    left: between fields without [old], every separator [old] becomes
    [new]. *)
Lemma replace_join (old new : str) (fields : list str) :
  old <> [] ->
  seam_ok old old = true ->
  Forall (fun s => contains old s = false) fields ->
  replace old new (join old fields) = join new fields.
Proof.
  intros Hold Hseam Hf. induction Hf as [|s fields Hs Hf IH].
  - rewrite replace_nonempty by assumption. reflexivity.
  - destruct fields as [|s' fields].
    + simpl. rewrite replace_nonempty by assumption.
      apply replace_scan_absent. exact Hs.
    + change (join old (s :: s' :: fields))
        with (s ++ old ++ join old (s' :: fields)).
      change (join new (s :: s' :: fields))
        with (s ++ new ++ join new (s' :: fields)).
      rewrite replace_around by assumption. rewrite IH.
      rewrite !replace_nonempty by assumption.
      rewrite replace_scan_absent by exact Hs.
      rewrite replace_scan_self by assumption. reflexivity.
Qed.

(** ** Every text is a run of fields *)

Lemma contains_cons (p : str) (c : ascii) (s : str) :
  contains p (c :: s) = startswith p (c :: s) || contains p s.
Proof. reflexivity. Qed.

Lemma first_occurrence (p s : str) :
  p <> [] -> contains p s = true ->
  exists a b, s = a ++ p ++ b /\ contains p a = false.
Proof.
  intros Hp. induction s as [|c s IH].
  - destruct p; [congruence | discriminate].
  - rewrite contains_cons. destruct (startswith p (c :: s)) eqn:E.
    + intros _. apply startswith_iff in E. destruct E as [b ->].
      exists [], b. split; [reflexivity|]. destruct p; [congruence|reflexivity].
    + simpl. intros H. destruct (IH H) as (a & b & -> & Ha).
      exists (c :: a), b. split; [reflexivity|].
      rewrite contains_cons, Ha, orb_false_r.
      destruct (startswith p (c :: a)) eqn:E'; [|reflexivity].
      apply startswith_iff in E'. destruct E' as [t Ht].
      assert (startswith p (c :: a ++ p ++ b) = true); [|congruence].
      apply startswith_iff. exists (t ++ p ++ b).
      change (c :: a ++ p ++ b) with ((c :: a) ++ p ++ b).
      rewrite Ht, <- app_assoc. reflexivity.
Qed.

(** Every text is a run of fields without [p], separated by [p]. *)
Lemma fields_exist (p s : str) :
  p <> [] ->
  exists fields,
    s = join p fields /\ Forall (fun f => contains p f = false) fields.
Proof.
  intros Hp. remember (length s) as n eqn:Hn. revert s Hn.
  induction n as [n IH] using lt_wf_ind. intros s Hn.
  destruct (contains p s) eqn:E.
  - destruct (first_occurrence p s Hp E) as (a & b & -> & Ha).
    destruct (IH (length b)) with (s := b) as (fields & -> & Hf);
      [|reflexivity|].
    { subst n. rewrite !length_app. destruct p; [congruence | simpl; lia]. }
    destruct fields as [|f fields].
    + exists [a; []]. split; [reflexivity|].
      constructor; [exact Ha|]. constructor; [|constructor].
      destruct p; [congruence | reflexivity].
    + exists (a :: f :: fields). split; [reflexivity|].
      constructor; assumption.
  - exists [s]. split; [reflexivity|]. constructor; [exact E | constructor].
Qed.

(** ** Template substitution *)

Lemma title_token_nonempty : title_token <> [].
Proof. discriminate. Qed.

Lemma content_token_nonempty : content_token <> [].
Proof. discriminate. Qed.

Lemma replace_title_around (title a b : str) :
  replace title_token title (a ++ title_token ++ b) =
  replace title_token title a ++ title ++ replace title_token title b.
Proof.
  rewrite replace_around; [|discriminate|reflexivity].
  f_equal. f_equal. apply replace_scan_self. discriminate.
Qed.

Lemma replace_content_around (body a b : str) :
  replace content_token body (a ++ content_token ++ b) =
  replace content_token body a ++ body ++ replace content_token body b.
Proof.
  rewrite replace_around; [|discriminate|reflexivity].
  f_equal. f_equal. apply replace_scan_self. discriminate.
Qed.

Lemma substitute_content_around (title body a b : str) :
  substitute title body (a ++ content_token ++ b) =
  substitute title body a ++ body ++ substitute title body b.
Proof.
  unfold substitute.
  rewrite (replace_around title_token title content_token);
    [|discriminate|reflexivity].
  replace (replace title_token title content_token) with content_token
    by reflexivity.
  apply replace_content_around.
Qed.

(** ** URL rewriting *)

Lemma fix_urls_around (basepath x a b : str) :
  passes_ok basepath x = true ->
  fix_urls basepath (a ++ x ++ b) =
  fix_urls basepath a ++ fix_urls basepath x ++ fix_urls basepath b.
Proof.
  unfold passes_ok, fix_urls. cbv zeta.
  intros H.
  apply andb_true_iff in H. destruct H as [H H4].
  apply andb_true_iff in H. destruct H as [H H3].
  apply andb_true_iff in H. destruct H as [H1 H2].
  rewrite (replace_around href_marker) by (discriminate || assumption).
  rewrite (replace_around src_marker) by (discriminate || assumption).
  rewrite (replace_around href_root) by (discriminate || assumption).
  rewrite (replace_around src_root) by (discriminate || assumption).
  reflexivity.
Qed.

Lemma fix_urls_default_id (html : str) :
  contains href_marker html = false ->
  contains src_marker html = false ->
  fix_urls (normalize_basepath default_basepath) html = html.
Proof.
  intros H1 H2. unfold fix_urls. cbv zeta.
  rewrite (replace_nonempty href_marker) by discriminate.
  rewrite (replace_scan_absent _ _ _ H1).
  rewrite (replace_nonempty src_marker) by discriminate.
  rewrite (replace_scan_absent _ _ _ H2).
  replace (href_open ++ rstrip_char slash (normalize_basepath default_basepath)
             ++ [slash]) with href_root by reflexivity.
  replace (src_open ++ rstrip_char slash (normalize_basepath default_basepath)
             ++ [slash]) with src_root by reflexivity.
  rewrite (replace_nonempty href_root) by discriminate.
  rewrite replace_scan_same by discriminate.
  rewrite (replace_nonempty src_root) by discriminate.
  apply replace_scan_same. discriminate.
Qed.

(** ** Rewriting with an arbitrary base path *)

Lemma tails_In (x1 x2 : str) : x2 <> [] -> In x2 (tails (x1 ++ x2)).
Proof.
  intros H. induction x1 as [|c x1 IH].
  - destruct x2; [congruence | left; reflexivity].
  - right. exact IH.
Qed.

Lemma replace_around_hit (old new a b : str) :
  old <> [] ->
  seam_ok old old = true ->
  replace old new (a ++ old ++ b) =
  replace old new a ++ new ++ replace old new b.
Proof.
  intros Hold Hs. rewrite replace_around by assumption.
  rewrite (replace_nonempty old new old) by assumption.
  rewrite replace_scan_self by assumption. reflexivity.
Qed.

Lemma replace_around_copy (old new x0 x1 a b : str) :
  old <> [] ->
  clear_of x0 (tl old) = true ->
  ~ occurs_from old (x0 ++ x1) b ->
  replace old new (a ++ (x0 ++ x1) ++ b) =
  replace old new a ++ (x0 ++ x1) ++ replace old new b.
Proof.
  intros Hold Hl Hr. rewrite !replace_nonempty by assumption.
  rewrite <- (app_assoc x0 x1 b).
  rewrite replace_scan_app; [|assumption|apply no_straddle_left; exact Hl].
  rewrite (app_assoc x0 x1 b).
  rewrite replace_scan_copy by exact Hr. reflexivity.
Qed.

Lemma suffix_keeps_last (l x2 s : str) (c : ascii) :
  s ++ [c] = l ++ x2 -> x2 <> [] -> exists x2', x2 = x2' ++ [c].
Proof.
  intros H Hne. destruct (exists_last Hne) as (x2' & d & ->).
  rewrite app_assoc in H. apply app_inj_tail in H. destruct H as [_ ->].
  eauto.
Qed.

(** A text without a quote that ends in a slash does not start a match
    of [w ++ dquote :: z] when [w] has no slash. *)
Lemma no_match_in_tail (w z x2' b : str) :
  ~ In dquote (x2' ++ [slash]) ->
  ~ In slash w ->
  startswith (w ++ dquote :: z) ((x2' ++ [slash]) ++ b) = false.
Proof.
  intros Hq Hw. remember (x2' ++ [slash]) as x2 eqn:Hx2.
  apply startswith_false_iff. intros t Ht.
  rewrite <- app_assoc in Ht. apply app_eq_app in Ht.
  destruct Ht as [m [[Hm Hm'] | [Hw' _]]].
  - destruct m as [|c m].
    + rewrite app_nil_r in Hm. apply Hw. rewrite <- Hm, Hx2.
      apply in_or_app. right. left. reflexivity.
    + simpl in Hm'. injection Hm' as <- _.
      apply Hq. rewrite Hm. apply in_or_app. right. left. reflexivity.
  - apply Hw. rewrite Hw', Hx2. apply in_or_app. left.
    apply in_or_app. right. left. reflexivity.
Qed.

(** Where a match of [w ++ dquote :: z] can start in [pre ++ nb], for a
    text [nb] without a quote that ends in a slash, and [w] without a
    slash: only inside [pre]. *)
Lemma no_occurrence_in_basepath (w z pre nb' b : str) :
  ~ In dquote (nb' ++ [slash]) ->
  ~ In slash w ->
  Forall (fun u =>
            startswith (w ++ dquote :: z) (u ++ (nb' ++ [slash]) ++ b) = false)
         (tails pre) ->
  ~ occurs_from (w ++ dquote :: z) (pre ++ nb' ++ [slash]) b.
Proof.
  intros Hq Hw Hpre (x1 & x2 & Hx & Hne & Hs).
  assert (Htail : forall l, nb' ++ [slash] = l ++ x2 -> False).
  { intros l Hnb.
    destruct (suffix_keeps_last _ _ _ _ Hnb Hne) as [x2' ->].
    rewrite no_match_in_tail in Hs; [discriminate| |exact Hw].
    intros Hin. apply Hq. rewrite Hnb. apply in_or_app. right. exact Hin. }
  symmetry in Hx. apply app_eq_app in Hx.
  destruct Hx as [l [[_ Hnb] | [Hp ->]]]; [exact (Htail l Hnb)|].
  destruct l as [|c l]; [exact (Htail [] eq_refl)|].
  rewrite Forall_forall in Hpre.
  specialize (Hpre (c :: l)). rewrite Hp in Hpre.
  rewrite <- app_assoc in Hs. rewrite Hpre in Hs; [discriminate|].
  apply tails_In. discriminate.
Qed.


Lemma normalize_basepath_slash (basepath : str) :
  exists nb', normalize_basepath basepath = nb' ++ [slash].
Proof.
  unfold normalize_basepath. destruct (endswith [slash] basepath) eqn:E.
  - apply endswith_iff in E. exact E.
  - eauto.
Qed.

Lemma startswith_slash_app (x b : str) :
  x <> [] -> startswith [slash] (x ++ b) = startswith [slash] x.
Proof. destruct x; [congruence | reflexivity]. Qed.

Lemma root_passes_id (nb s : str) :
  rstrip_char slash nb = [] ->
  replace src_root (src_open ++ rstrip_char slash nb ++ [slash])
    (replace href_root (href_open ++ rstrip_char slash nb ++ [slash]) s) = s.
Proof.
  intros ->. change (href_open ++ [] ++ [slash]) with href_root.
  change (src_open ++ [] ++ [slash]) with src_root.
  rewrite !replace_nonempty by discriminate.
  rewrite !replace_scan_same by discriminate. reflexivity.
Qed.

Lemma startswith_app_same (pre p s : str) :
  startswith (pre ++ p) (pre ++ s) = startswith p s.
Proof.
  induction pre as [|c pre IH]; [reflexivity|].
  simpl. rewrite Ascii.eqb_refl. exact IH.
Qed.

(** The goals left by [no_occurrence_in_basepath] for a known [pre]: at
    each place of [pre] the first characters decide, except where [pre]
    is the start of the pattern and the base path is looked at. *)
Ltac tails_goals Hslash :=
  repeat constructor;
  try reflexivity;
  try match goal with
      | |- startswith _ (?u ++ ?n ++ ?b) = false =>
          change (startswith (u ++ [slash]) (u ++ n ++ b) = false);
          rewrite startswith_app_same, startswith_slash_app
            by (let H := fresh in intros H; apply app_eq_nil in H;
                destruct H; discriminate);
          exact Hslash
      end.

Section BasePath.

Variables (nb' : str).
Let nb : str := nb' ++ [slash].
Hypothesis no_quote : ~ In dquote nb.

Lemma src_marker_not_in_basepath (pre b : str) :
  Forall (fun u =>
            startswith (lit "src=" ++ dquote :: site_marker)
                       (u ++ nb ++ b) = false) (tails pre) ->
  ~ occurs_from src_marker (pre ++ nb) b.
Proof.
  intros H. apply (no_occurrence_in_basepath (lit "src=") site_marker);
    [exact no_quote | | exact H].
  cbn. intros [H1 | [H1 | [H1 | [H1 | []]]]]; discriminate.
Qed.

Lemma href_root_not_in_basepath (pre b : str) :
  Forall (fun u =>
            startswith (lit "href=" ++ dquote :: [slash])
                       (u ++ nb ++ b) = false) (tails pre) ->
  ~ occurs_from href_root (pre ++ nb) b.
Proof.
  intros H. apply (no_occurrence_in_basepath (lit "href=") [slash]);
    [exact no_quote | | exact H].
  cbn. intros [H1 | [H1 | [H1 | [H1 | [H1 | []]]]]]; discriminate.
Qed.

Lemma src_root_not_in_basepath (pre b : str) :
  Forall (fun u =>
            startswith (lit "src=" ++ dquote :: [slash])
                       (u ++ nb ++ b) = false) (tails pre) ->
  ~ occurs_from src_root (pre ++ nb) b.
Proof.
  intros H. apply (no_occurrence_in_basepath (lit "src=") [slash]);
    [exact no_quote | | exact H].
  cbn. intros [H1 | [H1 | [H1 | [H1 | []]]]]; discriminate.
Qed.

Hypothesis single_rewrite :
  startswith [slash] nb = false \/ rstrip_char slash nb = [].

Lemma fix_urls_href_marker_once (a b : str) :
  fix_urls nb (a ++ href_marker ++ b) =
  fix_urls nb a ++ (href_open ++ nb) ++ fix_urls nb b.
Proof.
  unfold fix_urls. cbv zeta.
    rewrite (replace_around_hit href_marker) by (discriminate || reflexivity).
  rewrite (replace_around_copy src_marker _ href_open nb);
    [|discriminate|reflexivity|].
  2:{ apply src_marker_not_in_basepath. tails_goals tt. }
  destruct single_rewrite as [Hslash | Hall].
  - rewrite (replace_around_copy href_root _ href_open nb);
      [|discriminate|reflexivity|].
    2:{ apply href_root_not_in_basepath. tails_goals Hslash. }
    rewrite (replace_around_copy src_root _ href_open nb);
      [|discriminate|reflexivity|].
    2:{ apply src_root_not_in_basepath. tails_goals Hslash. }
    reflexivity.
  - rewrite !(root_passes_id nb) by exact Hall. reflexivity.
Qed.

Lemma fix_urls_src_marker_once (a b : str) :
  fix_urls nb (a ++ src_marker ++ b) =
  fix_urls nb a ++ (src_open ++ nb) ++ fix_urls nb b.
Proof.
  unfold fix_urls. cbv zeta.
    rewrite (replace_around href_marker (href_open ++ nb) src_marker)
    by (discriminate || reflexivity).
  rewrite (replace_nonempty href_marker (href_open ++ nb) src_marker)
    by discriminate.
  rewrite (replace_scan_absent href_marker (href_open ++ nb) src_marker)
    by reflexivity.
  rewrite (replace_around_hit src_marker) by (discriminate || reflexivity).
  destruct single_rewrite as [Hslash | Hall].
  - rewrite (replace_around_copy href_root _ src_open nb);
      [|discriminate|reflexivity|].
    2:{ apply href_root_not_in_basepath. tails_goals Hslash. }
    rewrite (replace_around_copy src_root _ src_open nb);
      [|discriminate|reflexivity|].
    2:{ apply src_root_not_in_basepath. tails_goals Hslash. }
    reflexivity.
  - rewrite !(root_passes_id nb) by exact Hall. reflexivity.
Qed.

End BasePath.

Lemma lstrip_char_suffix (c : ascii) (s : str) :
  exists t, s = t ++ lstrip_char c s.
Proof.
  induction s as [|a s [t IH]]; [exists []; reflexivity|].
  simpl. destruct (Ascii.eqb a c).
  - exists (a :: t). simpl. rewrite <- IH. reflexivity.
  - exists []. reflexivity.
Qed.

Lemma rstrip_char_In (c x : ascii) (s : str) :
  In x (rstrip_char c s) -> In x s.
Proof.
  unfold rstrip_char. intros H. apply in_rev in H.
  destruct (lstrip_char_suffix c (rev s)) as [t Ht].
  apply in_rev. rewrite Ht. apply in_or_app. right. exact H.
Qed.

(** A root-relative link of the template is rewritten once, whatever
    the base path, as long as it has no double quote. *)
Lemma fix_urls_href_root_once (nb a b : str) :
  ~ In dquote nb ->
  fix_urls nb (a ++ href_root ++ b) =
  fix_urls nb a ++ (href_open ++ rstrip_char slash nb ++ [slash])
  ++ fix_urls nb b.
Proof.
  intros Hq. unfold fix_urls. cbv zeta.
  rewrite (replace_around href_marker (href_open ++ nb) href_root)
    by (discriminate || reflexivity).
  rewrite (replace_nonempty href_marker (href_open ++ nb) href_root)
    by discriminate.
  rewrite (replace_scan_absent href_marker (href_open ++ nb) href_root)
    by reflexivity.
  rewrite (replace_around src_marker (src_open ++ nb) href_root)
    by (discriminate || reflexivity).
  rewrite (replace_nonempty src_marker (src_open ++ nb) href_root)
    by discriminate.
  rewrite (replace_scan_absent src_marker (src_open ++ nb) href_root)
    by reflexivity.
  rewrite (replace_around_hit href_root) by (discriminate || reflexivity).
  rewrite (replace_around_copy src_root _ href_open
             (rstrip_char slash nb ++ [slash]));
    [reflexivity|discriminate|reflexivity|].
  apply src_root_not_in_basepath; [|tails_goals tt].
  intros Hin. apply in_app_or in Hin. destruct Hin as [Hin | [Hin | []]].
  - apply Hq. eapply rstrip_char_In. exact Hin.
  - discriminate Hin.
Qed.

Lemma fix_urls_src_root_once (nb a b : str) :
  fix_urls nb (a ++ src_root ++ b) =
  fix_urls nb a ++ (src_open ++ rstrip_char slash nb ++ [slash])
  ++ fix_urls nb b.
Proof.
  unfold fix_urls. cbv zeta.
  rewrite (replace_around href_marker (href_open ++ nb) src_root)
    by (discriminate || reflexivity).
  rewrite (replace_nonempty href_marker (href_open ++ nb) src_root)
    by discriminate.
  rewrite (replace_scan_absent href_marker (href_open ++ nb) src_root)
    by reflexivity.
  rewrite (replace_around src_marker (src_open ++ nb) src_root)
    by (discriminate || reflexivity).
  rewrite (replace_nonempty src_marker (src_open ++ nb) src_root)
    by discriminate.
  rewrite (replace_scan_absent src_marker (src_open ++ nb) src_root)
    by reflexivity.
  rewrite (replace_around href_root
             (href_open ++ rstrip_char slash nb ++ [slash]) src_root)
    by (discriminate || reflexivity).
  rewrite (replace_nonempty href_root
             (href_open ++ rstrip_char slash nb ++ [slash]) src_root)
    by discriminate.
  rewrite (replace_scan_absent href_root
             (href_open ++ rstrip_char slash nb ++ [slash]) src_root)
    by reflexivity.
  rewrite (replace_around_hit src_root) by (discriminate || reflexivity).
  reflexivity.
Qed.


(** ** [split] and [join] *)

Lemma split_char_nonempty (c : ascii) (s : str) : split_char c s <> [].
Proof.
  destruct s as [|a s]; simpl; [discriminate|].
  destruct (Ascii.eqb a c); [discriminate|].
  destruct (split_char c s); discriminate.
Qed.

Lemma join_cons (sep p : str) (ps : list str) :
  ps <> [] -> join sep (p :: ps) = p ++ sep ++ join sep ps.
Proof. destruct ps; [congruence | reflexivity]. Qed.

(** The fields of [s.split(c)], joined by [c], are [s] again. *)
Lemma join_split_char (c : ascii) (s : str) :
  join [c] (split_char c s) = s.
Proof.
  induction s as [|a s IH]; [reflexivity|].
  simpl split_char. destruct (Ascii.eqb a c) eqn:E.
  - apply Ascii.eqb_eq in E. subst a.
    rewrite join_cons by apply split_char_nonempty. rewrite IH. reflexivity.
  - pose proof (split_char_nonempty c s) as Hne.
    destruct (split_char c s) as [|l ls]; [congruence|].
    destruct ls as [|l' ls].
    + simpl in *. congruence.
    + rewrite join_cons in IH by discriminate.
      rewrite join_cons by discriminate. rewrite <- IH. reflexivity.
Qed.

(** No field of [s.split(c)] contains [c]. *)
Lemma split_char_fields (c : ascii) (s : str) :
  Forall (fun l => ~ In c l) (split_char c s).
Proof.
  induction s as [|a s IH]; simpl.
  - constructor; [intros [] | constructor].
  - destruct (Ascii.eqb a c) eqn:E.
    + constructor; [intros [] | exact IH].
    + destruct (split_char c s) as [|l ls].
      * constructor; [|constructor]. intros [H | []].
        subst. rewrite Ascii.eqb_refl in E. discriminate.
      * inversion IH as [|? ? Hl Hls]. subst. constructor; [|exact Hls].
        intros [H | H]; [|auto].
        subst. rewrite Ascii.eqb_refl in E. discriminate.
Qed.

Lemma split_char_no_sep (c : ascii) (l : str) :
  ~ In c l -> split_char c l = [l].
Proof.
  induction l as [|a l IH]; intros H; [reflexivity|].
  simpl. destruct (Ascii.eqb a c) eqn:E.
  - apply Ascii.eqb_eq in E. subst. exfalso. apply H. left. reflexivity.
  - rewrite IH; [reflexivity|]. intros Hin. apply H. right. exact Hin.
Qed.

Lemma split_char_app (c : ascii) (l rest : str) :
  ~ In c l ->
  split_char c (l ++ c :: rest) = l :: split_char c rest.
Proof.
  induction l as [|a l IH]; intros H.
  - simpl. rewrite Ascii.eqb_refl. reflexivity.
  - simpl. destruct (Ascii.eqb a c) eqn:E.
    + apply Ascii.eqb_eq in E. subst. exfalso. apply H. left. reflexivity.
    + rewrite IH; [reflexivity|]. intros Hin. apply H. right. exact Hin.
Qed.

(** Fields without [c], joined by [c], split into the same fields. *)
Lemma split_char_join (c : ascii) (fields : list str) :
  fields <> [] ->
  Forall (fun l => ~ In c l) fields ->
  split_char c (join [c] fields) = fields.
Proof.
  intros Hne H. revert Hne.
  induction H as [|l fields Hl Hf IH]; intros Hne; [exfalso; apply Hne; reflexivity|].
  destruct fields as [|l' fields].
  - simpl. apply split_char_no_sep. exact Hl.
  - rewrite join_cons by discriminate.
    change ([c] ++ join [c] (l' :: fields)) with (c :: join [c] (l' :: fields)).
    rewrite split_char_app by exact Hl.
    f_equal. apply IH. discriminate.
Qed.

(** ** [extract_title] *)

Lemma first_heading_cons (l : str) (rest : list str) :
  first_heading (l :: rest) =
  if startswith heading_marker l then Ok (skipn 2 l) else first_heading rest.
Proof. reflexivity. Qed.

Lemma first_heading_skip (pre rest : list str) :
  Forall not_heading pre ->
  first_heading (pre ++ rest) = first_heading rest.
Proof.
  induction 1 as [|l pre Hl _ IH]; [reflexivity|].
  simpl app. rewrite first_heading_cons, Hl. exact IH.
Qed.

Lemma first_heading_raise (lines : list str) (e : exn) :
  first_heading lines = Raise e ->
  e = ValueError no_title_message /\
  Forall not_heading lines.
Proof.
  induction lines as [|l lines IH].
  - simpl. intros H. injection H as <-. split; [reflexivity | constructor].
  - rewrite first_heading_cons.
    destruct (startswith heading_marker l) eqn:E; [discriminate|].
    intros H. destruct (IH H) as [-> Hf]. split; [reflexivity|].
    constructor; assumption.
Qed.

Lemma first_heading_none (lines : list str) :
  Forall not_heading lines ->
  first_heading lines = Raise (ValueError no_title_message).
Proof.
  intros H. rewrite <- (app_nil_r lines).
  rewrite first_heading_skip by exact H. reflexivity.
Qed.

Lemma extract_title_heading (pre post : list str) (title : str) :
  Forall (fun l => ~ In newline l) (pre ++ (heading_marker ++ title) :: post) ->
  Forall not_heading pre ->
  extract_title (join [newline] (pre ++ (heading_marker ++ title) :: post))
  = Ok title.
Proof.
  intros Hnl Hpre. unfold extract_title.
  rewrite split_char_join; [|destruct pre; discriminate|exact Hnl].
  rewrite first_heading_skip by exact Hpre.
  rewrite first_heading_cons, startswith_app. reflexivity.
Qed.

Lemma first_match_split {A : Type} (P : A -> bool) (l : list A) :
  existsb P l = true ->
  exists pre x post,
    l = pre ++ x :: post /\ Forall (fun y => P y = false) pre /\ P x = true.
Proof.
  induction l as [|y l IH]; [discriminate|].
  simpl. destruct (P y) eqn:E.
  - intros _. exists [], y, l. repeat split; [constructor | exact E].
  - intros H. destruct (IH H) as (pre & x & post & -> & Hpre & Hx).
    exists (y :: pre), x, post. repeat split; [constructor|]; assumption.
Qed.

(** Every document with a line that starts with the heading marker is
    made of the lines before the first such line, that line, and the
    lines after it. *)
Lemma first_heading_line (d : str) :
  existsb (startswith heading_marker) (split_char newline d) = true ->
  exists pre title post,
    d = join [newline] (pre ++ (heading_marker ++ title) :: post)
    /\ Forall (fun line => ~ In newline line)
              (pre ++ (heading_marker ++ title) :: post)
    /\ Forall not_heading pre.
Proof.
  intros H. apply first_match_split in H.
  destruct H as (pre & line & post & Hsplit & Hpre & Hline).
  apply startswith_iff in Hline. destruct Hline as [title ->].
  exists pre, title, post. split; [|split].
  - pose proof (join_split_char newline d) as J.
    rewrite Hsplit in J. symmetry. exact J.
  - pose proof (split_char_fields newline d) as F.
    rewrite Hsplit in F. exact F.
  - exact Hpre.
Qed.

(** ** File names *)

(** A name whose only [.md] is its extension gets the extension
    [.html]. *)
Lemma output_filename_extension (stem : str) :
  contains md_suffix stem = false ->
  output_filename (stem ++ md_suffix) = stem ++ html_suffix.
Proof.
  intros H. unfold output_filename.
  rewrite <- (app_nil_r md_suffix) at 2.
  rewrite replace_around_hit by (discriminate || reflexivity).
  rewrite replace_nonempty by discriminate.
  rewrite replace_scan_absent by exact H.
  rewrite app_nil_r. reflexivity.
Qed.

(** Every [.md] in a name is rewritten, not only the last one. *)
Lemma output_filename_inner (stem rest : str) :
  output_filename (stem ++ md_suffix ++ rest) =
  output_filename stem ++ html_suffix ++ output_filename rest.
Proof.
  unfold output_filename.
  apply replace_around_hit; [discriminate | reflexivity].
Qed.

(** ** [generate_page] *)

Section GeneratePage.

Variable markdown_to_html : str -> result str.

(** When both files can be read, the title is found and the renderer
    returns, [generate_page] writes the rendered page. *)
Lemma generate_page_writes
    (st : fs) (input_path template_path output_path basepath : str)
    (markdown title html_content template : str) :
  read_file st input_path = Ok markdown ->
  extract_title markdown = Ok title ->
  markdown_to_html markdown = Ok html_content ->
  read_file st template_path = Ok template ->
  generate_page markdown_to_html input_path template_path output_path
    basepath st
  = write_file st output_path
      (render_page title html_content template basepath).
Proof.
  intros Hin Ht Hr Htpl.
  unfold generate_page, bind, observe, lift.
  rewrite Hin, Ht, Hr, Htpl. reflexivity.
Qed.

(** Without a title nothing is rendered and nothing is written. *)
Lemma generate_page_no_title
    (st : fs) (input_path template_path output_path basepath : str)
    (markdown : str) (e : exn) :
  read_file st input_path = Ok markdown ->
  extract_title markdown = Raise e ->
  generate_page markdown_to_html input_path template_path output_path
    basepath st
  = (st, Raise e).
Proof.
  intros Hin Ht.
  unfold generate_page, bind, observe, lift.
  rewrite Hin, Ht. reflexivity.
Qed.

End GeneratePage.

(** * File system facts *)

Lemma assoc_set_same (k : str) (v : node) (es : list (str * node)) :
  assoc k (assoc_set k v es) = Some v.
Proof.
  induction es as [|[k' v'] es IH]; simpl.
  - rewrite str_eqb_refl. reflexivity.
  - destruct (str_eqb k k') eqn:E; simpl.
    + rewrite str_eqb_refl. reflexivity.
    + rewrite E. exact IH.
Qed.

Lemma assoc_set_other (k k' : str) (v : node) (es : list (str * node)) :
  k' <> k -> assoc k' (assoc_set k v es) = assoc k' es.
Proof.
  intros Hne. induction es as [|[k0 v0] es IH]; simpl.
  - apply str_eqb_neq in Hne. rewrite Hne. reflexivity.
  - destruct (str_eqb k k0) eqn:E; simpl.
    + apply str_eqb_eq in E. subst k0.
      apply str_eqb_neq in Hne. rewrite Hne. reflexivity.
    + destruct (str_eqb k' k0); [reflexivity | exact IH].
Qed.

Lemma get_app (n : node) (l1 l2 : location) :
  get n (l1 ++ l2) =
  match get n l1 with
  | Some m => get m l2
  | None => None
  end.
Proof.
  revert n. induction l1 as [|c l1 IH]; intros n; [reflexivity|].
  simpl. destruct n as [d|es]; [reflexivity|].
  destruct (assoc c es); [apply IH | reflexivity].
Qed.

Lemma put_cons_cons (n : node) (c c' : str) (rest : location) (v : node) :
  put n (c :: c' :: rest) v =
  match n with
  | Dir es =>
      match assoc c es with
      | Some m =>
          match put m (c' :: rest) v with
          | Some m' => Some (Dir (assoc_set c m' es))
          | None => None
          end
      | None => None
      end
  | File _ => None
  end.
Proof. reflexivity. Qed.

(** What [put] leaves at and below the place it writes. *)
Lemma get_put_ext (n : node) (loc : location) (v n' : node) (l : location) :
  put n loc v = Some n' -> get n' (loc ++ l) = get v l.
Proof.
  revert n n'. induction loc as [|c loc IH]; intros n n' H.
  - simpl in H. injection H as <-. reflexivity.
  - simpl in H. destruct n as [d|es]; [discriminate|].
    destruct loc as [|c' loc].
    + injection H as <-. simpl. rewrite assoc_set_same. reflexivity.
    + destruct (assoc c es) as [m|] eqn:Em; [|discriminate].
      destruct (put m (c' :: loc) v) as [m'|] eqn:Ep; [|discriminate].
      injection H as <-. simpl app. simpl get at 1.
      rewrite assoc_set_same. apply (IH m m' Ep).
Qed.

(** The places above the one [put] writes are directories before and
    after. *)
Lemma get_put_above (n : node) (loc : location) (v n' : node)
    (l : location) (c : str) (r : location) :
  put n loc v = Some n' -> loc = l ++ c :: r ->
  is_dir n l /\ is_dir n' l.
Proof.
  revert n n' loc. induction l as [|a l IH]; intros n n' loc H ->.
  - simpl in H. destruct n as [d|es]; [discriminate|].
    split; [exists es; reflexivity|].
    destruct r as [|c' r].
    + injection H as <-. eexists. reflexivity.
    + destruct (assoc c es) as [m|]; [|discriminate].
      destruct (put m (c' :: r) v); [|discriminate].
      injection H as <-. eexists. reflexivity.
  - assert (Hne : exists c' rest, l ++ c :: r = c' :: rest)
      by (destruct l; simpl; eauto).
    destruct Hne as (c' & rest & Er).
    simpl app in H. rewrite Er, put_cons_cons in H.
    destruct n as [d|es]; [discriminate|].
    destruct (assoc a es) as [m|] eqn:Em; [|discriminate].
    destruct (put m (c' :: rest) v) as [m'|] eqn:Ep; [|discriminate].
    injection H as <-. rewrite <- Er in Ep.
    destruct (IH m m' _ Ep eq_refl) as [[es1 H1] [es2 H2]].
    split.
    + exists es1. simpl. rewrite Em. exact H1.
    + exists es2. simpl. rewrite assoc_set_same. exact H2.
Qed.

(** A place off the path that [put] writes is left as it was. *)
Lemma get_put_off (n : node) (v n' : node)
    (p : location) (a b : str) (l1 l2 : location) :
  put n (p ++ b :: l2) v = Some n' -> a <> b ->
  get n' (p ++ a :: l1) = get n (p ++ a :: l1).
Proof.
  revert n n'. induction p as [|c p IH]; intros n n' H Hab.
  - simpl in H. destruct n as [d|es]; [discriminate|].
    destruct l2 as [|c' l2].
    + injection H as <-. simpl. rewrite assoc_set_other by exact Hab.
      reflexivity.
    + destruct (assoc b es) as [m|]; [|discriminate].
      destruct (put m (c' :: l2) v); [|discriminate].
      injection H as <-. simpl. rewrite assoc_set_other by exact Hab.
      reflexivity.
  - assert (Hne : exists c' rest, p ++ b :: l2 = c' :: rest)
      by (destruct p; simpl; eauto).
    destruct Hne as (c' & rest & Er).
    simpl app in H. rewrite Er, put_cons_cons in H.
    destruct n as [d|es]; [discriminate|].
    destruct (assoc c es) as [m|] eqn:Em; [|discriminate].
    destruct (put m (c' :: rest) v) as [m'|] eqn:Ep; [|discriminate].
    injection H as <-. simpl. rewrite assoc_set_same, Em.
    apply IH; [|exact Hab]. rewrite Er. exact Ep.
Qed.

(** Two locations: one continues the other, or they part at some name. *)
Lemma location_cases (l loc : location) :
  (exists x, l = loc ++ x)
  \/ (exists c r, loc = l ++ c :: r)
  \/ (exists p a b l1 l2, l = p ++ a :: l1 /\ loc = p ++ b :: l2 /\ a <> b).
Proof.
  revert loc. induction l as [|a l IH]; intros loc.
  - destruct loc as [|c r]; [left; exists []; reflexivity|].
    right. left. exists c, r. reflexivity.
  - destruct loc as [|b loc]; [left; exists (a :: l); reflexivity|].
    destruct (list_eq_dec ascii_dec a b) as [->|Hab].
    + destruct (IH loc) as [[x ->] | [(c & r & ->) | (p & a' & b' & l1 & l2 & -> & -> & Hne)]].
      * left. exists x. reflexivity.
      * right. left. exists c, r. reflexivity.
      * right. right. exists (b :: p), a', b', l1, l2. auto.
    + right. right. exists [], a, b, l, loc. auto.
Qed.

Lemma grows_refl (P : location -> Prop) (r : node) : grows P r r.
Proof. repeat split; auto. Qed.

Lemma grows_trans (P : location -> Prop) (r1 r2 r3 : node) :
  grows P r1 r2 -> grows P r2 r3 -> grows P r1 r3.
Proof.
  intros (D1 & F1 & N1 & V1) (D2 & F2 & N2 & V2). repeat split; auto.
  intros l H. destruct (N2 l H) as [H' | H']; auto.
Qed.

Lemma grows_weaken (P Q : location -> Prop) (r r' : node) :
  (forall l, P l -> Q l) -> grows P r r' -> grows Q r r'.
Proof.
  intros HPQ (D & F & N & V). repeat split; auto.
  intros l H. destruct (N l H); auto.
Qed.

Lemma is_dir_not_file (r : node) (l : location) :
  is_dir r l -> is_file r l -> False.
Proof. intros [es H1] [d H2]. congruence. Qed.

Lemma Forall_app_l {A : Type} (P : A -> Prop) (l1 l2 : list A) :
  Forall P (l1 ++ l2) -> Forall P l1.
Proof. intros H. apply Forall_app in H. tauto. Qed.

(** Writing a leaf [v] at a place with nothing below it. *)
Lemma put_leaf_grows (r : node) (loc : location) (v r' : node) :
  put r loc v = Some r' ->
  (forall c x, get v (c :: x) = None) ->
  (forall c x, get r (loc ++ c :: x) = None) ->
  (is_dir r loc -> is_dir v []) ->
  (is_file r loc -> is_file v []) ->
  (valid_names r -> Forall valid_name loc) ->
  grows (fun l => l = loc /\ is_file v []) r r'.
Proof.
  intros Hput Hleaf Hbelow Hd Hf Hvalid.
  assert (Hat : forall x, get r' (loc ++ x) = get v x)
    by (intros x; apply (get_put_ext _ _ _ _ _ Hput)).
  assert (Hcases : forall l,
             (l = loc)
             \/ (exists c x, l = loc ++ c :: x)
             \/ (exists c x, loc = l ++ c :: x)
             \/ (get r' l = get r l)).
  { intros l. destruct (location_cases l loc)
      as [[x ->] | [(c & x & ->) | (p & a & b & l1 & l2 & -> & -> & Hne)]].
    - destruct x as [|c x]; [left; apply app_nil_r|].
      right. left. eauto.
    - right. right. left. eauto.
    - right. right. right. eapply get_put_off; eauto. }
  repeat split.
  - intros l H. destruct (Hcases l) as [-> | [(c & x & ->) | [(c & x & E) | E]]].
    + destruct (Hd H) as [es Hes]. exists es.
      rewrite <- (app_nil_r loc), Hat. exact Hes.
    + destruct H as [es H]. rewrite Hbelow in H. discriminate.
    + apply (get_put_above _ _ _ _ _ _ _ Hput E).
    + destruct H as [es H]. exists es. congruence.
  - intros l H. destruct (Hcases l) as [-> | [(c & x & ->) | [(c & x & E) | E]]].
    + destruct (Hf H) as [d Hd']. exists d.
      rewrite <- (app_nil_r loc), Hat. exact Hd'.
    + destruct H as [d H]. rewrite Hbelow in H. discriminate.
    + exfalso. apply (is_dir_not_file r l); [|exact H].
      apply (get_put_above _ _ _ _ _ _ _ Hput E).
    + destruct H as [d H]. exists d. congruence.
  - intros l H. destruct (Hcases l) as [-> | [(c & x & ->) | [(c & x & E) | E]]].
    + right. split; [reflexivity|]. destruct H as [d H]. exists d.
      rewrite <- (app_nil_r loc), Hat in H. exact H.
    + destruct H as [d H]. rewrite Hat, Hleaf in H. discriminate.
    + exfalso. apply (is_dir_not_file r' l); [|exact H].
      apply (get_put_above _ _ _ _ _ _ _ Hput E).
    + left. destruct H as [d H]. exists d. congruence.
  - intros Hv l H. destruct (Hcases l) as [-> | [(c & x & ->) | [(c & x & E) | E]]].
    + auto.
    + rewrite Hat, Hleaf in H. congruence.
    + specialize (Hvalid Hv). rewrite E in Hvalid.
      apply Forall_app_l in Hvalid. exact Hvalid.
    + apply Hv. congruence.
Qed.

Lemma get_below_none (r : node) (loc : location) (c : str) (x : location) :
  ~ is_dir r loc -> get r (loc ++ c :: x) = None.
Proof.
  intros H. rewrite get_app.
  destruct (get r loc) as [[d|es]|] eqn:E; try reflexivity.
  exfalso. apply H. exists es. exact E.
Qed.

(** Writing a file where there is no directory. *)
Lemma put_file_grows (r : node) (loc : location) (data : str) (r' : node) :
  put r loc (File data) = Some r' ->
  ~ is_dir r loc ->
  (valid_names r -> Forall valid_name loc) ->
  grows (eq loc) r r' /\ is_file r' loc.
Proof.
  intros Hput Hnd Hvalid. split.
  - apply (grows_weaken (fun l => l = loc /\ is_file (File data) [])).
    { intros l [-> _]. reflexivity. }
    apply put_leaf_grows; auto.
    + intros c x. apply get_below_none. exact Hnd.
    + intros H. contradiction.
    + intros _. exists data. reflexivity.
  - exists data. rewrite <- (app_nil_r loc).
    rewrite (get_put_ext _ _ _ _ _ Hput). reflexivity.
Qed.

(** Making a directory where there is nothing. *)
Lemma put_dir_grows (r : node) (loc : location) (r' : node) :
  put r loc (Dir []) = Some r' ->
  get r loc = None ->
  (valid_names r -> Forall valid_name loc) ->
  grows (fun _ => False) r r'.
Proof.
  intros Hput Hnone Hvalid.
  apply (grows_weaken (fun l => l = loc /\ is_file (Dir []) [])).
  { intros l [_ [d H]]. discriminate. }
  apply put_leaf_grows; auto.
  - intros c x. rewrite get_app, Hnone. reflexivity.
  - intros [es H]. congruence.
  - intros [d H]. congruence.
Qed.

(** * Paths, read as lists of names *)

Lemma valid_name_eqb (c : str) :
  valid_name c ->
  str_eqb c [] = false /\ str_eqb c dot = false /\ str_eqb c dotdot = false.
Proof.
  intros (H1 & H2 & H3 & _). repeat split; apply str_eqb_neq; assumption.
Qed.

Lemma valid_name_relative (c : str) :
  valid_name c -> startswith [slash] c = false.
Proof.
  intros (H1 & _ & _ & H4). destruct c as [|a c]; [congruence|].
  change (startswith [slash] (a :: c)) with (Ascii.eqb slash a && true).
  destruct (Ascii.eqb slash a) eqn:E; [|reflexivity].
  apply Ascii.eqb_eq in E. subst a. exfalso. apply H4. left. reflexivity.
Qed.

Lemma rev_removelast {A : Type} (l : list A) :
  rev (removelast l) = tl (rev l).
Proof.
  destruct (rev l) as [|x r] eqn:E.
  - apply (f_equal (@rev A)) in E. rewrite rev_involutive in E.
    subst l. reflexivity.
  - apply (f_equal (@rev A)) in E. rewrite rev_involutive in E.
    subst l. simpl. rewrite removelast_last, rev_involutive. reflexivity.
Qed.

Lemma norm_components_cons (acc : list str) (c : str) (rest : list str) :
  norm_components acc (c :: rest) =
  if str_eqb c [] || str_eqb c dot then norm_components acc rest
  else if str_eqb c dotdot then norm_components (tl acc) rest
       else norm_components (c :: acc) rest.
Proof. reflexivity. Qed.

Lemma walk_components_cons (root : node) (loc : location) (c : str)
    (rest : list str) :
  walk_components root loc (c :: rest) =
  match get root loc with
  | None => Raise FileNotFoundError
  | Some (File _) => Raise NotADirectoryError
  | Some (Dir _) =>
      if str_eqb c [] || str_eqb c dot then walk_components root loc rest
      else if str_eqb c dotdot
           then walk_components root (removelast loc) rest
           else walk_components root (loc ++ [c]) rest
  end.
Proof. reflexivity. Qed.

(** A path that resolves, resolves to its normal form. *)
Lemma walk_components_norm (root : node) (comps : list str)
    (loc r : location) :
  walk_components root loc comps = Ok r ->
  r = norm_components (rev loc) comps.
Proof.
  revert loc. induction comps as [|c rest IH]; intros loc H.
  - simpl in H. injection H as <-. simpl. symmetry. apply rev_involutive.
  - rewrite walk_components_cons in H. rewrite norm_components_cons.
    destruct (get root loc) as [[d|es]|]; try discriminate.
    destruct (str_eqb c [] || str_eqb c dot); [apply IH; exact H|].
    destruct (str_eqb c dotdot).
    + rewrite <- rev_removelast. apply IH. exact H.
    + apply IH in H. rewrite rev_app_distr in H. exact H.
Qed.

Lemma walk_components_app (root : node) (c1 c2 : list str) (loc : location) :
  walk_components root loc (c1 ++ c2) =
  match walk_components root loc c1 with
  | Ok l => walk_components root l c2
  | Raise e => Raise e
  end.
Proof.
  revert loc. induction c1 as [|c c1 IH]; intros loc; [reflexivity|].
  simpl app. rewrite !walk_components_cons.
  destruct (get root loc) as [[d|es]|]; try reflexivity.
  destruct (str_eqb c [] || str_eqb c dot); [apply IH|].
  destruct (str_eqb c dotdot); apply IH.
Qed.

Lemma norm_components_valid (acc : list str) (ds : list str) :
  Forall valid_name ds -> norm_components acc ds = rev acc ++ ds.
Proof.
  intros H. revert acc. induction H as [|d ds Hd _ IH]; intros acc.
  - simpl. symmetry. apply app_nil_r.
  - rewrite norm_components_cons.
    destruct (valid_name_eqb d Hd) as (-> & -> & ->). simpl.
    rewrite IH. simpl. rewrite <- app_assoc. reflexivity.
Qed.

Lemma norm_components_app (acc : list str) (c1 c2 : list str) :
  norm_components acc (c1 ++ c2) =
  norm_components (rev (norm_components acc c1)) c2.
Proof.
  revert acc. induction c1 as [|c c1 IH]; intros acc.
  - simpl. rewrite rev_involutive. reflexivity.
  - simpl app. rewrite !norm_components_cons.
    destruct (str_eqb c [] || str_eqb c dot); [apply IH|].
    destruct (str_eqb c dotdot); apply IH.
Qed.

Lemma split_char_sep (c : ascii) (a b : str) :
  split_char c (a ++ c :: b) = split_char c a ++ split_char c b.
Proof.
  induction a as [|x a IH].
  - simpl. rewrite Ascii.eqb_refl. reflexivity.
  - simpl. destruct (Ascii.eqb x c); [rewrite IH; reflexivity|].
    rewrite IH. pose proof (split_char_nonempty c a) as Hne.
    destruct (split_char c a) as [|l ls]; [congruence | reflexivity].
Qed.

Lemma startswith_slash_join (a b : str) :
  a <> [] -> startswith [slash] (a ++ b) = startswith [slash] a.
Proof. destruct a; [congruence | reflexivity]. Qed.

Lemma abspath_components_empty (cwd : location) :
  abspath_components cwd [] = cwd.
Proof. unfold abspath_components. simpl. apply rev_involutive. Qed.

(** [abspath(join(a, b))] continues [abspath(a)] with the components of
    a relative [b]. *)
Lemma abspath_join (cwd : location) (a b : str) :
  startswith [slash] b = false ->
  abspath_components cwd (path_join a b) =
  norm_components (rev (abspath_components cwd a)) (split_char slash b).
Proof.
  intros Hb. unfold path_join. rewrite Hb.
  destruct a as [|x a].
  - rewrite abspath_components_empty. unfold abspath_components.
    rewrite Hb. reflexivity.
  - destruct (endswith [slash] (x :: a)) eqn:E.
    + apply endswith_iff in E. destruct E as [t Et]. rewrite Et.
      unfold abspath_components.
      rewrite <- app_assoc. simpl ([slash] ++ b).
      assert (Hs : startswith [slash] (t ++ slash :: b)
                   = startswith [slash] (t ++ [slash])).
      { destruct t; reflexivity. }
      rewrite Hs. rewrite !split_char_sep.
      change (split_char slash []) with [@nil ascii].
      destruct (startswith [slash] (t ++ [slash]));
        rewrite !norm_components_app; simpl;
        rewrite !rev_involutive; reflexivity.
    + unfold abspath_components.
      simpl ([slash] ++ b).
      assert (Hs : startswith [slash] ((x :: a) ++ slash :: b)
                   = startswith [slash] (x :: a)) by reflexivity.
      rewrite Hs, split_char_sep.
      destruct (startswith [slash] (x :: a));
        rewrite norm_components_app; reflexivity.
Qed.

Lemma split_valid_name (d : str) :
  valid_name d -> split_char slash d = [d].
Proof. intros (_ & _ & _ & H). apply split_char_no_sep. exact H. Qed.

Lemma abspath_join_name (cwd : location) (a d : str) :
  valid_name d ->
  abspath_components cwd (path_join a d) = abspath_components cwd a ++ [d].
Proof.
  intros Hd. rewrite abspath_join by (apply valid_name_relative; exact Hd).
  rewrite split_valid_name by exact Hd.
  rewrite norm_components_valid by (constructor; [exact Hd | constructor]).
  rewrite rev_involutive. reflexivity.
Qed.

Lemma abspath_walk_path (cwd : location) (top : str) (ds : list str) :
  Forall valid_name ds ->
  abspath_components cwd (walk_path top ds) =
  abspath_components cwd top ++ ds.
Proof.
  intros H. revert top. unfold walk_path.
  induction H as [|d ds Hd _ IH]; intros top.
  - simpl. symmetry. apply app_nil_r.
  - simpl. rewrite IH, abspath_join_name by exact Hd.
    rewrite <- app_assoc. reflexivity.
Qed.

Lemma walk_path_snoc (top : str) (ds : list str) (d : str) :
  walk_path top (ds ++ [d]) = path_join (walk_path top ds) d.
Proof. unfold walk_path. rewrite fold_left_app. reflexivity. Qed.

Lemma path_join_nonempty (a b : str) : a <> [] -> path_join a b <> [].
Proof.
  intros Ha. unfold path_join.
  destruct (startswith [slash] b) eqn:E.
  - destruct b; [discriminate E | discriminate].
  - destruct a as [|x a]; [congruence|].
    destruct (endswith [slash] (x :: a)); discriminate.
Qed.

Lemma walk_path_nonempty (top : str) (ds : list str) :
  top <> [] -> walk_path top ds <> [].
Proof.
  revert top. unfold walk_path. induction ds as [|d ds IH]; intros top H.
  - exact H.
  - simpl. apply IH. apply path_join_nonempty. exact H.
Qed.

Lemma common_prefix_length_app (c ds : list str) :
  common_prefix_length c (c ++ ds) = length c.
Proof.
  induction c as [|x c IH]; [destruct ds; reflexivity|].
  simpl. rewrite str_eqb_refl, IH. reflexivity.
Qed.

(** The relative directory that [generate_pages_recursive] computes for
    a directory of the walk. *)
Lemma relpath_walk_path (cwd : location) (top : str) (ds : list str) :
  top <> [] -> Forall valid_name ds ->
  relpath cwd (walk_path top ds) top = Ok (rel_dir_of ds).
Proof.
  intros Htop Hds. unfold relpath.
  pose proof (walk_path_nonempty top ds Htop) as Hne.
  destruct (walk_path top ds) as [|x p] eqn:Ep; [congruence|].
  rewrite <- Ep, abspath_walk_path by exact Hds.
  rewrite common_prefix_length_app, Nat.sub_diag, skipn_app, skipn_all,
    Nat.sub_diag.
  simpl. destruct ds; reflexivity.
Qed.

Lemma rel_dir_of_relative (ds : list str) :
  Forall valid_name ds -> startswith [slash] (rel_dir_of ds) = false.
Proof.
  intros H. destruct H as [|d ds Hd Hds]; [reflexivity|].
  unfold rel_dir_of. destruct ds as [|d' ds].
  - apply valid_name_relative. exact Hd.
  - rewrite join_cons by discriminate.
    rewrite startswith_slash_join by (destruct Hd; assumption).
    apply valid_name_relative. exact Hd.
Qed.

Lemma abspath_join_rel_dir (cwd : location) (a : str) (ds : list str) :
  Forall valid_name ds ->
  abspath_components cwd (path_join a (rel_dir_of ds)) =
  abspath_components cwd a ++ ds.
Proof.
  intros H. rewrite abspath_join by (apply rel_dir_of_relative; exact H).
  destruct ds as [|d ds].
  - simpl. rewrite rev_involutive. symmetry. apply app_nil_r.
  - unfold rel_dir_of. rewrite split_char_join.
    + rewrite norm_components_valid by exact H.
      rewrite rev_involutive. reflexivity.
    + discriminate.
    + eapply Forall_impl; [|exact H]. intros c (_ & _ & _ & Hc). exact Hc.
Qed.

(** Where the page of the entry [file] of the directory [ds] goes. *)
Lemma abspath_output_path (cwd : location) (output_dir : str)
    (ds : list str) (name : str) :
  Forall valid_name ds -> valid_name name ->
  abspath_components cwd
    (path_join (path_join output_dir (rel_dir_of ds)) name) =
  abspath_components cwd output_dir ++ ds ++ [name].
Proof.
  intros Hds Hn. rewrite abspath_join_name by exact Hn.
  rewrite abspath_join_rel_dir by exact Hds.
  rewrite <- app_assoc. reflexivity.
Qed.

Lemma resolve_abspath (st : fs) (path : str) (l : location) :
  resolve st path = Ok l -> l = abspath_components (fs_cwd st) path.
Proof.
  unfold resolve, abspath_components.
  destruct path as [|x p]; [discriminate|].
  intros H. apply walk_components_norm in H.
  destruct (startswith [slash] (x :: p)); exact H.
Qed.

Lemma Forall_removelast {A : Type} (P : A -> Prop) (l : list A) :
  Forall P l -> Forall P (removelast l).
Proof.
  induction 1 as [|x l Hx Hl IH]; [constructor|].
  simpl. destruct l; [constructor|]. constructor; assumption.
Qed.

Lemma walk_components_valid (root : node) (comps : list str)
    (loc r : location) :
  Forall (fun c => ~ In slash c) comps ->
  Forall valid_name loc ->
  walk_components root loc comps = Ok r ->
  Forall valid_name r.
Proof.
  intros Hc. revert loc. induction Hc as [|c rest Hc _ IH]; intros loc Hl H.
  - simpl in H. injection H as <-. exact Hl.
  - rewrite walk_components_cons in H.
    destruct (get root loc) as [[d|es]|]; try discriminate.
    destruct (str_eqb c []) eqn:E1; [apply (IH loc); assumption|].
    destruct (str_eqb c dot) eqn:E2; [apply (IH loc); assumption|].
    cbn [orb] in H. destruct (str_eqb c dotdot) eqn:E3.
    + apply (IH (removelast loc)); [apply Forall_removelast|]; assumption.
    + apply (IH (loc ++ [c])); [|assumption].
      apply Forall_app. split; [assumption|].
      constructor; [|constructor].
      apply str_eqb_neq in E1, E2, E3. repeat split; assumption.
Qed.

Lemma valid_names_at (root : node) (l : location) :
  valid_names root -> is_dir root l -> Forall valid_name l.
Proof. intros Hv [es H]. apply Hv. congruence. Qed.

Lemma resolve_valid (st : fs) (path : str) (l : location) :
  sound st -> resolve st path = Ok l -> Forall valid_name l.
Proof.
  intros [Hv Hcwd]. unfold resolve. destruct path as [|x p]; [discriminate|].
  apply walk_components_valid.
  - apply split_char_fields.
  - destruct (startswith [slash] (x :: p)); [constructor|].
    apply (valid_names_at _ _ Hv Hcwd).
Qed.

Lemma fs_grows_refl (P : location -> Prop) (st : fs) : fs_grows P st st.
Proof. split; [apply grows_refl | reflexivity]. Qed.

Lemma fs_grows_trans (P : location -> Prop) (st1 st2 st3 : fs) :
  fs_grows P st1 st2 -> fs_grows P st2 st3 -> fs_grows P st1 st3.
Proof.
  intros [G1 C1] [G2 C2]. split; [eapply grows_trans; eauto | congruence].
Qed.

Lemma fs_grows_weaken (P Q : location -> Prop) (st st' : fs) :
  (forall l, P l -> Q l) -> fs_grows P st st' -> fs_grows Q st st'.
Proof. intros H [G C]. split; [eapply grows_weaken; eauto | exact C]. Qed.

Lemma fs_grows_sound (P : location -> Prop) (st st' : fs) :
  fs_grows P st st' -> sound st -> sound st'.
Proof.
  intros [(D & _ & _ & V) C] [Hv Hc]. split; [auto|].
  rewrite C. auto.
Qed.

(** ** Writing a file *)

Lemma assoc_set_set (k : str) (v w : node) (es : list (str * node)) :
  assoc_set k w (assoc_set k v es) = assoc_set k w es.
Proof.
  induction es as [|[k' v'] es IH]; simpl.
  - rewrite str_eqb_refl. reflexivity.
  - destruct (str_eqb k k') eqn:E; simpl.
    + rewrite str_eqb_refl. reflexivity.
    + rewrite E, IH. reflexivity.
Qed.

(** Of two writes at a place, the second counts. *)
Lemma put_put (n : node) (loc : location) (v w n' : node) :
  put n loc v = Some n' -> put n' loc w = put n loc w.
Proof.
  revert n n'. induction loc as [|c loc IH]; intros n n' H.
  - reflexivity.
  - destruct n as [d|es]; [discriminate|].
    destruct loc as [|c' loc].
    + simpl in H. injection H as <-. simpl. rewrite assoc_set_set.
      reflexivity.
    + rewrite put_cons_cons in H.
      destruct (assoc c es) as [m|] eqn:Em; [|discriminate].
      destruct (put m (c' :: loc) v) as [m'|] eqn:Ep; [|discriminate].
      injection H as <-. rewrite !put_cons_cons, assoc_set_same, Em.
      rewrite (IH m m' Ep).
      destruct (put m (c' :: loc) w); [|reflexivity].
      rewrite assoc_set_set. reflexivity.
Qed.

(** A place that exists can be written. *)
Lemma put_succeeds (r : node) (l : location) (v : node) :
  get r l <> None -> exists r', put r l v = Some r'.
Proof.
  revert r. induction l as [|c l IH]; intros r H.
  - exists v. reflexivity.
  - simpl in H. destruct r as [d|es]; [congruence|].
    destruct l as [|c' l].
    + eexists. reflexivity.
    + rewrite put_cons_cons.
      destruct (assoc c es) as [m|]; [|congruence].
      destruct (IH m H) as [m' ->]. eexists. reflexivity.
Qed.

(** Where one value can be written, any can. *)
Lemma put_any (n : node) (loc : location) (v w n' : node) :
  put n loc v = Some n' -> exists n'', put n loc w = Some n''.
Proof.
  intros H. rewrite <- (put_put _ _ _ w _ H). apply put_succeeds.
  rewrite <- (app_nil_r loc), (get_put_ext _ _ _ _ _ H). discriminate.
Qed.

(** [open(path, 'w')] fails and changes nothing, or leaves an empty
    file at the place of the path, where there was no directory. *)
Lemma open_write_inv (st : fs) (path : str) (st1 : fs) (r : result location) :
  open_write st path = (st1, r) ->
  (st1 = st /\ exists e, r = Raise e)
  \/ (exists loc root1,
        r = Ok loc
        /\ resolve st path = Ok loc
        /\ ~ is_dir (fs_root st) loc
        /\ put (fs_root st) loc (File []) = Some root1
        /\ st1 = mkfs root1 (fs_cwd st) (fs_device st)).
Proof.
  unfold open_write. destruct (endswith [slash] path).
  - destruct (walk_components _ _ _) as [l|e];
      intros H; injection H as <- <-; left; eauto.
  - destruct (resolve st path) as [loc|e] eqn:Er.
    2:{ intros H. injection H as <- <-. left. eauto. }
    assert (Hput : ~ is_dir (fs_root st) loc ->
              match put (fs_root st) loc (File []) with
              | Some root' => (mkfs root' (fs_cwd st) (fs_device st), Ok loc)
              | None => (st, Raise FileNotFoundError)
              end = (st1, r) ->
              (st1 = st /\ exists e, r = Raise e)
              \/ (exists loc0 root1,
                    r = Ok loc0
                    /\ Ok loc = Ok loc0
                    /\ ~ is_dir (fs_root st) loc0
                    /\ put (fs_root st) loc0 (File []) = Some root1
                    /\ st1 = mkfs root1 (fs_cwd st) (fs_device st))).
    { intros Hnd. destruct (put (fs_root st) loc (File [])) as [root1|] eqn:Ep.
      - intros H. injection H as <- <-. right. exists loc, root1. auto.
      - intros H. injection H as <- <-. left. eauto. }
    destruct (get (fs_root st) loc) as [[d|es]|] eqn:Eg.
    + apply Hput. intros [es H]. congruence.
    + intros H. injection H as <- <-. left. eauto.
    + apply Hput. intros [es H]. congruence.
Qed.

(** Lines 38-39 fail at the [open] and change nothing, or leave a file
    at the place of the path: with the text, or, when [write()] raises,
    with what the device left of it. *)
Lemma write_file_inv (st : fs) (path data : str) (st' : fs)
    (r : result unit) :
  write_file st path data = (st', r) ->
  (st' = st /\ exists e, r = Raise e)
  \/ (exists loc root1 root' x,
        resolve st path = Ok loc
        /\ ~ is_dir (fs_root st) loc
        /\ put (fs_root st) loc (File []) = Some root1
        /\ put (fs_root st) loc (File x) = Some root'
        /\ st' = mkfs root' (fs_cwd st) (fs_device st)
        /\ ((fs_device st root1 loc data = Stored /\ r = Ok tt /\ x = data)
            \/ (exists e, fs_device st root1 loc data = Failed e x
                          /\ r = Raise e))).
Proof.
  unfold write_file.
  destruct (open_write st path) as [st1 [loc|e]] eqn:Eo.
  2:{ apply open_write_inv in Eo.
      destruct Eo as [[-> _] | (loc & root1 & H & _)]; [|discriminate].
      intros H. injection H as <- <-. left. eauto. }
  apply open_write_inv in Eo.
  destruct Eo as [[_ [e He]] | (loc0 & root1 & E & Hr & Hnd & Hp & ->)];
    [discriminate|].
  injection E as <-.
  unfold write_text, store. simpl fs_root. simpl fs_cwd. simpl fs_device.
  assert (Hany : forall x, exists root',
            put (fs_root st) loc (File x) = Some root'
            /\ put root1 loc (File x) = Some root').
  { intros x. destruct (put_any _ _ _ (File x) _ Hp) as [root' H'].
    exists root'. split; [exact H'|]. rewrite (put_put _ _ _ _ _ Hp).
    exact H'. }
  destruct (fs_device st root1 loc data) as [|e x] eqn:Ed.
  - destruct (Hany data) as (root' & H1 & H2). rewrite H2.
    intros H. injection H as <- <-. right.
    exists loc, root1, root', data. repeat (split; [assumption|]).
    split; [reflexivity|]. left. auto.
  - destruct (Hany x) as (root' & H1 & H2). rewrite H2.
    intros H. injection H as <- <-. right.
    exists loc, root1, root', x. repeat (split; [assumption|]).
    split; [reflexivity|]. right. eauto.
Qed.

(** Lines 38-39: a success puts a file at the normal form of the path;
    nothing else changes kind. *)
Lemma write_file_grows (st : fs) (path data : str) (st' : fs) (r : result unit) :
  sound st ->
  write_file st path data = (st', r) ->
  fs_grows (eq (abspath_components (fs_cwd st) path)) st st'
  /\ (r = Ok tt -> is_file (fs_root st') (abspath_components (fs_cwd st) path)).
Proof.
  intros Hs H. apply write_file_inv in H.
  destruct H as [[-> [e ->]] | (loc & root1 & root' & x & Hr & Hnd & _ & Hp
                                 & -> & _)].
  { split; [apply fs_grows_refl | discriminate]. }
  pose proof (resolve_valid _ _ _ Hs Hr) as Hval.
  apply resolve_abspath in Hr. subst loc.
  destruct (put_file_grows _ _ _ _ Hp Hnd (fun _ => Hval)) as [G F].
  split; [split; [exact G | reflexivity] | intros _; exact F].
Qed.

Lemma make_components_cons (root : node) (loc : location) (c : str)
    (rest : list str) :
  make_components root loc (c :: rest) =
  if str_eqb c [] || str_eqb c dot then make_components root loc rest
  else if str_eqb c dotdot
       then make_components root (removelast loc) rest
       else
         match get root (loc ++ [c]) with
         | Some (Dir _) => make_components root (loc ++ [c]) rest
         | Some (File _) =>
             (root, Raise (match rest with
                           | [] => FileExistsError
                           | _ :: _ => NotADirectoryError
                           end))
         | None =>
             match put root (loc ++ [c]) (Dir []) with
             | Some root' => make_components root' (loc ++ [c]) rest
             | None => (root, Raise FileNotFoundError)
             end
         end.
Proof. reflexivity. Qed.

(** [os.makedirs]: only directories appear. *)
Lemma make_components_grows (comps : list str) :
  Forall (fun c => ~ In slash c) comps ->
  forall (root : node) (loc : location) (root' : node) (r : result unit),
    (valid_names root -> Forall valid_name loc) ->
    make_components root loc comps = (root', r) ->
    grows (fun _ => False) root root'.
Proof.
  induction 1 as [|c rest Hc _ IH]; intros root loc root' r Hl H.
  - simpl in H. injection H as <- <-. apply grows_refl.
  - rewrite make_components_cons in H.
    destruct (str_eqb c []) eqn:E1; [apply (IH _ loc _ _ Hl H)|].
    destruct (str_eqb c dot) eqn:E2; [apply (IH _ loc _ _ Hl H)|].
    cbn [orb] in H. destruct (str_eqb c dotdot) eqn:E3.
    { apply (IH _ (removelast loc) _ r); [|exact H].
      intros Hv. apply Forall_removelast. auto. }
    cbv iota in H.
    assert (Hlc : valid_names root -> Forall valid_name (loc ++ [c])).
    { intros Hv. apply Forall_app. split; [auto|].
      constructor; [|constructor].
      apply str_eqb_neq in E1, E2, E3. repeat split; assumption. }
    match type of H with
    | context [get ?a ?b] => destruct (get a b) as [[d|es]|] eqn:Eg
    end.
    + injection H as <- <-. apply grows_refl.
    + apply (IH _ (loc ++ [c]) _ _ Hlc H).
    + match type of H with
      | context [put ?a ?b ?v] => destruct (put a b v) as [root1|] eqn:Ep
      end.
      * pose proof (put_dir_grows _ _ _ Ep Eg Hlc) as G1.
        eapply grows_trans; [exact G1|].
        apply (IH _ (loc ++ [c]) _ r); [|exact H].
        intros Hv. apply Hv.
        rewrite <- (app_nil_r (loc ++ [c])).
        rewrite (get_put_ext _ _ _ _ _ Ep). discriminate.
      * injection H as <- <-. apply grows_refl.
Qed.

Lemma makedirs_grows (st : fs) (path : str) (st' : fs) (r : result unit) :
  sound st ->
  makedirs st path = (st', r) ->
  fs_grows (fun _ => False) st st'.
Proof.
  intros [Hv Hcwd]. unfold makedirs. destruct path as [|x p].
  - intros H. injection H as <- <-. apply fs_grows_refl.
  - destruct (make_components _ _ _) as [root' r'] eqn:Em.
    intros H. injection H as <- <-. split; [|reflexivity].
    eapply make_components_grows; [apply split_char_fields| |exact Em].
    intros _. destruct (startswith [slash] (x :: p)); [constructor|].
    apply (valid_names_at _ _ Hv Hcwd).
Qed.

(** ** Output names are names *)

Lemma replace_scan_cons (old new : str) (c : ascii) (s : str) :
  replace_scan old new (c :: s) =
  if startswith old (c :: s)
  then new ++ replace_scan old new (skipn (length old - 1) s)
  else c :: replace_scan old new s.
Proof.
  rewrite replace_scan_equation_2.
  destruct (startswith old (c :: s)); reflexivity.
Qed.

Lemma In_skipn {A : Type} (x : A) (n : nat) (l : list A) :
  In x (skipn n l) -> In x l.
Proof.
  intros H. rewrite <- (firstn_skipn n l). apply in_or_app. right. exact H.
Qed.

(** The scan invents no character. *)
Lemma replace_scan_In (old new s : str) (c : ascii) :
  In c (replace_scan old new s) -> In c s \/ In c new.
Proof.
  remember (length s) as n eqn:Hn. revert s Hn.
  induction n as [n IH] using lt_wf_ind. intros s Hn H.
  destruct s as [|a s]; [simp replace_scan in H; contradiction|].
  rewrite replace_scan_cons in H.
  destruct (startswith old (a :: s)).
  - apply in_app_or in H. destruct H as [H | H]; [right; exact H|].
    apply (IH (length (skipn (length old - 1) s))) in H; [|subst n|reflexivity].
    + destruct H as [H | H]; [|right; exact H].
      left. right. apply In_skipn in H. exact H.
    + rewrite length_skipn. simpl. lia.
  - destruct H as [-> | H]; [left; left; reflexivity|].
    apply (IH (length s)) in H; [|subst n; simpl; lia|reflexivity].
    destruct H as [H | H]; [left; right; exact H | right; exact H].
Qed.

Lemma output_filename_md (t : str) :
  output_filename (t ++ md_suffix) = output_filename t ++ html_suffix.
Proof.
  rewrite <- (app_nil_r md_suffix) at 1.
  rewrite output_filename_inner. rewrite app_nil_r. reflexivity.
Qed.

(** The output name of a [.md] entry is a valid name that does not end
    in [.md]. *)
Lemma output_filename_valid (file : str) :
  valid_name file -> endswith md_suffix file = true ->
  valid_name (output_filename file)
  /\ endswith md_suffix (output_filename file) = false.
Proof.
  intros (_ & _ & _ & Hs) He.
  apply endswith_iff in He. destruct He as [t ->].
  rewrite output_filename_md.
  assert (Hlen : 5 <= length (output_filename t ++ html_suffix)).
  { rewrite length_app. simpl. lia. }
  split; [repeat split|].
  - intros E. rewrite E in Hlen. simpl in Hlen. lia.
  - intros E. rewrite E in Hlen. simpl in Hlen. lia.
  - intros E. rewrite E in Hlen. simpl in Hlen. lia.
  - intros Hin. apply in_app_or in Hin. destruct Hin as [Hin | Hin].
    + unfold output_filename in Hin.
      rewrite replace_nonempty in Hin by discriminate.
      apply replace_scan_In in Hin. destruct Hin as [Hin | Hin].
      * apply Hs. apply in_or_app. left. exact Hin.
      * vm_compute in Hin.
        repeat (destruct Hin as [Hin | Hin]; [discriminate Hin|]). exact Hin.
    + vm_compute in Hin.
      repeat (destruct Hin as [Hin | Hin]; [discriminate Hin|]). exact Hin.
  - unfold endswith. rewrite rev_app_distr. reflexivity.
Qed.

(** ** Listing a directory *)

Lemma assoc_In (c : str) (es : list (str * node)) (v : node) :
  assoc c es = Some v -> In (c, v) es.
Proof.
  induction es as [|[k w] es IH]; simpl; [discriminate|].
  destruct (str_eqb c k) eqn:E.
  - apply str_eqb_eq in E. subst k. intros H. injection H as ->. left.
    reflexivity.
  - intros H. right. auto.
Qed.

Lemma In_assoc (c : str) (es : list (str * node)) (v : node) :
  In (c, v) es -> assoc c es <> None.
Proof.
  induction es as [|[k w] es IH]; simpl; [contradiction|].
  intros [H | H].
  - injection H as -> ->. rewrite str_eqb_refl. discriminate.
  - destruct (str_eqb c k); [discriminate | auto].
Qed.

Lemma get_child (root : node) (loc : location) (es : list (str * node))
    (c : str) :
  get root loc = Some (Dir es) -> get root (loc ++ [c]) = assoc c es.
Proof.
  intros H. rewrite get_app, H. simpl. destruct (assoc c es); reflexivity.
Qed.

Lemma scandir_inv (st : fs) (path : str) (dirs files : list str) :
  scandir st path = Ok (dirs, files) ->
  exists es,
    get (fs_root st) (abspath_components (fs_cwd st) path) = Some (Dir es)
    /\ dirs = map fst (filter (fun e => is_dir_node (snd e)) es)
    /\ files = map fst (filter (fun e => negb (is_dir_node (snd e))) es).
Proof.
  unfold scandir. destruct (resolve st path) as [l|e] eqn:Er; [|discriminate].
  apply resolve_abspath in Er. subst l.
  destruct (get _ _) as [[d|es]|]; try discriminate.
  intros H. injection H as <- <-. exists es. auto.
Qed.

Lemma scandir_ok (st : fs) (path : str) (l : location) :
  resolve st path = Ok l -> is_dir (fs_root st) l ->
  exists dirs files, scandir st path = Ok (dirs, files).
Proof.
  intros Hr [es He]. unfold scandir. rewrite Hr, He. eauto.
Qed.

Lemma listed_file (root : node) (loc : location) (es : list (str * node))
    (f : str) :
  get root loc = Some (Dir es) -> is_file root (loc ++ [f]) ->
  In f (map fst (filter (fun e => negb (is_dir_node (snd e))) es)).
Proof.
  intros He [d Hd]. rewrite (get_child _ _ _ _ He) in Hd.
  apply assoc_In in Hd. apply in_map_iff. exists (f, File d).
  split; [reflexivity|]. apply filter_In. split; [exact Hd | reflexivity].
Qed.

Lemma listed_dir (root : node) (loc : location) (es : list (str * node))
    (d : str) :
  get root loc = Some (Dir es) -> is_dir root (loc ++ [d]) ->
  In d (map fst (filter (fun e => is_dir_node (snd e)) es)).
Proof.
  intros He [es' Hd]. rewrite (get_child _ _ _ _ He) in Hd.
  apply assoc_In in Hd. apply in_map_iff. exists (d, Dir es').
  split; [reflexivity|]. apply filter_In. split; [exact Hd | reflexivity].
Qed.

Lemma listed_valid (root : node) (loc : location) (es : list (str * node))
    (p : str * node -> bool) (c : str) :
  valid_names root ->
  get root loc = Some (Dir es) ->
  In c (map fst (filter p es)) ->
  valid_name c.
Proof.
  intros Hv He Hin. apply in_map_iff in Hin.
  destruct Hin as ([k v] & <- & Hin). apply filter_In in Hin.
  destruct Hin as [Hin _]. simpl.
  assert (H : Forall valid_name (loc ++ [k])).
  { apply Hv. rewrite (get_child _ _ _ _ He). eapply In_assoc. exact Hin. }
  apply Forall_app in H. destruct H as [_ H]. inversion H. assumption.
Qed.

(** ** Resolving the paths of the walk *)

Lemma walk_components_name (root : node) (l : location) (d : str) :
  is_dir root l -> valid_name d ->
  walk_components root l [d] = Ok (l ++ [d]).
Proof.
  intros [es He] Hd. rewrite walk_components_cons, He.
  destruct (valid_name_eqb d Hd) as (-> & -> & ->). reflexivity.
Qed.

Lemma walk_components_empty_name (root : node) (l r : location) :
  walk_components root l [[]] = Ok r -> r = l /\ is_dir root l.
Proof.
  rewrite walk_components_cons.
  destruct (get root l) as [[d|es]|] eqn:E; try discriminate.
  simpl. intros H. injection H as <-. split; [reflexivity|].
  exists es. exact E.
Qed.

(** A resolved directory, then one of its names. *)
Lemma resolve_join_name (st : fs) (s d : str) (l : location) :
  resolve st s = Ok l -> is_dir (fs_root st) l -> valid_name d ->
  resolve st (path_join s d) = Ok (l ++ [d]).
Proof.
  intros Hr Hl Hd. unfold path_join.
  rewrite (valid_name_relative d Hd).
  destruct s as [|x a]; [discriminate Hr|].
  unfold resolve in Hr.
  destruct (endswith [slash] (x :: a)) eqn:E.
  - apply endswith_iff in E. destruct E as [t Et]. rewrite Et in *.
    unfold resolve.
    destruct ((t ++ [slash]) ++ d) as [|y p] eqn:Ep.
    { destruct t; discriminate. }
    rewrite <- Ep. clear Ep.
    assert (Hs : startswith [slash] ((t ++ [slash]) ++ d)
                 = startswith [slash] (t ++ [slash])).
    { destruct t; reflexivity. }
    rewrite Hs. rewrite <- app_assoc. simpl ([slash] ++ d).
    rewrite split_char_sep in *. rewrite (split_valid_name d Hd).
    change (split_char slash []) with [@nil ascii] in Hr.
    rewrite walk_components_app in *.
    destruct (walk_components (fs_root st) _ (split_char slash t)) as [l'|e];
      [|discriminate].
    apply walk_components_empty_name in Hr. destruct Hr as [-> _].
    apply walk_components_name; assumption.
  - unfold resolve. simpl ([slash] ++ d).
    destruct ((x :: a) ++ slash :: d) as [|y p] eqn:Ep; [discriminate|].
    rewrite <- Ep. clear Ep.
    assert (Hs : startswith [slash] ((x :: a) ++ slash :: d)
                 = startswith [slash] (x :: a)) by reflexivity.
    rewrite Hs, split_char_sep, (split_valid_name d Hd).
    rewrite walk_components_app, Hr.
    apply walk_components_name; assumption.
Qed.

Lemma is_dir_above (root : node) (l : location) (c : str) (r : location) :
  get root (l ++ c :: r) <> None -> is_dir root l.
Proof.
  rewrite get_app. destruct (get root l) as [[d|es]|] eqn:E.
  - simpl. congruence.
  - intros _. exists es. exact E.
  - congruence.
Qed.

Lemma resolve_walk_path (st : fs) (top : str) (c : location) (ds : list str) :
  resolve st top = Ok c ->
  is_dir (fs_root st) (c ++ ds) ->
  Forall valid_name ds ->
  resolve st (walk_path top ds) = Ok (c ++ ds).
Proof.
  intros Hr. induction ds as [|d ds IH] using rev_ind; intros Hd Hv.
  - rewrite app_nil_r. exact Hr.
  - apply Forall_app in Hv. destruct Hv as [Hv Hd'].
    inversion Hd' as [|? ? Hdv _]. subst.
    rewrite walk_path_snoc, app_assoc.
    assert (Hup : is_dir (fs_root st) (c ++ ds)).
    { destruct Hd as [es He]. apply (is_dir_above _ _ d []).
      rewrite <- app_assoc. simpl. congruence. }
    apply resolve_join_name; auto.
Qed.

(** ** The fuel of the walk is a bound only *)

Lemma os_walk_more_fuel (fuel : nat) :
  forall (fuel' : nat) (stack : list str)
         (body : str -> list str -> list str -> io unit) (st : fs)
         (r : fs * result unit),
    fuel <= fuel' ->
    os_walk fuel stack body st = Some r ->
    os_walk fuel' stack body st = Some r.
Proof.
  induction fuel as [|fuel IH]; intros fuel' stack body st r Hle H.
  - destruct stack; [|discriminate]. destruct fuel'; exact H.
  - destruct stack as [|top rest]; [destruct fuel'; exact H|].
    destruct fuel' as [|fuel']; [lia|]. simpl in *.
    destruct (scandir st top) as [[dirs files]|e].
    + destruct (body top dirs files st) as [st' [u|e]]; [|exact H].
      apply IH; [lia | exact H].
    + apply IH; [lia | exact H].
Qed.

(** A walk that ends with some fuel ends the same way with more. *)
Lemma generate_pages_recursive_more_fuel
    (markdown_to_html : str -> result str) (fuel fuel' : nat)
    (content_dir template_path output_dir basepath : str) (st : fs)
    (r : fs * result unit) :
  fuel <= fuel' ->
  generate_pages_recursive markdown_to_html fuel content_dir template_path
    output_dir basepath st = Some r ->
  generate_pages_recursive markdown_to_html fuel' content_dir template_path
    output_dir basepath st = Some r.
Proof. unfold generate_pages_recursive. apply os_walk_more_fuel. Qed.

(** ** The walk mirrors the content tree *)

Lemma walk_components_grows (r r' : node) (comps : list str)
    (loc x : location) :
  (forall l, is_dir r l -> is_dir r' l) ->
  walk_components r loc comps = Ok x ->
  walk_components r' loc comps = Ok x.
Proof.
  intros Hd. revert loc. induction comps as [|c rest IH]; intros loc H.
  - exact H.
  - rewrite walk_components_cons in *.
    destruct (get r loc) as [[d|es]|] eqn:E; try discriminate.
    destruct (Hd loc (ex_intro _ es E)) as [es' ->].
    destruct (str_eqb c [] || str_eqb c dot); [apply IH; exact H|].
    destruct (str_eqb c dotdot); apply IH; exact H.
Qed.

Lemma resolve_grows (P : location -> Prop) (st st' : fs) (path : str)
    (l : location) :
  fs_grows P st st' -> resolve st path = Ok l -> resolve st' path = Ok l.
Proof.
  intros [(D & _) C]. unfold resolve. destruct path; [auto|].
  rewrite C. apply walk_components_grows. exact D.
Qed.

Lemma read_file_inv (st : fs) (path data : str) :
  read_file st path = Ok data ->
  is_file (fs_root st) (abspath_components (fs_cwd st) path).
Proof.
  unfold read_file. destruct (resolve st path) as [l|e] eqn:Er; [|discriminate].
  apply resolve_abspath in Er. subst l.
  destruct (get _ _) as [[d|es]|] eqn:E; try discriminate.
  intros _. exists d. exact E.
Qed.

Lemma is_dir_below (root : node) (l r : location) :
  r <> [] -> get root (l ++ r) <> None -> is_dir root l.
Proof.
  destruct r as [|x r]; [congruence|]. intros _. apply is_dir_above.
Qed.

(** [generate_page] either leaves the file system alone and raises, or
    has read its input and ends with the write. *)
Lemma generate_page_cases (markdown_to_html : str -> result str)
    (input_path template_path output_path basepath : str)
    (st st' : fs) (r : result unit) :
  generate_page markdown_to_html input_path template_path output_path
    basepath st = (st', r) ->
  (st' = st /\ r <> Ok tt)
  \/ (exists markdown html,
        read_file st input_path = Ok markdown
        /\ write_file st output_path html = (st', r)).
Proof.
  unfold generate_page, bind, observe, lift.
  destruct (read_file st input_path) as [markdown|e] eqn:E1.
  2:{ intros H. injection H as <- <-. left. split; [reflexivity|discriminate]. }
  destruct (extract_title markdown) as [title|e].
  2:{ intros H. injection H as <- <-. left. split; [reflexivity|discriminate]. }
  destruct (markdown_to_html markdown) as [html_content|e].
  2:{ intros H. injection H as <- <-. left. split; [reflexivity|discriminate]. }
  destruct (read_file st template_path) as [template|e].
  2:{ intros H. injection H as <- <-. left. split; [reflexivity|discriminate]. }
  intros H. right. eauto.
Qed.

Section Mirror.

Variable markdown_to_html : str -> result str.
Variables content_dir template_path output_dir basepath : str.
Variable st0 : fs.
Variables c o : location.

Hypothesis sound0 : sound st0.
Hypothesis content_resolves : resolve st0 content_dir = Ok c.
Hypothesis output_place : o = abspath_components (fs_cwd st0) output_dir.

Lemma content_abspath : abspath_components (fs_cwd st0) content_dir = c.
Proof. symmetry. apply resolve_abspath. exact content_resolves. Qed.

Lemma content_nonempty : content_dir <> [].
Proof. intros E. rewrite E in content_resolves. discriminate. Qed.

Lemma md_file_initial (st : fs) (ds : list str) (f : str) :
  fs_grows (mirrored st0 c o) st0 st ->
  is_file (fs_root st) (c ++ ds ++ [f]) ->
  endswith md_suffix f = true ->
  is_file (fs_root st0) (c ++ ds ++ [f]).
Proof.
  intros [(_ & _ & N & _) _] Hf He.
  destruct (N _ Hf) as [H | (ds' & f' & El & He' & Hf')]; [exact H|].
  exfalso. rewrite !app_assoc in El. apply app_inj_tail in El.
  destruct El as [_ ->].
  assert (Hv : valid_name f').
  { destruct sound0 as [Hv _]. destruct Hf' as [d Hd].
    assert (H : Forall valid_name (c ++ ds' ++ [f'])) by (apply Hv; congruence).
    rewrite app_assoc in H. apply Forall_app in H. destruct H as [_ H].
    inversion H. assumption. }
  destruct (output_filename_valid f' Hv He') as [_ Hno]. congruence.
Qed.

(** One entry of a directory of the walk. *)
Lemma visit_file_step (st st' : fs) (r : result unit) (ds : list str) (f : str) :
  fs_grows (mirrored st0 c o) st0 st ->
  Forall valid_name ds -> valid_name f ->
  visit_file markdown_to_html content_dir template_path output_dir basepath
    (walk_path content_dir ds) f st = (st', r) ->
  fs_grows (mirrored st0 c o) st st'
  /\ (r = Ok tt -> endswith md_suffix f = true ->
      is_file (fs_root st') (o ++ ds ++ [output_filename f])).
Proof.
  intros Hreach Hds Hf. unfold visit_file.
  destruct (endswith md_suffix f) eqn:Emd.
  2:{ intros H. injection H as <- <-.
      split; [apply fs_grows_refl | discriminate]. }
  pose proof (fs_grows_sound _ _ _ Hreach sound0) as Hsound.
  assert (Hcwd : fs_cwd st = fs_cwd st0) by (destruct Hreach; assumption).
  unfold bind at 1. unfold observe.
  rewrite Hcwd, (relpath_walk_path _ _ _ content_nonempty Hds).
  unfold bind at 1.
  destruct (makedirs st (path_join output_dir (rel_dir_of ds)))
    as [st1 r1] eqn:Emk.
  pose proof (makedirs_grows _ _ _ _ Hsound Emk) as G1.
  assert (G1' : fs_grows (mirrored st0 c o) st st1).
  { eapply fs_grows_weaken; [|exact G1]. contradiction. }
  destruct r1 as [[]|e].
  2:{ intros H. injection H as <- <-. split; [exact G1'|discriminate]. }
  intros H. apply generate_page_cases in H.
  destruct H as [[-> Hr] | (markdown & html & Hread & Hwrite)].
  { split; [exact G1'|]. intros ->. congruence. }
  assert (Hreach1 : fs_grows (mirrored st0 c o) st0 st1)
    by (eapply fs_grows_trans; eauto).
  pose proof (fs_grows_sound _ _ _ Hreach1 sound0) as Hsound1.
  assert (Hcwd1 : fs_cwd st1 = fs_cwd st0) by (destruct Hreach1; assumption).
  destruct (output_filename_valid f Hf Emd) as [Hout _].
  destruct (write_file_grows _ _ _ _ _ Hsound1 Hwrite) as [G2 F2].
  rewrite Hcwd1, (abspath_output_path _ _ _ _ Hds Hout), <- output_place in *.
  apply read_file_inv in Hread.
  rewrite Hcwd1, (abspath_join_name _ _ _ Hf),
    (abspath_walk_path _ _ _ Hds), content_abspath, <- app_assoc in Hread.
  apply (md_file_initial _ _ _ Hreach1) in Hread; [|exact Emd].
  split.
  - eapply fs_grows_trans; [exact G1'|].
    eapply fs_grows_weaken; [|exact G2].
    intros l <-. exists ds, f. auto.
  - intros Hr _. auto.
Qed.

(** All the entries of a directory of the walk. *)
Lemma for_each_step (files : list str) (ds : list str) :
  Forall valid_name ds -> Forall valid_name files ->
  forall (st st' : fs) (r : result unit),
    fs_grows (mirrored st0 c o) st0 st ->
    for_each files
      (visit_file markdown_to_html content_dir template_path output_dir
         basepath (walk_path content_dir ds)) st = (st', r) ->
    fs_grows (mirrored st0 c o) st st'
    /\ (r = Ok tt ->
        forall f, In f files -> endswith md_suffix f = true ->
                  is_file (fs_root st') (o ++ ds ++ [output_filename f])).
Proof.
  intros Hds Hfiles. induction Hfiles as [|f files Hf _ IH];
    intros st st' r Hreach H.
  - simpl in H. injection H as <- <-.
    split; [apply fs_grows_refl|]. intros _ f [].
  - simpl in H. unfold bind in H.
    destruct (visit_file _ _ _ _ _ _ f st) as [st1 r1] eqn:Ev.
    destruct (visit_file_step _ _ _ _ _ Hreach Hds Hf Ev) as [G1 F1].
    destruct r1 as [[]|e].
    2:{ injection H as <- <-. split; [exact G1|discriminate]. }
    assert (Hreach1 : fs_grows (mirrored st0 c o) st0 st1)
      by (eapply fs_grows_trans; eauto).
    destruct (IH _ _ _ Hreach1 H) as [G2 F2].
    split; [eapply fs_grows_trans; eauto|].
    intros Hr g [<- | Hin] Hmd; [|auto].
    destruct G2 as [(_ & Fp & _) _]. apply Fp. auto.
Qed.

Lemma walk_path_injective (ds1 ds2 : list str) :
  Forall valid_name ds1 -> Forall valid_name ds2 ->
  walk_path content_dir ds1 = walk_path content_dir ds2 -> ds1 = ds2.
Proof.
  intros H1 H2 E.
  apply (f_equal (abspath_components (fs_cwd st0))) in E.
  rewrite !abspath_walk_path in E by assumption.
  apply app_inv_head in E. exact E.
Qed.

(** The walk: when it ends without an exception, every directory that
    was on the stack is mirrored. *)
Lemma os_walk_mirror (fuel : nat) :
  forall (stack : list str) (st st1 : fs),
    fs_grows (mirrored st0 c o) st0 st ->
    (forall s, In s stack ->
       exists ds, s = walk_path content_dir ds /\ Forall valid_name ds) ->
    os_walk fuel stack
      (fun root _ files =>
         for_each files
           (visit_file markdown_to_html content_dir template_path output_dir
              basepath root)) st = Some (st1, Ok tt) ->
    fs_grows (mirrored st0 c o) st st1
    /\ (forall ds, In (walk_path content_dir ds) stack ->
                   Forall valid_name ds -> covered st0 c o st1 ds).
Proof.
  induction fuel as [|fuel IH]; intros stack st st1 Hreach Hstack H.
  - destruct stack as [|top rest]; [|discriminate].
    simpl in H. injection H as <-.
    split; [apply fs_grows_refl|]. intros ds [].
  - destruct stack as [|top rest].
    { simpl in H. injection H as <-.
      split; [apply fs_grows_refl|]. intros ds []. }
    destruct (Hstack top (or_introl eq_refl)) as (ds0 & -> & Hds0).
    assert (Hrest : forall s, In s rest ->
              exists ds, s = walk_path content_dir ds /\ Forall valid_name ds).
    { intros s Hs. apply Hstack. right. exact Hs. }
    pose proof (fs_grows_sound _ _ _ Hreach sound0) as Hsound.
    assert (Hcwd : fs_cwd st = fs_cwd st0) by (destruct Hreach; assumption).
    simpl in H.
    destruct (scandir st (walk_path content_dir ds0)) as [[dirs files]|e] eqn:Es.
    + (* the directory is listed *)
      destruct (scandir_inv _ _ _ _ Es) as (es & He & Hdirs & Hfiles).
      rewrite Hcwd, (abspath_walk_path _ _ _ Hds0), content_abspath in He.
      destruct Hsound as [Hv Hc].
      assert (Hvf : Forall valid_name files).
      { apply Forall_forall. intros f Hf. subst files.
        eapply listed_valid; eauto. }
      assert (Hvd : Forall valid_name dirs).
      { apply Forall_forall. intros d Hd. subst dirs.
        eapply listed_valid; eauto. }
      destruct (for_each files _ st) as [st' r'] eqn:Ef.
      destruct (for_each_step _ _ Hds0 Hvf _ _ _ Hreach Ef) as [G1 F1].
      destruct r' as [[]|e]; [|discriminate].
      assert (Hreach' : fs_grows (mirrored st0 c o) st0 st')
        by (eapply fs_grows_trans; eauto).
      assert (Hstack' : forall s,
                In s (map (path_join (walk_path content_dir ds0)) dirs ++ rest) ->
                exists ds, s = walk_path content_dir ds /\ Forall valid_name ds).
      { intros s Hs. apply in_app_or in Hs. destruct Hs as [Hs | Hs]; [|auto].
        apply in_map_iff in Hs. destruct Hs as (d & <- & Hd).
        exists (ds0 ++ [d]). split; [symmetry; apply walk_path_snoc|].
        apply Forall_app. split; [exact Hds0|].
        constructor; [|constructor].
        rewrite Forall_forall in Hvd. auto. }
      destruct (IH _ _ _ Hreach' Hstack' H) as [G2 Cov].
      split; [eapply fs_grows_trans; eauto|].
      intros ds [Etop | Hin] Hds.
      * apply walk_path_injective in Etop; [|assumption|assumption].
        subst ds0. intros ds' f Hf Hmd.
        destruct ds' as [|d ds'].
        -- simpl in *.
           assert (Hst : is_file (fs_root st) (c ++ ds ++ [f])).
           { destruct Hreach as [(_ & Fp & _) _]. auto. }
           rewrite app_assoc in Hst.
           pose proof (listed_file _ _ _ _ He Hst) as Hl.
           rewrite <- Hfiles in Hl.
           destruct G2 as [(_ & Fp & _) _]. apply Fp. auto.
        -- assert (Hd0 : is_dir (fs_root st0) ((c ++ ds) ++ [d])).
           { destruct Hf as [x Hx].
             apply (is_dir_below _ _ (ds' ++ [f])).
             - destruct ds'; discriminate.
             - rewrite <- !app_assoc. simpl. simpl in Hx. congruence. }
           assert (Hd : is_dir (fs_root st) ((c ++ ds) ++ [d])).
           { destruct Hreach as [(Dp & _) _]. auto. }
           pose proof (listed_dir _ _ _ _ He Hd) as Hl.
           rewrite <- Hdirs in Hl.
           assert (Hcov : covered st0 c o st1 (ds ++ [d])).
           { apply Cov.
             - apply in_or_app. left. rewrite walk_path_snoc.
               apply in_map. exact Hl.
             - apply Forall_app. split; [exact Hds|].
               constructor; [|constructor].
               rewrite Forall_forall in Hvd. auto. }
           specialize (Hcov ds' f). rewrite <- !app_assoc in Hcov.
           apply Hcov; assumption.
      * apply Cov; [|exact Hds]. apply in_or_app. right. exact Hin.
    + (* the directory cannot be listed: it has no file to mirror *)
      destruct (IH _ _ _ Hreach Hrest H) as [G Cov].
      split; [exact G|].
      intros ds [Etop | Hin] Hds; [|auto].
      apply walk_path_injective in Etop; [|assumption|assumption].
      subst ds0. intros ds' f Hf Hmd. exfalso.
      assert (Hd0 : is_dir (fs_root st0) (c ++ ds)).
      { destruct Hf as [x Hx].
        apply (is_dir_below _ _ (ds' ++ [f])).
        - destruct ds'; discriminate.
        - rewrite <- !app_assoc. congruence. }
      assert (Hd : is_dir (fs_root st) (c ++ ds)).
      { destruct Hreach as [(Dp & _) _]. auto. }
      pose proof (resolve_grows _ _ _ _ _ Hreach content_resolves) as Hr.
      pose proof (resolve_walk_path _ _ _ _ Hr Hd Hds) as Hr'.
      destruct (scandir_ok _ _ _ Hr' Hd) as (dirs & files & Hok).
      congruence.
Qed.

End Mirror.

Lemma valid_nameb_valid (c : str) : valid_nameb c = true -> valid_name c.
Proof.
  unfold valid_nameb. intros H.
  repeat (apply andb_true_iff in H; destruct H as [H ?]).
  repeat match goal with
         | H : negb _ = true |- _ => apply negb_true_iff in H
         end.
  repeat split; try (apply str_eqb_neq; assumption).
  intros Hin.
  assert (existsb (Ascii.eqb slash) c = true); [|congruence].
  apply existsb_exists. exists slash. split; [exact Hin|apply Ascii.eqb_refl].
Qed.

Lemma names_ok_entry (es : list (str * node)) (k : str) (v : node) :
  names_ok (Dir es) = true -> In (k, v) es ->
  valid_name k /\ names_ok v = true.
Proof.
  induction es as [|[k' v'] es IH]; [contradiction|].
  intros H Hin.
  change (valid_nameb k' && names_ok v' && names_ok (Dir es) = true) in H.
  apply andb_true_iff in H. destruct H as [H H3].
  apply andb_true_iff in H. destruct H as [H1 H2].
  destruct Hin as [E | Hin]; [|auto].
  injection E as -> ->. split; [apply valid_nameb_valid|]; assumption.
Qed.

Lemma names_ok_valid (root : node) :
  names_ok root = true -> valid_names root.
Proof.
  intros H l. revert root H. induction l as [|c l IH]; intros root H Hg.
  - constructor.
  - simpl in Hg. destruct root as [d|es]; [congruence|].
    destruct (assoc c es) as [m|] eqn:Em; [|congruence].
    apply assoc_In in Em.
    destruct (names_ok_entry _ _ _ H Em) as [Hc Hm].
    constructor; [exact Hc|]. apply (IH m Hm Hg).
Qed.

(** When the walk ends without an exception: every [.md] file of the
    content tree has its page in the output tree, in the mirrored
    directory and under its output name; every file there is afterwards
    was there before or is such a page; and nothing is lost. *)
Theorem generate_pages_recursive_mirror
    (markdown_to_html : str -> result str) (fuel : nat)
    (content_dir template_path output_dir basepath : str)
    (st0 st1 : fs) (c : location) :
  sound st0 ->
  resolve st0 content_dir = Ok c ->
  generate_pages_recursive markdown_to_html fuel content_dir template_path
    output_dir basepath st0 = Some (st1, Ok tt) ->
  (forall ds f,
     is_file (fs_root st0) (c ++ ds ++ [f]) ->
     endswith md_suffix f = true ->
     is_file (fs_root st1)
       (abspath_components (fs_cwd st0) output_dir
        ++ ds ++ [output_filename f]))
  /\ (forall l,
        is_file (fs_root st1) l ->
        is_file (fs_root st0) l
        \/ mirrored st0 c (abspath_components (fs_cwd st0) output_dir) l)
  /\ (forall l, is_dir (fs_root st0) l -> is_dir (fs_root st1) l)
  /\ (forall l, is_file (fs_root st0) l -> is_file (fs_root st1) l).
Proof.
  intros Hs Hc H. unfold generate_pages_recursive in H.
  destruct (os_walk_mirror markdown_to_html content_dir template_path
              output_dir basepath st0 c _ Hs Hc eq_refl
              fuel [content_dir] st0 st1) as [[(D & F & N & _) _] Cov].
  - apply fs_grows_refl.
  - intros s [<- | []]. exists []. split; [reflexivity | constructor].
  - exact H.
  - split; [|auto].
    intros ds f Hf Hmd.
    apply (Cov [] (or_introl eq_refl) (Forall_nil _) ds f); assumption.
Qed.

(** For a name whose only [.md] is its extension, the page is at the
    mirrored path with the extension [.html]. *)
Corollary generate_pages_recursive_mirror_extension
    (markdown_to_html : str -> result str) (fuel : nat)
    (content_dir template_path output_dir basepath : str)
    (st0 st1 : fs) (c : location) (ds : list str) (stem : str) :
  sound st0 ->
  resolve st0 content_dir = Ok c ->
  generate_pages_recursive markdown_to_html fuel content_dir template_path
    output_dir basepath st0 = Some (st1, Ok tt) ->
  contains md_suffix stem = false ->
  is_file (fs_root st0) (c ++ ds ++ [stem ++ md_suffix]) ->
  is_file (fs_root st1)
    (abspath_components (fs_cwd st0) output_dir
     ++ ds ++ [stem ++ html_suffix]).
Proof.
  intros Hs Hc H Hstem Hf.
  rewrite <- (output_filename_extension stem Hstem).
  apply (proj1 (generate_pages_recursive_mirror _ _ _ _ _ _ _ _ _ Hs Hc H)).
  - exact Hf.
  - apply endswith_app.
Qed.

Lemma sample_fs_sound : sound sample_fs.
Proof.
  split.
  - apply names_ok_valid. reflexivity.
  - eexists. reflexivity.
Qed.

(** The sample site, walked: [blog/post1.md] has its page at
    [/work/public/blog/post1.html]. *)
Example sample_post_mirrored :
  forall st1,
    generate_pages_recursive sample_renderer 2 (lit "content")
      (lit "template.html") (lit "public") default_basepath sample_fs
    = Some (st1, Ok tt) ->
    is_file (fs_root st1)
      [lit "work"; lit "public"; lit "blog"; lit "post1.html"].
Proof.
  intros st1 H.
  apply (generate_pages_recursive_mirror_extension sample_renderer 2
           (lit "content") (lit "template.html") (lit "public")
           default_basepath sample_fs st1 [lit "work"; lit "content"]
           [lit "blog"] (lit "post1") sample_fs_sound eq_refl H eq_refl).
  eexists. reflexivity.
Qed.

(* ===================================================================== *)
(** * More facts about the generator *)
(* ===================================================================== *)

(** ** Files keep their data *)

Lemma keeps_refl (P : location -> Prop) (r : node) : keeps P r r.
Proof. intros l d H. right. exact H. Qed.

Lemma keeps_trans (P : location -> Prop) (r1 r2 r3 : node) :
  keeps P r1 r2 -> keeps P r2 r3 -> keeps P r1 r3.
Proof.
  intros H1 H2 l d H. destruct (H1 l d H) as [HP | H']; [left; exact HP|].
  apply (H2 l d H').
Qed.

Lemma keeps_weaken (P Q : location -> Prop) (r r' : node) :
  (forall l, P l -> Q l) -> keeps P r r' -> keeps Q r r'.
Proof. intros HPQ H l d Hl. destruct (H l d Hl); auto. Qed.

(** Writing at a place that is no directory changes no other file. *)
Lemma put_keeps (r : node) (loc : location) (v r' : node) :
  put r loc v = Some r' -> ~ is_dir r loc -> keeps (eq loc) r r'.
Proof.
  intros Hput Hnd l d Hl.
  destruct (location_cases l loc)
    as [[x ->] | [(c & x & ->) | (p & a & b & l1 & l2 & -> & -> & Hne)]].
  - destruct x as [|c x]; [left; symmetry; apply app_nil_r|].
    rewrite (get_below_none _ _ _ _ Hnd) in Hl. discriminate.
  - exfalso. apply (is_dir_not_file r l).
    + apply (get_put_above _ _ _ _ _ _ _ Hput eq_refl).
    + exists d. exact Hl.
  - right. rewrite (get_put_off _ _ _ _ _ _ _ _ Hput Hne). exact Hl.
Qed.

Lemma make_components_keeps (comps : list str) :
  forall (root : node) (loc : location) (root' : node) (r : result unit),
    make_components root loc comps = (root', r) ->
    keeps (fun _ => False) root root'.
Proof.
  induction comps as [|c rest IH]; intros root loc root' r H.
  - simpl in H. injection H as <- <-. apply keeps_refl.
  - rewrite make_components_cons in H.
    destruct (str_eqb c [] || str_eqb c dot); [apply (IH _ _ _ _ H)|].
    destruct (str_eqb c dotdot); [apply (IH _ _ _ _ H)|].
    match type of H with
    | context [get ?a ?b] => destruct (get a b) as [[d|es]|] eqn:Eg
    end.
    + injection H as <- <-. apply keeps_refl.
    + apply (IH _ _ _ _ H).
    + match type of H with
      | context [put ?a ?b ?v] => destruct (put a b v) as [root1|] eqn:Ep
      end.
      * eapply keeps_trans; [|apply (IH _ _ _ _ H)].
        intros l d Hl.
        assert (Hnd : ~ is_dir root (loc ++ [c])).
        { intros [es He]. congruence. }
        destruct (put_keeps _ _ _ _ Ep Hnd l d Hl) as [E | H']; [|right; exact H'].
        subst l. congruence.
      * injection H as <- <-. apply keeps_refl.
Qed.

Lemma makedirs_keeps (st : fs) (path : str) (st' : fs) (r : result unit) :
  makedirs st path = (st', r) ->
  keeps (fun _ => False) (fs_root st) (fs_root st').
Proof.
  unfold makedirs. destruct path as [|x p].
  - intros H. injection H as <- <-. apply keeps_refl.
  - destruct (make_components _ _ _) as [root' r'] eqn:Em.
    intros H. injection H as <- <-. simpl.
    eapply make_components_keeps. exact Em.
Qed.

Lemma write_file_keeps (st : fs) (path data : str) (st' : fs)
    (r : result unit) :
  write_file st path data = (st', r) ->
  keeps (eq (abspath_components (fs_cwd st) path)) (fs_root st) (fs_root st').
Proof.
  intros H. apply write_file_inv in H.
  destruct H as [[-> _] | (loc & root1 & root' & x & Hr & Hnd & _ & Hp
                            & -> & _)].
  { apply keeps_refl. }
  apply resolve_abspath in Hr. subst loc. simpl.
  apply (put_keeps _ _ _ _ Hp Hnd).
Qed.

(** ** Reading what was written *)

Lemma write_file_ok_inv (st : fs) (path data : str) (st' : fs) :
  write_file st path data = (st', Ok tt) ->
  exists l root1 root',
    resolve st path = Ok l
    /\ ~ is_dir (fs_root st) l
    /\ put (fs_root st) l (File []) = Some root1
    /\ fs_device st root1 l data = Stored
    /\ put (fs_root st) l (File data) = Some root'
    /\ st' = mkfs root' (fs_cwd st) (fs_device st).
Proof.
  intros H. apply write_file_inv in H.
  destruct H as [[_ [e He]] | (loc & root1 & root' & x & Hr & Hnd & Hp1 & Hp
                               & -> & [(Hd & _ & ->) | (e & _ & He)])];
    try discriminate.
  exists loc, root1, root'. auto 10.
Qed.

(** A file that was written reads back as it was written, up to the
    line ends. *)
Lemma read_after_write (st : fs) (path data : str) (st' : fs) :
  sound st ->
  write_file st path data = (st', Ok tt) ->
  read_file st' path = Ok (universal_newlines data).
Proof.
  intros Hs Hw.
  destruct (write_file_grows _ _ _ _ _ Hs Hw) as [G _].
  destruct (write_file_ok_inv _ _ _ _ Hw)
    as (l & root1 & root' & Hr & _ & _ & _ & Hp & ->).
  unfold read_file. rewrite (resolve_grows _ _ _ _ _ G Hr). simpl.
  rewrite <- (app_nil_r l), (get_put_ext _ _ _ _ _ Hp). reflexivity.
Qed.

Lemma read_file_ok_inv (st : fs) (path data : str) :
  read_file st path = Ok data ->
  exists l raw,
    resolve st path = Ok l
    /\ get (fs_root st) l = Some (File raw)
    /\ data = universal_newlines raw.
Proof.
  unfold read_file. destruct (resolve st path) as [l|e]; [|discriminate].
  destruct (get (fs_root st) l) as [[d|es]|] eqn:E; try discriminate.
  intros H. injection H as <-. eauto.
Qed.

(** A file at another place reads as before. *)
Lemma read_other_after_write (st : fs) (path data : str) (st' : fs)
    (r : result unit) (other x : str) :
  sound st ->
  write_file st path data = (st', r) ->
  read_file st other = Ok x ->
  abspath_components (fs_cwd st) other <> abspath_components (fs_cwd st) path ->
  read_file st' other = Ok x.
Proof.
  intros Hs Hw Hrd Hne.
  destruct (write_file_grows _ _ _ _ _ Hs Hw) as [G _].
  pose proof (write_file_keeps _ _ _ _ _ Hw) as K.
  destruct (read_file_ok_inv _ _ _ Hrd) as (l & raw & Hr & Hg & ->).
  pose proof (resolve_abspath _ _ _ Hr) as El.
  unfold read_file. rewrite (resolve_grows _ _ _ _ _ G Hr).
  destruct (K l raw Hg) as [E | Hg']; [congruence|].
  rewrite Hg'. reflexivity.
Qed.

(** Lines 38-39 run again on the state they left do the same and leave
    that state. *)
Lemma write_file_again (st : fs) (path data : str) (st' : fs) :
  sound st ->
  write_file st path data = (st', Ok tt) ->
  write_file st' path data = (st', Ok tt).
Proof.
  intros Hs Hw.
  destruct (write_file_grows _ _ _ _ _ Hs Hw) as [G _].
  destruct (write_file_ok_inv _ _ _ _ Hw)
    as (l & root1 & root' & Hr & Hnd & Hp1 & Hd & Hp & ->).
  assert (Hslash : endswith [slash] path = false).
  { unfold write_file, open_write in Hw.
    destruct (endswith [slash] path); [|reflexivity].
    destruct (walk_components _ _ _); discriminate. }
  assert (Hg : get root' l = Some (File data)).
  { rewrite <- (app_nil_r l), (get_put_ext _ _ _ _ _ Hp). reflexivity. }
  unfold write_file, open_write. rewrite Hslash.
  rewrite (resolve_grows _ _ _ _ _ G Hr). simpl fs_root. rewrite Hg.
  rewrite (put_put _ _ _ (File []) _ Hp), Hp1.
  unfold write_text, store. simpl.
  rewrite Hd, (put_put _ _ _ (File data) _ Hp1), Hp. reflexivity.
Qed.

Section GeneratePageRuns.

Variable markdown_to_html : str -> result str.
Variables input_path template_path output_path basepath : str.

(** What a run of [generate_page] that returns has gone through. *)
Lemma generate_page_ok_inv (st st' : fs) :
  generate_page markdown_to_html input_path template_path output_path
    basepath st = (st', Ok tt) ->
  exists markdown title html_content template,
    read_file st input_path = Ok markdown
    /\ extract_title markdown = Ok title
    /\ markdown_to_html markdown = Ok html_content
    /\ read_file st template_path = Ok template
    /\ write_file st output_path
         (render_page title html_content template basepath) = (st', Ok tt).
Proof.
  unfold generate_page, bind, observe, lift.
  destruct (read_file st input_path) as [markdown|e] eqn:E1; [|discriminate].
  destruct (extract_title markdown) as [title|e] eqn:E2; [|discriminate].
  destruct (markdown_to_html markdown) as [html_content|e] eqn:E3;
    [|discriminate].
  destruct (read_file st template_path) as [template|e] eqn:E4;
    [|discriminate].
  intros H. exists markdown, title, html_content, template.
  do 4 (split; [first [assumption | reflexivity]|]). exact H.
Qed.

(** A run of [generate_page] that raises has changed nothing, or has
    got as far as lines 38-39. *)
Lemma generate_page_raise_cases (st st' : fs) (e : exn) :
  generate_page markdown_to_html input_path template_path output_path
    basepath st = (st', Raise e) ->
  st' = st
  \/ exists markdown title html_content template,
       read_file st input_path = Ok markdown
       /\ extract_title markdown = Ok title
       /\ markdown_to_html markdown = Ok html_content
       /\ read_file st template_path = Ok template
       /\ write_file st output_path
            (render_page title html_content template basepath)
          = (st', Raise e).
Proof.
  unfold generate_page, bind, observe, lift.
  destruct (read_file st input_path) as [markdown|e1] eqn:E1.
  2:{ intros H. injection H as <- _. left. reflexivity. }
  destruct (extract_title markdown) as [title|e2] eqn:E2.
  2:{ intros H. injection H as <- _. left. reflexivity. }
  destruct (markdown_to_html markdown) as [html_content|e3] eqn:E3.
  2:{ intros H. injection H as <- _. left. reflexivity. }
  destruct (read_file st template_path) as [template|e4] eqn:E4.
  2:{ intros H. injection H as <- _. left. reflexivity. }
  intros H. right. exists markdown, title, html_content, template.
  do 4 (split; [first [assumption | reflexivity]|]). exact H.
Qed.

End GeneratePageRuns.

(** ** The walk changes pages only *)

Lemma output_filename_not_md (f : str) :
  endswith md_suffix f = true ->
  endswith md_suffix (output_filename f) = false
  /\ endswith html_suffix (output_filename f) = true.
Proof.
  intros He. apply endswith_iff in He. destruct He as [t ->].
  rewrite output_filename_md. split.
  - unfold endswith. rewrite rev_app_distr. reflexivity.
  - apply endswith_app.
Qed.

Lemma page_place_not_md (o p : location) (f : str) :
  endswith md_suffix f = true -> ~ page_place o (p ++ [f]).
Proof.
  intros He (ds & g & El & Hg). rewrite app_assoc in El.
  apply app_inj_tail in El. destruct El as [_ ->].
  destruct (output_filename_not_md g Hg) as [Hno _]. congruence.
Qed.

Lemma scandir_raise_resolve (st : fs) (path : str) (e : exn) :
  resolve st path = Raise e -> scandir st path = Raise e.
Proof. intros H. unfold scandir. rewrite H. reflexivity. Qed.

Section Keeps.

Variable markdown_to_html : str -> result str.
Variables content_dir template_path output_dir basepath : str.
Variable st0 : fs.
Variables c o : location.

Hypothesis sound0 : sound st0.
Hypothesis content_resolves : resolve st0 content_dir = Ok c.
Hypothesis output_place : o = abspath_components (fs_cwd st0) output_dir.

(** The two steps of [visit_file] on an entry that ends in [.md]. *)
Lemma visit_file_md_inv (st st' : fs) (r : result unit) (ds : list str)
    (f : str) :
  fs_cwd st = fs_cwd st0 ->
  Forall valid_name ds ->
  endswith md_suffix f = true ->
  visit_file markdown_to_html content_dir template_path output_dir basepath
    (walk_path content_dir ds) f st = (st', r) ->
  exists st1 r1,
    makedirs st (path_join output_dir (rel_dir_of ds)) = (st1, r1)
    /\ ((exists e, r1 = Raise e /\ st' = st1 /\ r = Raise e)
        \/ (r1 = Ok tt
            /\ generate_page markdown_to_html
                 (path_join (walk_path content_dir ds) f) template_path
                 (path_join (path_join output_dir (rel_dir_of ds))
                    (output_filename f))
                 basepath st1 = (st', r))).
Proof.
  intros Hcwd Hds Emd. unfold visit_file. rewrite Emd.
  unfold bind at 1. unfold observe.
  rewrite Hcwd,
    (relpath_walk_path _ _ _
       (content_nonempty content_dir st0 c content_resolves) Hds).
  unfold bind at 1.
  destruct (makedirs st (path_join output_dir (rel_dir_of ds)))
    as [st1 r1] eqn:Emk.
  intros H. exists st1, r1. split; [reflexivity|].
  destruct r1 as [[]|e].
  - right. split; [reflexivity | exact H].
  - left. injection H as <- <-. eauto.
Qed.

Lemma visit_file_keeps (st st' : fs) (r : result unit) (ds : list str)
    (f : str) :
  fs_grows (mirrored st0 c o) st0 st ->
  Forall valid_name ds -> valid_name f ->
  visit_file markdown_to_html content_dir template_path output_dir basepath
    (walk_path content_dir ds) f st = (st', r) ->
  keeps (page_place o) (fs_root st) (fs_root st').
Proof.
  intros Hreach Hds Hf H.
  destruct (endswith md_suffix f) eqn:Emd.
  2:{ unfold visit_file in H. rewrite Emd in H. injection H as <- <-.
      apply keeps_refl. }
  assert (Hcwd : fs_cwd st = fs_cwd st0) by (destruct Hreach; assumption).
  pose proof (fs_grows_sound _ _ _ Hreach sound0) as Hsound.
  destruct (visit_file_md_inv _ _ _ _ _ Hcwd Hds Emd H)
    as (st1 & r1 & Hmk & Hrest).
  pose proof (makedirs_keeps _ _ _ _ Hmk) as K1.
  assert (K1' : keeps (page_place o) (fs_root st) (fs_root st1)).
  { eapply keeps_weaken; [|exact K1]. contradiction. }
  destruct Hrest as [(e & _ & -> & _) | [_ Hgen]]; [exact K1'|].
  apply generate_page_cases in Hgen.
  destruct Hgen as [[-> _] | (markdown & html & _ & Hw)]; [exact K1'|].
  eapply keeps_trans; [exact K1'|].
  eapply keeps_weaken; [|apply (write_file_keeps _ _ _ _ _ Hw)].
  intros l <-.
  assert (Hcwd1 : fs_cwd st1 = fs_cwd st0).
  { destruct (makedirs_grows _ _ _ _ Hsound Hmk) as [_ C]. congruence. }
  destruct (output_filename_valid f Hf Emd) as [Hout _].
  rewrite Hcwd1, (abspath_output_path _ _ _ _ Hds Hout), <- output_place.
  exists ds, f. auto.
Qed.

Lemma for_each_keeps (files : list str) (ds : list str) :
  Forall valid_name ds -> Forall valid_name files ->
  forall (st st' : fs) (r : result unit),
    fs_grows (mirrored st0 c o) st0 st ->
    for_each files
      (visit_file markdown_to_html content_dir template_path output_dir
         basepath (walk_path content_dir ds)) st = (st', r) ->
    keeps (page_place o) (fs_root st) (fs_root st').
Proof.
  intros Hds Hfiles. induction Hfiles as [|f files Hf _ IH];
    intros st st' r Hreach H.
  - simpl in H. injection H as <- <-. apply keeps_refl.
  - simpl in H. unfold bind in H.
    destruct (visit_file _ _ _ _ _ _ f st) as [st1 r1] eqn:Ev.
    pose proof (visit_file_keeps _ _ _ _ _ Hreach Hds Hf Ev) as K1.
    destruct (visit_file_step markdown_to_html content_dir template_path
                output_dir basepath st0 c o sound0 content_resolves
                output_place _ _ _ _ _ Hreach Hds Hf Ev) as [G1 _].
    destruct r1 as [[]|e].
    2:{ injection H as <- <-. exact K1. }
    eapply keeps_trans; [exact K1|].
    apply (IH st1 st' r); [|exact H].
    eapply fs_grows_trans; eauto.
Qed.

(** The walk, however it ends. *)
Lemma os_walk_keeps (fuel : nat) :
  forall (stack : list str) (st st1 : fs) (r : result unit),
    fs_grows (mirrored st0 c o) st0 st ->
    (forall s, In s stack ->
       exists ds, s = walk_path content_dir ds /\ Forall valid_name ds) ->
    os_walk fuel stack
      (fun root _ files =>
         for_each files
           (visit_file markdown_to_html content_dir template_path output_dir
              basepath root)) st = Some (st1, r) ->
    keeps (page_place o) (fs_root st) (fs_root st1).
Proof.
  induction fuel as [|fuel IH]; intros stack st st1 r Hreach Hstack H.
  - destruct stack as [|top rest]; [|discriminate].
    simpl in H. injection H as <- <-. apply keeps_refl.
  - destruct stack as [|top rest].
    { simpl in H. injection H as <- <-. apply keeps_refl. }
    destruct (Hstack top (or_introl eq_refl)) as (ds0 & -> & Hds0).
    assert (Hrest : forall s, In s rest ->
              exists ds, s = walk_path content_dir ds /\ Forall valid_name ds).
    { intros s Hs. apply Hstack. right. exact Hs. }
    pose proof (fs_grows_sound _ _ _ Hreach sound0) as Hsound.
    assert (Hcwd : fs_cwd st = fs_cwd st0) by (destruct Hreach; assumption).
    simpl in H.
    destruct (scandir st (walk_path content_dir ds0)) as [[dirs files]|e] eqn:Es.
    + destruct (scandir_inv _ _ _ _ Es) as (es & He & Hdirs & Hfiles).
      destruct Hsound as [Hv Hc].
      assert (Hvf : Forall valid_name files).
      { apply Forall_forall. intros f Hf. subst files.
        eapply listed_valid; eauto. }
      assert (Hvd : Forall valid_name dirs).
      { apply Forall_forall. intros d Hd. subst dirs.
        eapply listed_valid; eauto. }
      destruct (for_each files _ st) as [st' r'] eqn:Ef.
      pose proof (for_each_keeps _ _ Hds0 Hvf _ _ _ Hreach Ef) as K1.
      destruct (for_each_step markdown_to_html content_dir template_path
                  output_dir basepath st0 c o sound0 content_resolves
                  output_place _ _ Hds0 Hvf _ _ _ Hreach Ef) as [G1 _].
      destruct r' as [[]|e].
      2:{ injection H as <- <-. exact K1. }
      eapply keeps_trans; [exact K1|].
      apply (IH (map (path_join (walk_path content_dir ds0)) dirs ++ rest)
               st' st1 r); [eapply fs_grows_trans; eauto| |exact H].
      intros s Hs. apply in_app_or in Hs. destruct Hs as [Hs | Hs]; [|auto].
      apply in_map_iff in Hs. destruct Hs as (d & <- & Hd).
      exists (ds0 ++ [d]). split; [symmetry; apply walk_path_snoc|].
      apply Forall_app. split; [exact Hds0|].
      constructor; [|constructor].
      rewrite Forall_forall in Hvd. auto.
    + apply (IH rest st st1 r Hreach Hrest H).
Qed.

End Keeps.

(** ** More on [extract_title] *)

Lemma first_heading_ok_inv (lines : list str) (t : str) :
  first_heading lines = Ok t ->
  exists pre post,
    lines = pre ++ (heading_marker ++ t) :: post /\ Forall not_heading pre.
Proof.
  induction lines as [|line lines IH]; [discriminate|].
  rewrite first_heading_cons.
  destruct (startswith heading_marker line) eqn:E.
  - intros H. injection H as <-.
    apply startswith_iff in E. destruct E as [t' ->].
    exists [], lines. split; [reflexivity | constructor].
  - intros H. destruct (IH H) as (pre & post & -> & Hpre).
    exists (line :: pre), post. split; [reflexivity|].
    constructor; assumption.
Qed.

(** ** More on the base path *)

Lemma normalize_basepath_ends (basepath : str) :
  endswith [slash] (normalize_basepath basepath) = true.
Proof.
  unfold normalize_basepath.
  destruct (endswith [slash] basepath) eqn:E; [exact E|].
  apply endswith_app.
Qed.

Lemma normalize_basepath_idem (basepath : str) :
  normalize_basepath (normalize_basepath basepath)
  = normalize_basepath basepath.
Proof.
  unfold normalize_basepath at 1.
  rewrite normalize_basepath_ends. reflexivity.
Qed.

Lemma contains_longer (p q s : str) :
  contains p s = false -> contains (p ++ q) s = false.
Proof.
  intros H. destruct (contains (p ++ q) s) eqn:E; [|reflexivity].
  apply contains_iff in E. destruct E as (a & b & ->).
  assert (contains p (a ++ (p ++ q) ++ b) = true); [|congruence].
  apply contains_iff. exists a, (q ++ b).
  rewrite <- app_assoc. reflexivity.
Qed.

Lemma fix_urls_no_attribute (nb html : str) :
  contains href_open html = false ->
  contains src_open html = false ->
  fix_urls nb html = html.
Proof.
  intros H1 H2. unfold fix_urls. cbv zeta.
  rewrite !replace_nonempty by discriminate.
  rewrite (replace_scan_absent href_marker)
    by (apply contains_longer; exact H1).
  rewrite (replace_scan_absent src_marker)
    by (apply contains_longer; exact H2).
  rewrite (replace_scan_absent href_root)
    by (apply contains_longer; exact H1).
  apply replace_scan_absent. apply contains_longer. exact H2.
Qed.

(** ** More on the loop over the entries *)

Lemma for_each_raise {A : Type} (body : A -> io unit)
    (pre : list A) (x : A) (post : list A) (st st1 st2 : fs) (e : exn) :
  for_each pre body st = (st1, Ok tt) ->
  body x st1 = (st2, Raise e) ->
  for_each (pre ++ x :: post) body st = (st2, Raise e).
Proof.
  revert st. induction pre as [|y pre IH]; intros st Hpre Hx.
  - simpl in Hpre. injection Hpre as <-. simpl. unfold bind.
    rewrite Hx. reflexivity.
  - simpl in *. unfold bind in *.
    destruct (body y st) as [st' [[]|e']]; [|discriminate].
    apply IH; assumption.
Qed.

Lemma scandir_not_dir (st : fs) (path : str) :
  (forall l, resolve st path = Ok l -> ~ is_dir (fs_root st) l) ->
  exists e, scandir st path = Raise e.
Proof.
  intros H. unfold scandir.
  destruct (resolve st path) as [l|e] eqn:Er; [|eauto].
  specialize (H l eq_refl).
  destruct (get (fs_root st) l) as [[d|es]|] eqn:Eg; eauto.
  exfalso. apply H. exists es. exact Eg.
Qed.

(** ** The walk returns *)

Lemma same_at_refl (c : location) (r : node) : same_at c r r.
Proof. intros l. reflexivity. Qed.

Lemma same_at_trans (c : location) (r1 r2 r3 : node) :
  same_at c r1 r2 -> same_at c r2 r3 -> same_at c r1 r3.
Proof. intros H1 H2 l. rewrite H2. apply H1. Qed.

Lemma same_at_there (c : location) (r r' : node) :
  same_at c r r' -> get r' c = get r c.
Proof. intros H. rewrite <- (app_nil_r c). apply H. Qed.

Lemma put_same_at (r : node) (v r' : node) (p : location) (a b : str)
    (l1 l2 : location) :
  put r (p ++ b :: l2) v = Some r' -> a <> b ->
  same_at (p ++ a :: l1) r r'.
Proof.
  intros Hp Hab l. rewrite <- app_assoc. simpl.
  apply (get_put_off _ _ _ _ _ _ _ _ Hp Hab).
Qed.

(** A place where there is nothing, on the way to a place apart from the
    directory [c], is apart from [c] as well. *)
Lemma missing_place_apart (r : node) (u t p : location) (a b : str)
    (l1 l2 : location) :
  get r (p ++ a :: l1) <> None ->
  get r u = None ->
  u ++ t = p ++ b :: l2 ->
  exists l', u = p ++ b :: l'.
Proof.
  intros Hc Hu E. apply app_eq_app in E.
  destruct E as [k [[Eu Ek] | [Ep Et]]].
  - destruct k as [|b' k].
    + exfalso. rewrite app_nil_r in Eu. subst u.
      rewrite get_app, Hu in Hc. apply Hc. reflexivity.
    + simpl in Ek. injection Ek as <- _. eauto.
  - exfalso. subst p. rewrite <- app_assoc, get_app, Hu in Hc.
    apply Hc. reflexivity.
Qed.

Lemma norm_components_prefix (comps : list str) :
  ~ In dotdot comps ->
  forall acc, exists t, norm_components acc comps = rev acc ++ t.
Proof.
  induction comps as [|x rest IH]; intros Hno acc.
  - exists []. simpl. symmetry. apply app_nil_r.
  - rewrite norm_components_cons.
    assert (Hrest : ~ In dotdot rest) by (intros H; apply Hno; right; exact H).
    destruct (str_eqb x [] || str_eqb x dot); [apply (IH Hrest)|].
    destruct (str_eqb x dotdot) eqn:E.
    + exfalso. apply Hno. left. apply str_eqb_eq in E. exact E.
    + destruct (IH Hrest (x :: acc)) as [t Ht]. exists (x :: t).
      rewrite Ht. simpl. rewrite <- app_assoc. reflexivity.
Qed.

(** [os.makedirs] on a path without [..], to a place apart from the
    directory [c], leaves the tree below [c] as it was. *)
Lemma make_components_same_at (p : location) (a b : str) (l1 : location)
    (comps : list str) :
  a <> b -> ~ In dotdot comps ->
  forall (root : node) (loc : location) (root' : node) (r : result unit)
         (l2 : location),
    get root (p ++ a :: l1) <> None ->
    norm_components (rev loc) comps = p ++ b :: l2 ->
    make_components root loc comps = (root', r) ->
    same_at (p ++ a :: l1) root root'.
Proof.
  intros Hab. induction comps as [|x rest IH];
    intros Hno root loc root' r l2 Hc Hn H.
  - simpl in H. injection H as <- <-. apply same_at_refl.
  - assert (Hrest : ~ In dotdot rest) by (intros Hin; apply Hno; right; exact Hin).
    rewrite make_components_cons in H. rewrite norm_components_cons in Hn.
    destruct (str_eqb x [] || str_eqb x dot);
      [apply (IH Hrest _ _ _ _ _ Hc Hn H)|].
    destruct (str_eqb x dotdot) eqn:E.
    { exfalso. apply Hno. left. apply str_eqb_eq in E. exact E. }
    assert (Hn' : norm_components (rev (loc ++ [x])) rest = p ++ b :: l2).
    { rewrite rev_app_distr. exact Hn. }
    match type of H with
    | context [get ?u ?w] => destruct (get u w) as [[d|es]|] eqn:Eg
    end.
    + injection H as <- <-. apply same_at_refl.
    + apply (IH Hrest _ _ _ _ _ Hc Hn' H).
    + match type of H with
      | context [put ?u ?w ?v] => destruct (put u w v) as [root1|] eqn:Ep
      end.
      2:{ injection H as <- <-. apply same_at_refl. }
      destruct (norm_components_prefix rest Hrest (rev (loc ++ [x])))
        as [t Ht].
      rewrite Hn', rev_involutive in Ht. symmetry in Ht.
      destruct (missing_place_apart _ _ _ _ _ _ _ _ Hc Eg Ht) as [l' El'].
      assert (S1 : same_at (p ++ a :: l1) root root1).
      { apply (put_same_at root (Dir []) root1 p a b l1 l'); [|exact Hab].
        rewrite <- El'. exact Ep. }
      eapply same_at_trans; [exact S1|].
      apply (IH Hrest root1 (loc ++ [x]) root' r l2); [|exact Hn'|exact H].
      rewrite (same_at_there _ _ _ S1). exact Hc.
Qed.

Lemma makedirs_same_at (st : fs) (path : str) (st' : fs) (r : result unit)
    (p : location) (a b : str) (l1 l2 : location) :
  a <> b -> ~ In dotdot (split_char slash path) ->
  get (fs_root st) (p ++ a :: l1) <> None ->
  abspath_components (fs_cwd st) path = p ++ b :: l2 ->
  makedirs st path = (st', r) ->
  same_at (p ++ a :: l1) (fs_root st) (fs_root st').
Proof.
  intros Hab Hno Hc Ho. unfold makedirs. destruct path as [|x q].
  - intros H. injection H as <- <-. apply same_at_refl.
  - destruct (make_components _ _ _) as [root' r'] eqn:Em.
    intros H. injection H as <- <-. simpl.
    apply (make_components_same_at p a b l1 _ Hab Hno _ _ _ _ l2 Hc) in Em;
      [exact Em|].
    unfold abspath_components in Ho.
    destruct (startswith [slash] (x :: q)); exact Ho.
Qed.

Lemma write_file_same_at (st : fs) (path data : str) (st' : fs)
    (r : result unit) (p : location) (a b : str) (l1 l2 : location) :
  a <> b ->
  abspath_components (fs_cwd st) path = p ++ b :: l2 ->
  write_file st path data = (st', r) ->
  same_at (p ++ a :: l1) (fs_root st) (fs_root st').
Proof.
  intros Hab Ho H. apply write_file_inv in H.
  destruct H as [[-> _] | (loc & root1 & root' & x & Hr & _ & _ & Hp
                            & -> & _)].
  { apply same_at_refl. }
  apply resolve_abspath in Hr. rewrite Ho in Hr. subst loc. simpl.
  apply (put_same_at _ _ _ _ _ _ _ _ Hp Hab).
Qed.

(** The components of a joined path are components of its parts. *)
Lemma split_path_join (a b x : str) :
  startswith [slash] b = false ->
  In x (split_char slash (path_join a b)) ->
  In x (split_char slash a) \/ In x (split_char slash b).
Proof.
  intros Hb. unfold path_join. rewrite Hb.
  destruct a as [|y a]; [auto|].
  destruct (endswith [slash] (y :: a)) eqn:E.
  - apply endswith_iff in E. destruct E as [t Et]. rewrite Et.
    rewrite <- app_assoc. simpl ([slash] ++ b).
    rewrite split_char_sep. intros H. apply in_app_or in H.
    destruct H as [H | H]; [left | right; exact H].
    change (t ++ [slash]) with (t ++ slash :: []).
    rewrite split_char_sep. apply in_or_app. left. exact H.
  - simpl ([slash] ++ b). rewrite split_char_sep. apply in_app_or.
Qed.

Lemma rel_dir_of_no_dotdot (ds : list str) :
  Forall valid_name ds -> ~ In dotdot (split_char slash (rel_dir_of ds)).
Proof.
  intros H. destruct ds as [|d ds].
  - simpl. intros [E | []]. discriminate E.
  - unfold rel_dir_of. rewrite split_char_join.
    + intros Hin. rewrite Forall_forall in H.
      destruct (H _ Hin) as (_ & _ & Hdd & _). apply Hdd. reflexivity.
    + discriminate.
    + eapply Forall_impl; [|exact H]. intros x (_ & _ & _ & Hx). exact Hx.
Qed.

Lemma walk_bound_dir (es : list (str * node)) :
  walk_bound (Dir es) = S (length es * most_bound es).
Proof. reflexivity. Qed.

Lemma walk_bound_positive (n : node) : 1 <= walk_bound n.
Proof. destruct n; [apply Nat.le_refl|]. rewrite walk_bound_dir. lia. Qed.

Lemma bound_at_positive (n : node) (ds : list str) : 1 <= bound_at n ds.
Proof.
  unfold bound_at. destruct (get n ds); [apply walk_bound_positive | lia].
Qed.

Lemma most_bound_entry (es : list (str * node)) (k : str) (v : node) :
  In (k, v) es -> walk_bound v <= most_bound es.
Proof.
  induction es as [|[k' v'] es IH]; [contradiction|].
  simpl. intros [H | H].
  - injection H as _ ->. lia.
  - apply IH in H. lia.
Qed.

Lemma list_sum_bounded {A : Type} (f : A -> nat) (m : nat) (l : list A) :
  (forall x, In x l -> f x <= m) -> list_sum (map f l) <= length l * m.
Proof.
  induction l as [|x l IH]; intros H; [apply Nat.le_refl|].
  simpl. assert (f x <= m) by (apply H; left; reflexivity).
  assert (list_sum (map f l) <= length l * m)
    by (apply IH; intros y Hy; apply H; right; exact Hy).
  lia.
Qed.

(** The sub-directories that [os.walk] lists in a directory cost less
    than the directory. *)
Lemma stack_bound_listed (n : node) (ds : list str) (es : list (str * node)) :
  get n ds = Some (Dir es) ->
  S (stack_bound n
       (map (fun d => ds ++ [d])
          (map fst (filter (fun e => is_dir_node (snd e)) es))))
  <= bound_at n ds.
Proof.
  intros He. unfold bound_at at 1. rewrite He, walk_bound_dir.
  apply le_n_S. unfold stack_bound. rewrite map_map.
  set (dirs := map fst (filter (fun e => is_dir_node (snd e)) es)).
  assert (Hlen : length dirs <= length es).
  { unfold dirs. rewrite length_map. apply filter_length_le. }
  assert (Hb : list_sum (map (fun d => bound_at n (ds ++ [d])) dirs)
               <= length dirs * most_bound es).
  { apply list_sum_bounded. intros d Hd. unfold bound_at.
    rewrite (get_child _ _ _ _ He).
    destruct (assoc d es) as [v|] eqn:Ea.
    - apply (most_bound_entry es d v). apply assoc_In. exact Ea.
    - exfalso. unfold dirs in Hd. apply in_map_iff in Hd.
      destruct Hd as ([k v] & <- & Hin). apply filter_In in Hin.
      destruct Hin as [Hin _]. apply (In_assoc _ _ _ Hin). exact Ea. }
  nia.
Qed.

Section Returns.

Variable markdown_to_html : str -> result str.
Variables content_dir template_path output_dir basepath : str.
Variable st0 : fs.
Variables c o : location.
Variable n0 : node.

Hypothesis sound0 : sound st0.
Hypothesis content_resolves : resolve st0 content_dir = Ok c.
Hypothesis output_place : o = abspath_components (fs_cwd st0) output_dir.
Hypothesis content_tree : get (fs_root st0) c = Some n0.
Hypothesis places_apart : apart c o.
Hypothesis output_no_dotdot : ~ In dotdot (split_char slash output_dir).

(** One entry: the content tree is as before. *)
Lemma visit_file_same_at (st st' : fs) (r : result unit) (ds : list str)
    (f : str) :
  fs_grows (mirrored st0 c o) st0 st ->
  get (fs_root st) c <> None ->
  Forall valid_name ds -> valid_name f ->
  visit_file markdown_to_html content_dir template_path output_dir basepath
    (walk_path content_dir ds) f st = (st', r) ->
  same_at c (fs_root st) (fs_root st').
Proof.
  intros Hreach Hc Hds Hf H.
  destruct (endswith md_suffix f) eqn:Emd.
  2:{ unfold visit_file in H. rewrite Emd in H. injection H as <- <-.
      apply same_at_refl. }
  assert (Hcwd : fs_cwd st = fs_cwd st0) by (destruct Hreach; assumption).
  pose proof (fs_grows_sound _ _ _ Hreach sound0) as Hsound.
  destruct places_apart as (p & a & b & l1 & l2 & Ec & Eo & Hab).
  destruct (visit_file_md_inv markdown_to_html content_dir template_path
              output_dir basepath st0 c content_resolves
              _ _ _ _ _ Hcwd Hds Emd H)
    as (st1 & r1 & Hmk & Hrest).
  assert (S1 : same_at c (fs_root st) (fs_root st1)).
  { rewrite Ec.
    apply (makedirs_same_at st (path_join output_dir (rel_dir_of ds))
             st1 r1 p a b l1 (l2 ++ ds) Hab).
    - intros Hin. apply split_path_join in Hin.
      + destruct Hin as [Hin | Hin]; [exact (output_no_dotdot Hin)|].
        exact (rel_dir_of_no_dotdot ds Hds Hin).
      + apply rel_dir_of_relative. exact Hds.
    - rewrite <- Ec. exact Hc.
    - rewrite Hcwd, (abspath_join_rel_dir _ _ _ Hds), <- output_place, Eo.
      rewrite <- app_assoc. reflexivity.
    - exact Hmk. }
  destruct Hrest as [(e & _ & -> & _) | [_ Hgen]]; [exact S1|].
  apply generate_page_cases in Hgen.
  destruct Hgen as [[-> _] | (markdown & html & _ & Hw)]; [exact S1|].
  eapply same_at_trans; [exact S1|].
  assert (Hcwd1 : fs_cwd st1 = fs_cwd st0).
  { destruct (makedirs_grows _ _ _ _ Hsound Hmk) as [_ C]. congruence. }
  destruct (output_filename_valid f Hf Emd) as [Hout _].
  rewrite Ec.
  apply (write_file_same_at st1
           (path_join (path_join output_dir (rel_dir_of ds))
              (output_filename f))
           html st' r p a b l1
           (l2 ++ ds ++ [output_filename f]) Hab); [|exact Hw].
  rewrite Hcwd1, (abspath_output_path _ _ _ _ Hds Hout), <- output_place, Eo.
  rewrite <- app_assoc. reflexivity.
Qed.

Lemma for_each_same_at (files : list str) (ds : list str) :
  Forall valid_name ds -> Forall valid_name files ->
  forall (st st' : fs) (r : result unit),
    fs_grows (mirrored st0 c o) st0 st ->
    get (fs_root st) c <> None ->
    for_each files
      (visit_file markdown_to_html content_dir template_path output_dir
         basepath (walk_path content_dir ds)) st = (st', r) ->
    same_at c (fs_root st) (fs_root st').
Proof.
  intros Hds Hfiles. induction Hfiles as [|f files Hf _ IH];
    intros st st' r Hreach Hc H.
  - simpl in H. injection H as <- <-. apply same_at_refl.
  - simpl in H. unfold bind in H.
    destruct (visit_file _ _ _ _ _ _ f st) as [st1 r1] eqn:Ev.
    pose proof (visit_file_same_at _ _ _ _ _ Hreach Hc Hds Hf Ev) as S1.
    destruct (visit_file_step markdown_to_html content_dir template_path
                output_dir basepath st0 c o sound0 content_resolves
                output_place _ _ _ _ _ Hreach Hds Hf Ev) as [G1 _].
    destruct r1 as [[]|e].
    2:{ injection H as <- <-. exact S1. }
    eapply same_at_trans; [exact S1|].
    apply (IH st1 st' r); [| |exact H].
    + eapply fs_grows_trans; eauto.
    + rewrite (same_at_there _ _ _ S1). exact Hc.
Qed.

(** The walk returns once the fuel covers the directories on the stack,
    and it leaves the content tree as it was. *)
Lemma os_walk_returns (fuel : nat) :
  forall (dss : list (list str)) (st : fs),
    fs_grows (mirrored st0 c o) st0 st ->
    same_at c (fs_root st0) (fs_root st) ->
    Forall (Forall valid_name) dss ->
    stack_bound n0 dss <= fuel ->
    exists st1 r,
      os_walk fuel (map (walk_path content_dir) dss)
        (fun root _ files =>
           for_each files
             (visit_file markdown_to_html content_dir template_path
                output_dir basepath root)) st = Some (st1, r)
      /\ same_at c (fs_root st0) (fs_root st1).
Proof.
  induction fuel as [|fuel IH]; intros dss st Hreach Hsame Hdss Hfuel.
  - destruct dss as [|ds dss].
    + exists st, (Ok tt). split; [reflexivity | exact Hsame].
    + exfalso. unfold stack_bound in Hfuel. simpl in Hfuel.
      pose proof (bound_at_positive n0 ds). lia.
  - destruct dss as [|ds dss].
    { exists st, (Ok tt). split; [reflexivity | exact Hsame]. }
    apply Forall_cons_iff in Hdss. destruct Hdss as [Hds Hrest].
    assert (Hcost : stack_bound n0 (ds :: dss)
                    = bound_at n0 ds + stack_bound n0 dss) by reflexivity.
    pose proof (bound_at_positive n0 ds) as Hpos.
    pose proof (fs_grows_sound _ _ _ Hreach sound0) as Hsound.
    assert (Hcwd : fs_cwd st = fs_cwd st0) by (destruct Hreach; assumption).
    assert (Hc : get (fs_root st) c <> None).
    { rewrite (same_at_there _ _ _ Hsame), content_tree. discriminate. }
    simpl map. simpl os_walk.
    destruct (scandir st (walk_path content_dir ds)) as [[dirs files]|e]
      eqn:Es.
    2:{ apply (IH dss st Hreach Hsame Hrest). lia. }
    destruct (scandir_inv _ _ _ _ Es) as (es & He & Hdirs & Hfiles).
    rewrite Hcwd, (abspath_walk_path _ _ _ Hds),
      (content_abspath content_dir st0 c content_resolves) in He.
    assert (He0 : get n0 ds = Some (Dir es)).
    { rewrite Hsame, get_app, content_tree in He. exact He. }
    destruct Hsound as [Hv Hcw].
    assert (Hvf : Forall valid_name files).
    { apply Forall_forall. intros f Hf. subst files.
      eapply listed_valid; eauto. }
    assert (Hvd : Forall valid_name dirs).
    { apply Forall_forall. intros d Hd. subst dirs.
      eapply listed_valid; eauto. }
    destruct (for_each files _ st) as [st' r'] eqn:Ef.
    destruct (for_each_step markdown_to_html content_dir template_path
                output_dir basepath st0 c o sound0 content_resolves
                output_place _ _ Hds Hvf _ _ _ Hreach Ef) as [G1 _].
    pose proof (for_each_same_at _ _ Hds Hvf _ _ _ Hreach Hc Ef) as S1.
    assert (Hsame' : same_at c (fs_root st0) (fs_root st'))
      by (eapply same_at_trans; eauto).
    destruct r' as [[]|e].
    2:{ exists st', (Raise e). split; [reflexivity | exact Hsame']. }
    assert (Estack : map (path_join (walk_path content_dir ds)) dirs
                     ++ map (walk_path content_dir) dss
                     = map (walk_path content_dir)
                         (map (fun d => ds ++ [d]) dirs ++ dss)).
    { rewrite map_app, map_map. f_equal. apply map_ext.
      intros d. symmetry. apply walk_path_snoc. }
    rewrite Estack. apply IH.
    + eapply fs_grows_trans; eauto.
    + exact Hsame'.
    + apply Forall_app. split; [|exact Hrest].
      apply Forall_forall. intros x Hx. apply in_map_iff in Hx.
      destruct Hx as (d & <- & Hd). apply Forall_app.
      split; [exact Hds|]. constructor; [|constructor].
      rewrite Forall_forall in Hvd. auto.
    + pose proof (stack_bound_listed n0 ds es He0) as Hl.
      rewrite <- Hdirs in Hl.
      unfold stack_bound in *. rewrite map_app, list_sum_app.
      simpl in Hfuel. lia.
Qed.

End Returns.

(** ** The pages are the renderings of their sources *)

Section Content.

Variable markdown_to_html : str -> result str.
Variables content_dir template_path output_dir basepath : str.
Variable st0 : fs.
Variables c o : location.
Variable tpl : str.

Hypothesis sound0 : sound st0.
Hypothesis content_resolves : resolve st0 content_dir = Ok c.
Hypothesis output_place : o = abspath_components (fs_cwd st0) output_dir.
Hypothesis template_read : read_file st0 template_path = Ok tpl.
Hypothesis template_off :
  ~ page_place o (abspath_components (fs_cwd st0) template_path).

Local Abbreviation is_page := (rendered markdown_to_html tpl basepath st0 c o).
Local Abbreviation all_known := (faithful markdown_to_html tpl basepath st0 c o).

Lemma rendered_kept (P : location -> Prop) (r r' : node) (l : location) :
  keeps P r r' -> ~ P l -> is_page r l -> is_page r' l.
Proof.
  intros K Hl (ds & g & d & x & El & Hg & Hd & Hp & Hx).
  exists ds, g, d, x. do 4 (split; [assumption|]).
  destruct (K _ _ Hx) as [H | H]; [contradiction | exact H].
Qed.

Lemma rendered_page_place (r : node) (l : location) :
  is_page r l -> page_place o l.
Proof. intros (ds & g & d & x & El & Hg & _). exists ds, g. auto. Qed.

Lemma faithful_makedirs (st st1 : fs) (path : str) (r1 : result unit) :
  sound st ->
  makedirs st path = (st1, r1) ->
  all_known (fs_root st) ->
  all_known (fs_root st1)
  /\ (forall l, is_page (fs_root st) l -> is_page (fs_root st1) l).
Proof.
  intros Hs Hmk Hf.
  pose proof (makedirs_keeps _ _ _ _ Hmk) as K.
  destruct (makedirs_grows _ _ _ _ Hs Hmk) as [(_ & _ & N & _) _].
  assert (Hst : forall l, is_page (fs_root st) l -> is_page (fs_root st1) l).
  { intros l. apply (rendered_kept _ _ _ _ K). intros []. }
  split; [|exact Hst].
  intros l x Hx.
  destruct (N l (ex_intro _ x Hx)) as [[x' Hx'] | []].
  destruct (K _ _ Hx') as [[] | Hx1].
  assert (x' = x) by congruence. subst x'.
  destruct (Hf _ _ Hx') as [H | H]; [left; exact H|].
  right. apply Hst. exact H.
Qed.

(** A file whose name ends in [.md] has the data it had at the start. *)
Lemma md_source_initial (r : node) (p : location) (f d : str) :
  all_known r ->
  get r (p ++ [f]) = Some (File d) ->
  endswith md_suffix f = true ->
  get (fs_root st0) (p ++ [f]) = Some (File d).
Proof.
  intros Hf Hd Hmd. destruct (Hf _ _ Hd) as [H | H]; [exact H|].
  exfalso. apply rendered_page_place in H.
  apply (page_place_not_md _ _ _ Hmd H).
Qed.

(** The template reads as it did at the start. *)
Lemma template_initial (st : fs) (t : str) :
  all_known (fs_root st) ->
  fs_cwd st = fs_cwd st0 ->
  read_file st template_path = Ok t ->
  t = tpl.
Proof.
  intros Hf Hcwd Hr.
  destruct (read_file_ok_inv _ _ _ Hr) as (l & raw & Hl & Hg & ->).
  apply resolve_abspath in Hl. rewrite Hcwd in Hl. subst l.
  destruct (read_file_ok_inv _ _ _ template_read)
    as (l0 & raw0 & Hl0 & Hg0 & Etpl).
  apply resolve_abspath in Hl0. subst l0.
  destruct (Hf _ _ Hg) as [H | H]; [congruence|].
  exfalso. apply template_off. apply (rendered_page_place _ _ H).
Qed.

(** One entry of a directory of the walk, when it goes through. *)
Lemma visit_file_content (st st' : fs) (ds : list str) (f : str) :
  fs_grows (mirrored st0 c o) st0 st ->
  all_known (fs_root st) ->
  Forall valid_name ds -> valid_name f ->
  visit_file markdown_to_html content_dir template_path output_dir basepath
    (walk_path content_dir ds) f st = (st', Ok tt) ->
  all_known (fs_root st')
  /\ (forall l, is_page (fs_root st) l -> is_page (fs_root st') l)
  /\ (endswith md_suffix f = true ->
      is_page (fs_root st') (o ++ ds ++ [output_filename f])).
Proof.
  intros Hreach Hknown Hds Hf H.
  destruct (endswith md_suffix f) eqn:Emd.
  2:{ unfold visit_file in H. rewrite Emd in H. injection H as <-.
      split; [exact Hknown|]. split; [auto | discriminate]. }
  assert (Hcwd : fs_cwd st = fs_cwd st0) by (destruct Hreach; assumption).
  pose proof (fs_grows_sound _ _ _ Hreach sound0) as Hsound.
  destruct (visit_file_md_inv markdown_to_html content_dir template_path
              output_dir basepath st0 c content_resolves
              _ _ _ _ _ Hcwd Hds Emd H)
    as (st1 & r1 & Hmk & Hrest).
  destruct (faithful_makedirs _ _ _ _ Hsound Hmk Hknown) as [Hknown1 Hst1].
  destruct Hrest as [(e & _ & _ & He) | [_ Hgen]]; [discriminate|].
  destruct (makedirs_grows _ _ _ _ Hsound Hmk) as [G1 Hcwd1'].
  assert (Hcwd1 : fs_cwd st1 = fs_cwd st0) by congruence.
  assert (Hsound1 : sound st1).
  { apply (fs_grows_sound _ _ _ (conj G1 Hcwd1') Hsound). }
  destruct (generate_page_ok_inv _ _ _ _ _ _ _ Hgen)
    as (markdown & title & html_content & template
        & Hin & Htitle & Hhtml & Htpl & Hw).
  (* the sources are those of the start *)
  apply (template_initial _ _ Hknown1 Hcwd1) in Htpl. subst template.
  destruct (read_file_ok_inv _ _ _ Hin) as (li & raw & Hli & Hgi & ->).
  apply resolve_abspath in Hli.
  rewrite Hcwd1, (abspath_join_name _ _ _ Hf),
    (abspath_walk_path _ _ _ Hds),
    (content_abspath content_dir st0 c content_resolves) in Hli.
  subst li.
  apply (md_source_initial _ _ _ _ Hknown1) in Hgi; [|exact Emd].
  (* the page *)
  destruct (output_filename_valid f Hf Emd) as [Hout _].
  pose proof (write_file_keeps _ _ _ _ _ Hw) as K.
  destruct (write_file_grows _ _ _ _ _ Hsound1 Hw)
    as [[(_ & _ & N & _) _] _].
  destruct (write_file_ok_inv _ _ _ _ Hw)
    as (lo & root1 & root' & Hlo & _ & _ & _ & Hp & E').
  apply resolve_abspath in Hlo.
  rewrite Hcwd1, (abspath_output_path _ _ _ _ Hds Hout), <- output_place
    in Hlo, K, N.
  subst lo st'. simpl fs_root in *.
  assert (Hpage : is_page root' (o ++ ds ++ [output_filename f])).
  { exists ds, f, raw,
      (render_page title html_content tpl basepath).
    split; [reflexivity|]. split; [exact Emd|].
    split; [rewrite <- app_assoc in Hgi; exact Hgi|].
    split; [exists title, html_content; auto|].
    rewrite <- (app_nil_r (o ++ ds ++ [output_filename f])).
    rewrite (get_put_ext _ _ _ _ _ Hp). reflexivity. }
  assert (Hst' : forall l, is_page (fs_root st1) l -> is_page root' l).
  { intros l Hl. pose proof Hl as (ds' & g & d & x & _ & _ & _ & _ & Hx).
    destruct (K _ _ Hx) as [<- | Hx']; [exact Hpage|].
    destruct Hl as (ds2 & g2 & d2 & x2 & El & Hg & Hd & Hpg & Hx2).
    exists ds2, g2, d2, x2. do 4 (split; [assumption|]).
    destruct (K _ _ Hx2) as [<- | H2]; [|exact H2].
    congruence. }
  split; [|split; [auto | intros _; exact Hpage]].
  intros l x Hx.
  destruct (N l (ex_intro _ x Hx)) as [[x1 Hx1] | <-]; [|right; exact Hpage].
  destruct (K _ _ Hx1) as [<- | Hx1']; [right; exact Hpage|].
  assert (x1 = x) by congruence. subst x1.
  destruct (Hknown1 _ _ Hx1) as [H0 | H0]; [left; exact H0|].
  right. apply Hst'. exact H0.
Qed.

(** All the entries of a directory of the walk, when they go through. *)
Lemma for_each_content (files : list str) (ds : list str) :
  Forall valid_name ds -> Forall valid_name files ->
  forall (st st' : fs),
    fs_grows (mirrored st0 c o) st0 st ->
    all_known (fs_root st) ->
    for_each files
      (visit_file markdown_to_html content_dir template_path output_dir
         basepath (walk_path content_dir ds)) st = (st', Ok tt) ->
    all_known (fs_root st')
    /\ (forall l, is_page (fs_root st) l -> is_page (fs_root st') l)
    /\ (forall f, In f files -> endswith md_suffix f = true ->
                  is_page (fs_root st') (o ++ ds ++ [output_filename f])).
Proof.
  intros Hds Hfiles. induction Hfiles as [|f files Hf _ IH];
    intros st st' Hreach Hknown H.
  - simpl in H. injection H as <-.
    split; [exact Hknown|]. split; [auto|]. intros f [].
  - simpl in H. unfold bind in H.
    destruct (visit_file _ _ _ _ _ _ f st) as [st1 r1] eqn:Ev.
    destruct r1 as [[]|e]; [|discriminate].
    destruct (visit_file_content _ _ _ _ Hreach Hknown Hds Hf Ev)
      as (Hknown1 & Hst1 & Hpage1).
    destruct (visit_file_step markdown_to_html content_dir template_path
                output_dir basepath st0 c o sound0 content_resolves
                output_place _ _ _ _ _ Hreach Hds Hf Ev) as [G1 _].
    assert (Hreach1 : fs_grows (mirrored st0 c o) st0 st1)
      by (eapply fs_grows_trans; eauto).
    destruct (IH _ _ Hreach1 Hknown1 H) as (Hknown' & Hst' & Hpages).
    split; [exact Hknown'|]. split; [auto|].
    intros g [<- | Hin] Hmd; [|auto].
    apply Hst'. apply Hpage1. exact Hmd.
Qed.

(** The walk: when it ends without an exception, every [.md] file below
    a directory that was on the stack has its page. *)
Lemma os_walk_content (fuel : nat) :
  forall (stack : list str) (st st1 : fs),
    fs_grows (mirrored st0 c o) st0 st ->
    all_known (fs_root st) ->
    (forall s, In s stack ->
       exists ds, s = walk_path content_dir ds /\ Forall valid_name ds) ->
    os_walk fuel stack
      (fun root _ files =>
         for_each files
           (visit_file markdown_to_html content_dir template_path output_dir
              basepath root)) st = Some (st1, Ok tt) ->
    all_known (fs_root st1)
    /\ (forall l, is_page (fs_root st) l -> is_page (fs_root st1) l)
    /\ (forall ds, In (walk_path content_dir ds) stack ->
                   Forall valid_name ds ->
                   forall ds' f,
                     is_file (fs_root st0) (c ++ ds ++ ds' ++ [f]) ->
                     endswith md_suffix f = true ->
                     is_page (fs_root st1)
                       (o ++ ds ++ ds' ++ [output_filename f])).
Proof.
  induction fuel as [|fuel IH]; intros stack st st1 Hreach Hknown Hstack H.
  - destruct stack as [|top rest]; [|discriminate].
    simpl in H. injection H as <-.
    split; [exact Hknown|]. split; [auto|]. intros ds [].
  - destruct stack as [|top rest].
    { simpl in H. injection H as <-.
      split; [exact Hknown|]. split; [auto|]. intros ds []. }
    destruct (Hstack top (or_introl eq_refl)) as (ds0 & -> & Hds0).
    assert (Hrest : forall s, In s rest ->
              exists ds, s = walk_path content_dir ds /\ Forall valid_name ds).
    { intros s Hs. apply Hstack. right. exact Hs. }
    pose proof (fs_grows_sound _ _ _ Hreach sound0) as Hsound.
    assert (Hcwd : fs_cwd st = fs_cwd st0) by (destruct Hreach; assumption).
    simpl in H.
    destruct (scandir st (walk_path content_dir ds0)) as [[dirs files]|e]
      eqn:Es.
    + destruct (scandir_inv _ _ _ _ Es) as (es & He & Hdirs & Hfiles).
      rewrite Hcwd, (abspath_walk_path _ _ _ Hds0),
        (content_abspath content_dir st0 c content_resolves) in He.
      destruct Hsound as [Hv Hc].
      assert (Hvf : Forall valid_name files).
      { apply Forall_forall. intros f Hf. rewrite Hfiles in Hf.
        eapply listed_valid; eauto. }
      assert (Hvd : Forall valid_name dirs).
      { apply Forall_forall. intros d Hd. rewrite Hdirs in Hd.
        eapply listed_valid; eauto. }
      destruct (for_each files _ st) as [st' r'] eqn:Ef.
      destruct (for_each_step markdown_to_html content_dir template_path
                  output_dir basepath st0 c o sound0 content_resolves
                  output_place _ _ Hds0 Hvf _ _ _ Hreach Ef) as [G1 _].
      destruct r' as [[]|e]; [|discriminate].
      destruct (for_each_content _ _ Hds0 Hvf _ _ Hreach Hknown Ef)
        as (Hknown' & Hst' & Hpages).
      assert (Hreach' : fs_grows (mirrored st0 c o) st0 st')
        by (eapply fs_grows_trans; eauto).
      assert (Hstack' : forall s,
                In s (map (path_join (walk_path content_dir ds0)) dirs ++ rest) ->
                exists ds, s = walk_path content_dir ds /\ Forall valid_name ds).
      { intros s Hs. apply in_app_or in Hs. destruct Hs as [Hs | Hs]; [|auto].
        apply in_map_iff in Hs. destruct Hs as (d & <- & Hd).
        exists (ds0 ++ [d]). split; [symmetry; apply walk_path_snoc|].
        apply Forall_app. split; [exact Hds0|].
        constructor; [|constructor].
        rewrite Forall_forall in Hvd. auto. }
      destruct (IH _ _ _ Hreach' Hknown' Hstack' H) as (Hknown1 & Hst1 & Cov).
      split; [exact Hknown1|]. split; [auto|].
      intros ds [Etop | Hin] Hds.
      * apply (walk_path_injective content_dir st0) in Etop;
          [|assumption|assumption].
        rewrite <- Etop in *. intros ds' f Hf Hmd.
        destruct ds' as [|d ds'].
        -- simpl in *.
           assert (Hst : is_file (fs_root st) (c ++ ds0 ++ [f])).
           { destruct Hreach as [(_ & Fp & _) _]. auto. }
           rewrite app_assoc in Hst.
           pose proof (listed_file _ _ _ _ He Hst) as Hl.
           rewrite <- Hfiles in Hl.
           apply Hst1. apply Hpages; [exact Hl | exact Hmd].
        -- assert (Hd0 : is_dir (fs_root st0) ((c ++ ds0) ++ [d])).
           { destruct Hf as [x Hx].
             apply (is_dir_below _ _ (ds' ++ [f])).
             - destruct ds'; discriminate.
             - rewrite <- !app_assoc. simpl. simpl in Hx. congruence. }
           assert (Hd : is_dir (fs_root st) ((c ++ ds0) ++ [d])).
           { destruct Hreach as [(Dp & _) _]. auto. }
           pose proof (listed_dir _ _ _ _ He Hd) as Hl.
           rewrite <- Hdirs in Hl.
           assert (Hcov : In (walk_path content_dir (ds0 ++ [d]))
                            (map (path_join (walk_path content_dir ds0)) dirs
                             ++ rest)).
           { apply in_or_app. left. rewrite walk_path_snoc.
             apply in_map. exact Hl. }
           assert (Hvalid : Forall valid_name (ds0 ++ [d])).
           { apply Forall_app. split; [exact Hds0|].
             constructor; [|constructor].
             rewrite Forall_forall in Hvd. auto. }
           pose proof (Cov _ Hcov Hvalid ds' f) as Hpg.
           rewrite <- !app_assoc in Hpg. apply Hpg; assumption.
      * apply Cov; [|exact Hds]. apply in_or_app. right. exact Hin.
    + destruct (IH _ _ _ Hreach Hknown Hrest H) as (Hknown1 & Hst1 & Cov).
      split; [exact Hknown1|]. split; [exact Hst1|].
      intros ds [Etop | Hin] Hds; [|auto].
      apply (walk_path_injective content_dir st0) in Etop;
        [|assumption|assumption].
      rewrite <- Etop in *. intros ds' f Hf Hmd. exfalso.
      assert (Hd0 : is_dir (fs_root st0) (c ++ ds0)).
      { destruct Hf as [x Hx].
        apply (is_dir_below _ _ (ds' ++ [f])).
        - destruct ds'; discriminate.
        - rewrite <- !app_assoc. congruence. }
      assert (Hd : is_dir (fs_root st) (c ++ ds0)).
      { destruct Hreach as [(Dp & _) _]. auto. }
      pose proof (resolve_grows _ _ _ _ _ Hreach content_resolves) as Hr.
      pose proof (resolve_walk_path _ _ _ _ Hr Hd Hds0) as Hr'.
      destruct (scandir_ok _ _ _ Hr' Hd) as (dirs & files & Hok).
      congruence.
Qed.

End Content.

(* ===================================================================== *)
(** * The claims of the specification *)
(* ===================================================================== *)

(** ** Links under the base path [myrepo] *)

(** C1, as the specification states it, fails on the marker: with the
    base path [myrepo] the template [href='HTMLStaticSite/style.css']
    does not become [href='myrepo/style.css']; the marker is replaced by
    [myrepo/] and the slash that followed it stays. *)
Lemma style_link_myrepo_double_slash :
  render_page (lit "Welcome") (lit "<p>body</p>") style_link (lit "myrepo")
  = href_open ++ lit "myrepo//style.css" ++ [dquote]
  /\ render_page (lit "Welcome") (lit "<p>body</p>") style_link (lit "myrepo")
     <> href_open ++ lit "myrepo/style.css" ++ [dquote].
Proof.
  split; [vm_compute; reflexivity|].
  vm_compute. intros H. discriminate H.
Qed.

(** C1 (amended): with the base path [myrepo], normalized to [myrepo/],
    [generate_page] writes the substituted template with every
    occurrence of [href='/about'] rewritten to [href='myrepo/about'] and
    every occurrence of [href='HTMLStaticSite/style.css'] rewritten to
    [href='myrepo//style.css']; the text before and after an occurrence
    is rewritten on its own. *)
Theorem generate_page_myrepo_links
    (markdown_to_html : str -> result str) (st : fs)
    (input_path template_path output_path : str)
    (markdown title html_content template : str) :
  read_file st input_path = Ok markdown ->
  extract_title markdown = Ok title ->
  markdown_to_html markdown = Ok html_content ->
  read_file st template_path = Ok template ->
  normalize_basepath (lit "myrepo") = lit "myrepo/"
  /\ (forall a b,
        substitute title html_content template = a ++ about_link ++ b ->
        generate_page markdown_to_html input_path template_path output_path
          (lit "myrepo") st
        = write_file st output_path
            (fix_urls (lit "myrepo/") a
             ++ (href_open ++ lit "myrepo/about" ++ [dquote])
             ++ fix_urls (lit "myrepo/") b))
  /\ (forall a b,
        substitute title html_content template = a ++ style_link ++ b ->
        generate_page markdown_to_html input_path template_path output_path
          (lit "myrepo") st
        = write_file st output_path
            (fix_urls (lit "myrepo/") a
             ++ (href_open ++ lit "myrepo//style.css" ++ [dquote])
             ++ fix_urls (lit "myrepo/") b)).
Proof.
  intros Hin Ht Hr Htpl. split; [reflexivity|].
  split; intros a b Hhtml;
    rewrite (generate_page_writes _ _ _ _ _ _ _ _ _ _ Hin Ht Hr Htpl);
    unfold render_page; rewrite Hhtml;
    change (normalize_basepath (lit "myrepo")) with (lit "myrepo/");
    rewrite fix_urls_around by (vm_compute; reflexivity);
    reflexivity.
Qed.

Lemma generate_page_myrepo_links_witness :
  generate_page sample_renderer (lit "content/index.md")
    (lit "template.html") (lit "index.html") (lit "myrepo") sample_fs
  = write_file sample_fs (lit "index.html")
      (fix_urls (lit "myrepo/")
         (lit "<html><head><title>Welcome</title><link " ++ style_link ++
          lit "></head><body><a ")
       ++ (href_open ++ lit "myrepo/about" ++ [dquote])
       ++ fix_urls (lit "myrepo/")
            (lit ">About</a><p>" ++ sample_index ++
             lit "</p></body></html>")).
Proof.
  apply (proj1 (proj2
    (generate_page_myrepo_links sample_renderer sample_fs
       (lit "content/index.md") (lit "template.html") (lit "index.html")
       sample_index (lit "Welcome")
       (lit "<p>" ++ sample_index ++ lit "</p>") sample_template
       ltac:(vm_compute; reflexivity) ltac:(vm_compute; reflexivity)
       ltac:(vm_compute; reflexivity) ltac:(vm_compute; reflexivity)))).
  vm_compute. reflexivity.
Defined.

(** ** Markers are rewritten once *)

(** C2 fails on the code.  The comment on line 30 gives the purpose of
    the rewriting, GitHub Pages, where the base path is of the form
    [/repo/].  With that base path line 31 puts [href='/repo/] in the
    place of the marker, and line 33 takes the text that line 31 wrote
    for a root-relative link and rewrites it again: the page of the
    sample site has [href='/repo/repo//style.css'] where line 31 had put
    [href='/repo//style.css']. *)
Theorem marker_rewritten_twice :
  fix_urls (normalize_basepath (lit "/repo")) href_marker
  = href_open ++ lit "/repo/repo/"
  /\ fix_urls (normalize_basepath (lit "/repo")) href_marker
     <> href_open ++ normalize_basepath (lit "/repo")
  /\ replace href_marker (href_open ++ lit "/repo/") style_link
     = href_open ++ lit "/repo//style.css" ++ [dquote]
  /\ get
       (fs_root
          (fst (generate_page sample_renderer (lit "content/index.md")
                  (lit "template.html") (lit "index.html") (lit "/repo/")
                  sample_fs)))
       [lit "work"; lit "index.html"]
     = Some (File
               (lit "<html><head><title>Welcome</title><link " ++
                href_open ++ lit "/repo/repo//style.css" ++ [dquote] ++
                lit "></head><body><a " ++
                href_open ++ lit "/repo/about" ++ [dquote] ++
                lit ">About</a><p>" ++ sample_index ++
                lit "</p></body></html>")).
Proof.
  split; [vm_compute; reflexivity|].
  split; [vm_compute; intros H; discriminate H|].
  split; vm_compute; reflexivity.
Qed.

(** Where the second rewriting does not happen: when the normalized base
    path has no double quote and either does not start with a slash or
    consists of slashes only, the text that replaces a marker is not
    changed by the later passes, and a root-relative [href='/] or
    [src='/] of the template ends as the attribute followed by the base
    path with one slash at its end.  The text before and after is
    rewritten on its own. *)
Lemma marker_rewritten_once (basepath a b : str) :
  ~ In dquote (normalize_basepath basepath) ->
  startswith [slash] (normalize_basepath basepath) = false
  \/ rstrip_char slash (normalize_basepath basepath) = [] ->
  fix_urls (normalize_basepath basepath) (a ++ href_marker ++ b)
  = fix_urls (normalize_basepath basepath) a
    ++ (href_open ++ normalize_basepath basepath)
    ++ fix_urls (normalize_basepath basepath) b
  /\ fix_urls (normalize_basepath basepath) (a ++ src_marker ++ b)
     = fix_urls (normalize_basepath basepath) a
       ++ (src_open ++ normalize_basepath basepath)
       ++ fix_urls (normalize_basepath basepath) b
  /\ fix_urls (normalize_basepath basepath) (a ++ href_root ++ b)
     = fix_urls (normalize_basepath basepath) a
       ++ (href_open ++ rstrip_char slash (normalize_basepath basepath)
           ++ [slash])
       ++ fix_urls (normalize_basepath basepath) b
  /\ fix_urls (normalize_basepath basepath) (a ++ src_root ++ b)
     = fix_urls (normalize_basepath basepath) a
       ++ (src_open ++ rstrip_char slash (normalize_basepath basepath)
           ++ [slash])
       ++ fix_urls (normalize_basepath basepath) b.
Proof.
  intros Hq Hs. split; [|split; [|split]].
  - destruct (normalize_basepath_slash basepath) as [nb' E].
    rewrite E in *. apply fix_urls_href_marker_once; assumption.
  - destruct (normalize_basepath_slash basepath) as [nb' E].
    rewrite E in *. apply fix_urls_src_marker_once; assumption.
  - apply fix_urls_href_root_once. exact Hq.
  - apply fix_urls_src_root_once.
Qed.

(** ** Title extraction *)

(** C3: in a document whose lines are [pre], then the line [# title],
    then [post], where no line of [pre] starts with the heading marker,
    [extract_title] returns [title] as it stands, trailing white space
    included; the lines after the first heading do not matter.  Every
    document with a heading line is of this form ([first_heading_line]). *)
Theorem extract_title_first_heading (pre post : list str) (title : str) :
  Forall (fun line => ~ In newline line)
         (pre ++ (heading_marker ++ title) :: post) ->
  Forall not_heading pre ->
  extract_title (join [newline] (pre ++ (heading_marker ++ title) :: post))
  = Ok title.
Proof. apply extract_title_heading. Qed.

Lemma extract_title_first_heading_witness :
  extract_title sample_notes = Ok (lit "Notes  ").
Proof.
  apply (extract_title_first_heading
           [lit "Some notes"] [lit "# Later heading"] (lit "Notes  ")).
  - repeat constructor; vm_compute;
      intros H; repeat (destruct H as [H | H]; [discriminate H|]); exact H.
  - repeat constructor.
Defined.

(** C4: [extract_title] raises exactly when no line of the document
    starts with the heading marker, and then it raises the missing-title
    [ValueError]; [generate_page] ends with that same exception and
    leaves the file system as it was: nothing is written. *)
Theorem missing_title_error
    (markdown_to_html : str -> result str) (st : fs)
    (input_path template_path output_path basepath markdown : str) :
  (extract_title markdown = Raise (ValueError no_title_message)
   <-> Forall not_heading (split_char newline markdown))
  /\ (forall e, extract_title markdown = Raise e ->
                e = ValueError no_title_message)
  /\ (read_file st input_path = Ok markdown ->
      Forall not_heading (split_char newline markdown) ->
      generate_page markdown_to_html input_path template_path output_path
        basepath st
      = (st, Raise (ValueError no_title_message))).
Proof.
  split; [split|split].
  - intros H. apply (first_heading_raise _ _ H).
  - apply first_heading_none.
  - intros e H. apply (first_heading_raise _ _ H).
  - intros Hin Hno. apply generate_page_no_title with (markdown := markdown).
    + exact Hin.
    + apply first_heading_none. exact Hno.
Qed.

Lemma missing_title_error_witness :
  generate_page sample_renderer (lit "content/readme.txt")
    (lit "template.html") (lit "readme.html") default_basepath sample_fs
  = (sample_fs, Raise (ValueError no_title_message)).
Proof.
  apply (proj2 (proj2
    (missing_title_error sample_renderer sample_fs
       (lit "content/readme.txt") (lit "template.html") (lit "readme.html")
       default_basepath (lit "plain text")))).
  - vm_compute. reflexivity.
  - repeat constructor.
Defined.

(** ** Output file names *)

(** C5 fails on the code: the name [notes.md.md] ends in [.md], and its
    output name is [notes.html.html], not [notes.md.html]: line 50
    rewrites every [.md] of the name. *)
Theorem output_filename_inner_md :
  endswith md_suffix (lit "notes.md.md") = true
  /\ output_filename (lit "notes.md.md") = lit "notes.html.html"
  /\ output_filename (lit "notes.md.md") <> lit "notes.md" ++ html_suffix.
Proof.
  split; [reflexivity|]. split; [reflexivity|].
  vm_compute. intros H. discriminate H.
Qed.

(** C6 fails on the code, by the same line 50: in the sample site the
    walk ends without an exception, the page of [content/notes.md.md] is
    written to [public/notes.html.html], and there is no file at the
    mirrored path [public/notes.md.html]. *)
Theorem mirror_inner_md_name :
  exists st',
    generate_pages_recursive sample_renderer 2 (lit "content")
      (lit "template.html") (lit "public") default_basepath sample_fs
    = Some (st', Ok tt)
    /\ read_file st' (lit "public/notes.html.html")
       = Ok (render_page (lit "Notes  ") (lit "<p>" ++ sample_notes ++ lit "</p>")
               sample_template default_basepath)
    /\ read_file st' (lit "public/notes.md.html") = Raise FileNotFoundError
    /\ read_file st' (lit "public/blog/post1.html")
       = Ok (render_page (lit "Post") (lit "<p># Post</p>")
               sample_template default_basepath).
Proof.
  eexists. split; [vm_compute; reflexivity|].
  repeat split; vm_compute; reflexivity.
Qed.

(** ** Template substitution *)

(** A template is a run of fields separated by the title token; the
    first replacement turns every one of these separators into the
    title, whatever their number.  The text so obtained is a run of
    fields separated by the content token, and the second replacement
    turns every one of those into the rendered body. *)
Lemma substitute_fields
    (title html_content : str) (title_fields content_fields : list str) :
  Forall (fun s => contains title_token s = false) title_fields ->
  Forall (fun s => contains content_token s = false) content_fields ->
  join title title_fields = join content_token content_fields ->
  replace content_token html_content
    (replace title_token title (join title_token title_fields))
  = join html_content content_fields.
Proof.
  intros Ht Hc Heq.
  rewrite (replace_join title_token title title_fields)
    by (discriminate || reflexivity || exact Ht).
  rewrite Heq.
  apply replace_join; [discriminate | reflexivity | exact Hc].
Qed.

(** C7: [generate_page] replaces every title token of the template by
    the title and every content token by the rendered body, as plain
    text.  The template it reads is a run of fields separated by the
    title token; with the title between the fields it is a run of
    fields separated by the content token; the page that is written is
    these fields with the body between them, under the URL rewriting.
    Every text is such a run of fields, for either token and with any
    number of them, none included ([fields_exist]). *)
Theorem substitute_every_token
    (markdown_to_html : str -> result str) (st : fs)
    (input_path template_path output_path basepath : str)
    (markdown title html_content : str)
    (title_fields content_fields : list str) :
  read_file st input_path = Ok markdown ->
  extract_title markdown = Ok title ->
  markdown_to_html markdown = Ok html_content ->
  read_file st template_path = Ok (join title_token title_fields) ->
  Forall (fun s => contains title_token s = false) title_fields ->
  Forall (fun s => contains content_token s = false) content_fields ->
  join title title_fields = join content_token content_fields ->
  generate_page markdown_to_html input_path template_path output_path
    basepath st
  = write_file st output_path
      (fix_urls (normalize_basepath basepath)
         (join html_content content_fields)).
Proof.
  intros Hin Ht Hr Htpl Hf Hc Heq.
  unfold generate_page, bind, observe, lift.
  rewrite Hin, Ht, Hr, Htpl. cbv zeta.
  rewrite (substitute_fields title html_content title_fields content_fields
             Hf Hc Heq).
  reflexivity.
Qed.

Lemma substitute_every_token_witness :
  generate_page sample_renderer (lit "index.md") (lit "banner.html")
    (lit "out.html") default_basepath token_fs
  = write_file token_fs (lit "out.html")
      (lit "<title>Welcome</title><h1>Welcome</h1><p>" ++ sample_index ++
       lit "</p>").
Proof.
  apply (substitute_every_token sample_renderer token_fs
           (lit "index.md") (lit "banner.html") (lit "out.html")
           default_basepath sample_index (lit "Welcome")
           (lit "<p>" ++ sample_index ++ lit "</p>")
           [lit "<title>"; lit "</title><h1>"; lit "</h1>{{ Content }}"]
           [lit "<title>Welcome</title><h1>Welcome</h1>"; []]).
  - vm_compute. reflexivity.
  - vm_compute. reflexivity.
  - vm_compute. reflexivity.
  - vm_compute. reflexivity.
  - repeat constructor.
  - repeat constructor.
  - vm_compute. reflexivity.
Defined.

(** The title is substituted first, so a content token inside the
    title is in the text that the second replacement scans. *)
Lemma substitute_title_with_content_token (t1 t2 html_content a b : str) :
  replace content_token html_content
    (replace title_token (t1 ++ content_token ++ t2)
       (a ++ title_token ++ b))
  = replace content_token html_content
      (replace title_token (t1 ++ content_token ++ t2) a ++ t1)
    ++ html_content
    ++ replace content_token html_content
         (t2 ++ replace title_token (t1 ++ content_token ++ t2) b).
Proof.
  rewrite replace_title_around.
  rewrite <- !app_assoc.
  rewrite (app_assoc _ t1).
  apply replace_content_around.
Qed.

(** C9: [generate_page] substitutes the title first and the body second,
    on the same text.  When the title that it extracts holds the content
    token, that occurrence is replaced by the rendered body too: the
    page that is written has the body where the title had the token, in
    the place of a title token of the template. *)
Theorem title_with_content_token
    (markdown_to_html : str -> result str) (st : fs)
    (input_path template_path output_path basepath : str)
    (markdown t1 t2 html_content a b : str) :
  read_file st input_path = Ok markdown ->
  extract_title markdown = Ok (t1 ++ content_token ++ t2) ->
  markdown_to_html markdown = Ok html_content ->
  read_file st template_path = Ok (a ++ title_token ++ b) ->
  generate_page markdown_to_html input_path template_path output_path
    basepath st
  = write_file st output_path
      (fix_urls (normalize_basepath basepath)
         (replace content_token html_content
            (replace title_token (t1 ++ content_token ++ t2) a ++ t1)
          ++ html_content
          ++ replace content_token html_content
               (t2 ++ replace title_token (t1 ++ content_token ++ t2) b))).
Proof.
  intros Hin Ht Hr Htpl.
  unfold generate_page, bind, observe, lift.
  rewrite Hin, Ht, Hr, Htpl. cbv zeta.
  rewrite substitute_title_with_content_token. reflexivity.
Qed.

Lemma title_with_content_token_witness :
  generate_page sample_renderer (lit "token.md") (lit "title.html")
    (lit "out.html") default_basepath token_fs
  = write_file token_fs (lit "out.html")
      (lit "<title><p># {{ Content }}</p></title>").
Proof.
  apply (title_with_content_token sample_renderer token_fs
           (lit "token.md") (lit "title.html") (lit "out.html")
           default_basepath (lit "# {{ Content }}") [] []
           (lit "<p># {{ Content }}</p>") (lit "<title>") (lit "</title>")).
  - vm_compute. reflexivity.
  - vm_compute. reflexivity.
  - vm_compute. reflexivity.
  - vm_compute. reflexivity.
Defined.

(** A heading that is the content token: the page title is the body. *)
Example title_is_content_token :
  extract_title (lit "# {{ Content }}") = Ok content_token
  /\ render_page content_token (lit "<p>body</p>")
       (lit "<title>{{ Title }}</title>") default_basepath
     = lit "<title><p>body</p></title>".
Proof. split; vm_compute; reflexivity. Qed.

(** ** The default base path *)

(** C8, as the specification states it, fails: with the default base
    path the rewriting is not the identity on a template that holds the
    marker; the marker is replaced by the base path, a slash. *)
Lemma default_basepath_rewrites_marker :
  render_page (lit "Welcome") (lit "<p>body</p>") style_link default_basepath
  = href_open ++ lit "//style.css" ++ [dquote]
  /\ render_page (lit "Welcome") (lit "<p>body</p>") style_link
       default_basepath
     <> substitute (lit "Welcome") (lit "<p>body</p>") style_link.
Proof.
  split; [vm_compute; reflexivity|].
  vm_compute. intros H. discriminate H.
Qed.

(** C8 (amended): with the default base path, the rewriting is the
    identity on every substituted template that holds neither
    [href='HTMLStaticSite] nor [src='HTMLStaticSite]; and in every
    substituted template each occurrence of [href='/about'] stays as it
    is, the text before and after being rewritten on its own. *)
Theorem default_basepath_identity (title html_content template : str) :
  (contains href_marker (substitute title html_content template) = false ->
   contains src_marker (substitute title html_content template) = false ->
   render_page title html_content template default_basepath
   = substitute title html_content template)
  /\ (forall a b,
        substitute title html_content template = a ++ about_link ++ b ->
        render_page title html_content template default_basepath
        = fix_urls (normalize_basepath default_basepath) a
          ++ about_link
          ++ fix_urls (normalize_basepath default_basepath) b).
Proof.
  split.
  - intros H1 H2. apply fix_urls_default_id; assumption.
  - intros a b H. unfold render_page. rewrite H.
    rewrite fix_urls_around by (vm_compute; reflexivity).
    reflexivity.
Qed.

Lemma default_basepath_identity_witness :
  render_page (lit "Welcome") (lit "<p>Hello</p>")
    (lit "<title>{{ Title }}</title><a " ++ about_link ++
     lit ">About</a>{{ Content }}")
    default_basepath
  = lit "<title>Welcome</title><a " ++ about_link ++
    lit ">About</a><p>Hello</p>".
Proof.
  apply (proj1
    (default_basepath_identity (lit "Welcome") (lit "<p>Hello</p>")
       (lit "<title>{{ Title }}</title><a " ++ about_link ++
        lit ">About</a>{{ Content }}"))
    ltac:(vm_compute; reflexivity) ltac:(vm_compute; reflexivity)).
Defined.

(** C10: a base path that does not end in a slash is normalized to
    itself followed by a slash; the empty base path is normalized to the
    default one, so [generate_page] does the same with either of them,
    on every file system and for every renderer. *)
Theorem empty_basepath_as_default
    (markdown_to_html : str -> result str) (st : fs)
    (input_path template_path output_path : str) :
  (forall basepath,
     endswith [slash] basepath = false ->
     normalize_basepath basepath = basepath ++ [slash])
  /\ normalize_basepath [] = normalize_basepath default_basepath
  /\ generate_page markdown_to_html input_path template_path output_path []
       st
     = generate_page markdown_to_html input_path template_path output_path
         default_basepath st.
Proof.
  split; [|split].
  - intros basepath H. unfold normalize_basepath. rewrite H. reflexivity.
  - reflexivity.
  - reflexivity.
Qed.

Lemma empty_basepath_as_default_witness :
  normalize_basepath (lit "myrepo") = lit "myrepo/".
Proof.
  apply (proj1
    (empty_basepath_as_default sample_renderer sample_fs
       (lit "content/index.md") (lit "template.html") (lit "index.html"))
    (lit "myrepo") ltac:(vm_compute; reflexivity)).
Defined.

(* ===================================================================== *)
(** * Further properties of the generator *)
(* ===================================================================== *)

(** ** [generate_pages_recursive] *)

(** X1: when the walk ends without an exception, the page of every
    [.md] file of the content tree is a file of the output tree, in the
    directory with the same relative path, under the name that line 50
    gives it; that directory exists. *)
Theorem walk_mirrors_markdown
    (markdown_to_html : str -> result str) (fuel : nat)
    (content_dir template_path output_dir basepath : str)
    (st0 st1 : fs) (c : location) (ds : list str) (f : str) :
  sound st0 ->
  resolve st0 content_dir = Ok c ->
  generate_pages_recursive markdown_to_html fuel content_dir template_path
    output_dir basepath st0 = Some (st1, Ok tt) ->
  is_file (fs_root st0) (c ++ ds ++ [f]) ->
  endswith md_suffix f = true ->
  is_file (fs_root st1)
    (abspath_components (fs_cwd st0) output_dir ++ ds ++ [output_filename f])
  /\ is_dir (fs_root st1) (abspath_components (fs_cwd st0) output_dir ++ ds).
Proof.
  intros Hs Hc H Hf Hmd.
  assert (Hpage : is_file (fs_root st1)
            (abspath_components (fs_cwd st0) output_dir
             ++ ds ++ [output_filename f])).
  { apply (proj1 (generate_pages_recursive_mirror _ _ _ _ _ _ _ _ _ Hs Hc H));
      assumption. }
  split; [exact Hpage|].
  destruct Hpage as [d Hd]. rewrite app_assoc in Hd.
  apply (is_dir_above _ _ (output_filename f) []). congruence.
Qed.

Lemma walk_mirrors_markdown_witness :
  is_file (fs_root sample_fs_walked)
    [lit "work"; lit "public"; lit "blog"; lit "post1.html"]
  /\ is_dir (fs_root sample_fs_walked)
       [lit "work"; lit "public"; lit "blog"].
Proof.
  apply (walk_mirrors_markdown sample_renderer 2 (lit "content")
           (lit "template.html") (lit "public") default_basepath
           sample_fs sample_fs_walked [lit "work"; lit "content"]
           [lit "blog"] (lit "post1.md")).
  - exact sample_fs_sound.
  - reflexivity.
  - vm_compute. reflexivity.
  - eexists. reflexivity.
  - reflexivity.
Defined.

(** X2: when the walk ends without an exception, every file that is
    there afterwards was a file before, or is the page of an [.md] file
    of the content tree, at its mirrored place: an entry that does not
    end in [.md] gives no file.  Nothing goes away: a directory is
    still a directory and a file still a file. *)
Theorem walk_creates_pages_only
    (markdown_to_html : str -> result str) (fuel : nat)
    (content_dir template_path output_dir basepath : str)
    (st0 st1 : fs) (c : location) :
  sound st0 ->
  resolve st0 content_dir = Ok c ->
  generate_pages_recursive markdown_to_html fuel content_dir template_path
    output_dir basepath st0 = Some (st1, Ok tt) ->
  (forall l,
     is_file (fs_root st1) l ->
     is_file (fs_root st0) l
     \/ exists ds f,
          l = abspath_components (fs_cwd st0) output_dir
              ++ ds ++ [output_filename f]
          /\ endswith md_suffix f = true
          /\ is_file (fs_root st0) (c ++ ds ++ [f]))
  /\ (forall l, is_dir (fs_root st0) l -> is_dir (fs_root st1) l)
  /\ (forall l, is_file (fs_root st0) l -> is_file (fs_root st1) l).
Proof.
  intros Hs Hc H.
  destruct (generate_pages_recursive_mirror _ _ _ _ _ _ _ _ _ Hs Hc H)
    as (_ & N & D & F).
  split; [exact N | split; assumption].
Qed.

Lemma walk_creates_pages_only_witness :
  is_file (fs_root sample_fs)
    [lit "work"; lit "public"; lit "blog"; lit "post1.html"]
  \/ exists ds f,
       [lit "work"; lit "public"; lit "blog"; lit "post1.html"]
       = [lit "work"; lit "public"] ++ ds ++ [output_filename f]
       /\ endswith md_suffix f = true
       /\ is_file (fs_root sample_fs)
            ([lit "work"; lit "content"] ++ ds ++ [f]).
Proof.
  apply (proj1
    (walk_creates_pages_only sample_renderer 2 (lit "content")
       (lit "template.html") (lit "public") default_basepath
       sample_fs sample_fs_walked [lit "work"; lit "content"]
       sample_fs_sound ltac:(reflexivity) ltac:(vm_compute; reflexivity))
    [lit "work"; lit "public"; lit "blog"; lit "post1.html"]).
  eexists. vm_compute. reflexivity.
Defined.

(** X3: the pages are the renderings of their sources.  When the
    template is not at a place where a page goes and the walk ends
    without an exception, the page of an [.md] file [f] of the content
    tree holds the template rendered with the title and the body of an
    [.md] file of the same directory that has the same output name, as
    that file and the template were at the start; that file is [f]
    itself when no other entry of the directory shares its output
    name. *)
Theorem walk_pages_rendered
    (markdown_to_html : str -> result str) (fuel : nat)
    (content_dir template_path output_dir basepath : str)
    (st0 st1 : fs) (c : location) (tpl : str) (ds : list str) (f d : str) :
  sound st0 ->
  resolve st0 content_dir = Ok c ->
  read_file st0 template_path = Ok tpl ->
  ~ page_place (abspath_components (fs_cwd st0) output_dir)
      (abspath_components (fs_cwd st0) template_path) ->
  generate_pages_recursive markdown_to_html fuel content_dir template_path
    output_dir basepath st0 = Some (st1, Ok tt) ->
  get (fs_root st0) (c ++ ds ++ [f]) = Some (File d) ->
  endswith md_suffix f = true ->
  exists g d' x,
    output_filename g = output_filename f
    /\ endswith md_suffix g = true
    /\ get (fs_root st0) (c ++ ds ++ [g]) = Some (File d')
    /\ page_of markdown_to_html tpl basepath d' x
    /\ get (fs_root st1)
         (abspath_components (fs_cwd st0) output_dir
          ++ ds ++ [output_filename f])
       = Some (File x)
    /\ ((forall g',
           endswith md_suffix g' = true ->
           is_file (fs_root st0) (c ++ ds ++ [g']) ->
           output_filename g' = output_filename f -> g' = f) ->
        d' = d).
Proof.
  intros Hs Hc Htpl Hoff H Hd Hmd.
  destruct (os_walk_content markdown_to_html content_dir template_path
              output_dir basepath st0 c _ tpl Hs Hc eq_refl Htpl Hoff
              fuel [content_dir] st0 st1) as (_ & _ & Cov).
  - apply fs_grows_refl.
  - intros l x Hx. left. exact Hx.
  - intros s [<- | []]. exists []. split; [reflexivity | constructor].
  - exact H.
  - destruct (Cov [] (or_introl eq_refl) (Forall_nil _) ds f
                (ex_intro _ d Hd) Hmd)
      as (ds2 & g & d' & x & El & Hg & Hd' & Hp & Hx).
    simpl in El, Hx. apply app_inv_head in El. apply app_inj_tail in El.
    destruct El as [<- Eout].
    exists g, d', x. split; [symmetry; exact Eout|].
    split; [exact Hg|]. split; [exact Hd'|]. split; [exact Hp|].
    split; [exact Hx|].
    intros Huniq.
    assert (g = f).
    { apply Huniq; [exact Hg | exists d'; exact Hd' | symmetry; exact Eout]. }
    subst g. congruence.
Qed.

Lemma walk_pages_rendered_witness :
  exists g d' x,
    output_filename g = output_filename (lit "post1.md")
    /\ endswith md_suffix g = true
    /\ get (fs_root sample_fs)
         ([lit "work"; lit "content"] ++ [lit "blog"] ++ [g])
       = Some (File d')
    /\ page_of sample_renderer sample_template (lit "myrepo") d' x
    /\ get (fs_root
              (final_state
                 (generate_pages_recursive sample_renderer 2 (lit "content")
                    (lit "template.html") (lit "public") (lit "myrepo")
                    sample_fs)
                 sample_fs))
         (abspath_components (fs_cwd sample_fs) (lit "public")
          ++ [lit "blog"] ++ [output_filename (lit "post1.md")])
       = Some (File x)
    /\ ((forall g',
           endswith md_suffix g' = true ->
           is_file (fs_root sample_fs)
             ([lit "work"; lit "content"] ++ [lit "blog"] ++ [g']) ->
           output_filename g' = output_filename (lit "post1.md") ->
           g' = lit "post1.md") ->
        d' = lit "# Post").
Proof.
  apply (walk_pages_rendered sample_renderer 2 (lit "content")
           (lit "template.html") (lit "public") (lit "myrepo")
           sample_fs _ [lit "work"; lit "content"] sample_template
           [lit "blog"] (lit "post1.md") (lit "# Post")).
  - exact sample_fs_sound.
  - reflexivity.
  - reflexivity.
  - intros (ds & g & E & _). vm_compute in E.
    injection E as E _. discriminate E.
  - vm_compute. reflexivity.
  - reflexivity.
  - reflexivity.
Defined.

(** X4: however the walk ends, with or without an exception, a file
    keeps its data unless it is at a place where a page goes (below the
    output directory, under the output name of an [.md] entry).  No
    such place has a name that ends in [.md]: the Markdown files are
    never changed. *)
Theorem walk_keeps_sources
    (markdown_to_html : str -> result str) (fuel : nat)
    (content_dir template_path output_dir basepath : str)
    (st0 st1 : fs) (r : result unit) :
  sound st0 ->
  generate_pages_recursive markdown_to_html fuel content_dir template_path
    output_dir basepath st0 = Some (st1, r) ->
  (forall l d,
     get (fs_root st0) l = Some (File d) ->
     page_place (abspath_components (fs_cwd st0) output_dir) l
     \/ get (fs_root st1) l = Some (File d))
  /\ (forall p f d,
        endswith md_suffix f = true ->
        get (fs_root st0) (p ++ [f]) = Some (File d) ->
        get (fs_root st1) (p ++ [f]) = Some (File d)).
Proof.
  intros Hs H.
  assert (K : keeps (page_place (abspath_components (fs_cwd st0) output_dir))
                (fs_root st0) (fs_root st1)).
  { unfold generate_pages_recursive in H.
    destruct (resolve st0 content_dir) as [c|e] eqn:Er.
    - apply (os_walk_keeps markdown_to_html content_dir template_path
               output_dir basepath st0 c _ Hs Er eq_refl
               fuel [content_dir] st0 st1 r).
      + apply fs_grows_refl.
      + intros s [<- | []]. exists []. split; [reflexivity | constructor].
      + exact H.
    - destruct fuel as [|fuel]; [discriminate|]. simpl in H.
      rewrite (scandir_raise_resolve _ _ _ Er) in H.
      destruct fuel; simpl in H; injection H as <- <-; apply keeps_refl. }
  split; [exact K|].
  intros p f d Hmd Hg. destruct (K _ _ Hg) as [Hp | Hg']; [|exact Hg'].
  exfalso. apply (page_place_not_md _ _ _ Hmd Hp).
Qed.

Lemma walk_keeps_sources_witness :
  get (fs_root sample_fs_walked)
    ([lit "work"; lit "content"] ++ [lit "notes.md.md"])
  = Some (File sample_notes).
Proof.
  apply (proj2
    (walk_keeps_sources sample_renderer 2 (lit "content")
       (lit "template.html") (lit "public") default_basepath
       sample_fs sample_fs_walked (Ok tt)
       ltac:(split; [apply names_ok_valid; reflexivity
                    | eexists; reflexivity])
       ltac:(vm_compute; reflexivity))
    [lit "work"; lit "content"] (lit "notes.md.md") sample_notes
    ltac:(reflexivity) ltac:(reflexivity)).
Defined.

(** X5: the walk returns.  On a file system with valid names, when the
    content directory and the output directory are not inside each other
    and the output path has no [..], the walk has returned, with or
    without an exception, once the fuel covers the bound of the content
    tree. *)
Theorem walk_returns
    (markdown_to_html : str -> result str) (fuel : nat)
    (content_dir template_path output_dir basepath : str)
    (st0 : fs) (c : location) (n0 : node) :
  sound st0 ->
  resolve st0 content_dir = Ok c ->
  get (fs_root st0) c = Some n0 ->
  apart c (abspath_components (fs_cwd st0) output_dir) ->
  ~ In dotdot (split_char slash output_dir) ->
  walk_bound n0 <= fuel ->
  exists st1 r,
    generate_pages_recursive markdown_to_html fuel content_dir template_path
      output_dir basepath st0 = Some (st1, r).
Proof.
  intros Hs Hc Hn Hap Hno Hfuel.
  destruct (os_walk_returns markdown_to_html content_dir template_path
              output_dir basepath st0 c _ n0 Hs Hc eq_refl Hn Hap Hno
              fuel [[]] st0)
    as (st1 & r & H & _).
  - apply fs_grows_refl.
  - apply same_at_refl.
  - repeat constructor.
  - unfold stack_bound, bound_at. simpl. rewrite Nat.add_0_r. exact Hfuel.
  - exists st1, r. exact H.
Qed.

Lemma walk_returns_witness :
  exists st1 r,
    generate_pages_recursive sample_renderer 9 (lit "content")
      (lit "template.html") (lit "public") default_basepath sample_fs
    = Some (st1, r).
Proof.
  eapply (walk_returns sample_renderer 9 (lit "content")
            (lit "template.html") (lit "public") default_basepath
            sample_fs [lit "work"; lit "content"]).
  - exact sample_fs_sound.
  - reflexivity.
  - reflexivity.
  - exists [lit "work"], (lit "content"), (lit "public"), [], [].
    split; [reflexivity|]. split; [reflexivity|]. discriminate.
  - vm_compute. intros [H | []]. discriminate H.
  - vm_compute. apply le_n.
Defined.

(** X6: on a file system with valid names, when the content directory
    and the output directory are not inside each other and the output
    path has no [..], the walk, however it ends, leaves the content tree
    as it was: nothing is created, changed or removed in the content
    directory or below it. *)
Theorem walk_leaves_content_tree
    (markdown_to_html : str -> result str) (fuel : nat)
    (content_dir template_path output_dir basepath : str)
    (st0 st1 : fs) (r : result unit) (c : location) :
  sound st0 ->
  resolve st0 content_dir = Ok c ->
  apart c (abspath_components (fs_cwd st0) output_dir) ->
  ~ In dotdot (split_char slash output_dir) ->
  generate_pages_recursive markdown_to_html fuel content_dir template_path
    output_dir basepath st0 = Some (st1, r) ->
  forall l, get (fs_root st1) (c ++ l) = get (fs_root st0) (c ++ l).
Proof.
  intros Hs Hc Hap Hno H.
  destruct (get (fs_root st0) c) as [n0|] eqn:Hn.
  - destruct (os_walk_returns markdown_to_html content_dir template_path
                output_dir basepath st0 c _ n0 Hs Hc eq_refl Hn Hap Hno
                (Nat.max fuel (walk_bound n0)) [[]] st0)
      as (st1' & r' & H' & Hsame).
    + apply fs_grows_refl.
    + apply same_at_refl.
    + repeat constructor.
    + unfold stack_bound, bound_at. simpl. lia.
    + apply (generate_pages_recursive_more_fuel markdown_to_html fuel
               (Nat.max fuel (walk_bound n0))) in H; [|lia].
      unfold generate_pages_recursive in H. simpl map in H'.
      unfold walk_path in H'. simpl in H'.
      rewrite H in H'. injection H' as <- <-. exact Hsame.
  - unfold generate_pages_recursive in H.
    destruct fuel as [|fuel]; [discriminate|]. simpl in H.
    unfold scandir in H. rewrite Hc, Hn in H.
    destruct fuel; simpl in H; injection H as <- <-; reflexivity.
Qed.

Lemma walk_leaves_content_tree_witness :
  get (fs_root sample_fs_walked)
    ([lit "work"; lit "content"] ++ [lit "blog"])
  = get (fs_root sample_fs) ([lit "work"; lit "content"] ++ [lit "blog"]).
Proof.
  apply (walk_leaves_content_tree sample_renderer 2 (lit "content")
           (lit "template.html") (lit "public") default_basepath
           sample_fs sample_fs_walked (Ok tt) [lit "work"; lit "content"]).
  - exact sample_fs_sound.
  - reflexivity.
  - exists [lit "work"], (lit "content"), (lit "public"), [], [].
    split; [reflexivity|]. split; [reflexivity|]. discriminate.
  - vm_compute. intros [H | []]. discriminate H.
  - vm_compute. reflexivity.
Defined.

(** X7: when the content directory is missing, or is no directory, the
    walk visits nothing: it returns without an exception and leaves the
    file system as it was. *)
Theorem walk_without_content_dir
    (markdown_to_html : str -> result str) (fuel : nat)
    (content_dir template_path output_dir basepath : str) (st : fs) :
  (forall l, resolve st content_dir = Ok l -> ~ is_dir (fs_root st) l) ->
  generate_pages_recursive markdown_to_html (S fuel) content_dir
    template_path output_dir basepath st = Some (st, Ok tt).
Proof.
  intros H. destruct (scandir_not_dir _ _ H) as [e He].
  unfold generate_pages_recursive. simpl. rewrite He.
  destruct fuel; reflexivity.
Qed.

Lemma walk_without_content_dir_witness :
  generate_pages_recursive sample_renderer 1 (lit "missing")
    (lit "template.html") (lit "public") default_basepath sample_fs
  = Some (sample_fs, Ok tt).
Proof.
  apply (walk_without_content_dir sample_renderer 0 (lit "missing")
           (lit "template.html") (lit "public") default_basepath sample_fs).
  intros l H. vm_compute in H. injection H as <-.
  intros [es He]. vm_compute in He. discriminate He.
Defined.

(** X8: the walk stops at the first entry that raises.  When the
    entries [pre] of the content directory go through and the next
    entry [f] raises [e], the walk ends with [e] in the state that [f]
    left: the entries after [f] and the sub-directories are not
    visited. *)
Theorem walk_stops_at_first_error
    (markdown_to_html : str -> result str) (fuel : nat)
    (content_dir template_path output_dir basepath : str)
    (st st1 st2 : fs) (dirs pre post : list str) (f : str) (e : exn) :
  scandir st content_dir = Ok (dirs, pre ++ f :: post) ->
  for_each pre
    (visit_file markdown_to_html content_dir template_path output_dir
       basepath content_dir) st = (st1, Ok tt) ->
  visit_file markdown_to_html content_dir template_path output_dir basepath
    content_dir f st1 = (st2, Raise e) ->
  generate_pages_recursive markdown_to_html (S fuel) content_dir
    template_path output_dir basepath st = Some (st2, Raise e).
Proof.
  intros Hs Hpre Hf. unfold generate_pages_recursive. simpl.
  rewrite Hs, (for_each_raise _ _ _ post _ _ _ _ Hpre Hf). reflexivity.
Qed.

Lemma walk_stops_at_first_error_witness :
  generate_pages_recursive sample_renderer 1 (lit "content")
    (lit "template.html") (lit "public") default_basepath draft_fs
  = Some (draft_fs_public, Raise (ValueError no_title_message)).
Proof.
  apply (walk_stops_at_first_error sample_renderer 0 (lit "content")
           (lit "template.html") (lit "public") default_basepath
           draft_fs draft_fs draft_fs_public
           [] [lit "about.txt"] [lit "index.md"] (lit "draft.md")
           (ValueError no_title_message)).
  - vm_compute. reflexivity.
  - vm_compute. reflexivity.
  - vm_compute. reflexivity.
Defined.

(** ** The output name (line 50) *)

(** X9: for an entry whose only [.md] is its extension, the output name
    is the entry with that extension changed to [.html]; two such
    entries with the same output name are the same entry. *)
Theorem output_filename_plain (stem stem' : str) :
  contains md_suffix stem = false ->
  contains md_suffix stem' = false ->
  output_filename (stem ++ md_suffix) = stem ++ html_suffix
  /\ (output_filename (stem ++ md_suffix)
      = output_filename (stem' ++ md_suffix) ->
      stem = stem').
Proof.
  intros H H'. rewrite !output_filename_extension by assumption.
  split; [reflexivity|]. apply app_inv_tail.
Qed.

Lemma output_filename_plain_witness :
  output_filename (lit "index" ++ md_suffix) = lit "index" ++ html_suffix.
Proof.
  apply (proj1 (output_filename_plain (lit "index") (lit "post1")
                  ltac:(reflexivity) ltac:(reflexivity))).
Defined.

(** X10: the output name of an entry that line 44 accepts is a name that
    a directory can hold, it ends in [.html] and it does not end in
    [.md]: a page is never taken for a source by a later walk. *)
Theorem output_filename_accepted (file : str) :
  valid_name file ->
  endswith md_suffix file = true ->
  valid_name (output_filename file)
  /\ endswith html_suffix (output_filename file) = true
  /\ endswith md_suffix (output_filename file) = false.
Proof.
  intros Hv He.
  destruct (output_filename_valid file Hv He) as [V _].
  destruct (output_filename_not_md file He) as [N H].
  split; [exact V | split; assumption].
Qed.

Lemma output_filename_accepted_witness :
  valid_name (output_filename (lit "notes.md.md"))
  /\ endswith html_suffix (output_filename (lit "notes.md.md")) = true
  /\ endswith md_suffix (output_filename (lit "notes.md.md")) = false.
Proof.
  apply (output_filename_accepted (lit "notes.md.md")).
  - apply valid_nameb_valid. reflexivity.
  - reflexivity.
Defined.

(** X11: line 50 does not tell [.md] inside a name from [.html] there:
    the entries [s.md.t] and [s.html.t] get the same output name, so two
    entries of one directory can be written to one page. *)
Theorem output_filename_collision (s t : str) :
  output_filename (s ++ md_suffix ++ t)
  = output_filename (s ++ html_suffix ++ t).
Proof.
  rewrite output_filename_inner. unfold output_filename.
  rewrite (replace_around md_suffix html_suffix html_suffix s t)
    by (discriminate || reflexivity).
  reflexivity.
Qed.

(** ** [generate_page] and the file system *)

(** X12: after a run of [generate_page] that returns, the output file
    holds the page rendered from the title and the body of the input
    file and from the template, as they were read at the start; read in
    text mode it gives that page with the line ends translated. *)
Theorem generate_page_round_trip
    (markdown_to_html : str -> result str)
    (input_path template_path output_path basepath : str) (st st' : fs) :
  sound st ->
  generate_page markdown_to_html input_path template_path output_path
    basepath st = (st', Ok tt) ->
  exists markdown title html_content template,
    read_file st input_path = Ok markdown
    /\ extract_title markdown = Ok title
    /\ markdown_to_html markdown = Ok html_content
    /\ read_file st template_path = Ok template
    /\ get (fs_root st') (abspath_components (fs_cwd st) output_path)
       = Some (File (render_page title html_content template basepath))
    /\ read_file st' output_path
       = Ok (universal_newlines
               (render_page title html_content template basepath)).
Proof.
  intros Hs H.
  destruct (generate_page_ok_inv _ _ _ _ _ _ _ H)
    as (markdown & title & html_content & template
        & H1 & H2 & H3 & H4 & Hw).
  exists markdown, title, html_content, template.
  do 4 (split; [assumption|]).
  split; [|apply (read_after_write _ _ _ _ Hs Hw)].
  destruct (write_file_ok_inv _ _ _ _ Hw)
    as (l & root1 & root' & Hr & _ & _ & _ & Hp & ->).
  apply resolve_abspath in Hr. rewrite <- Hr. simpl.
  rewrite <- (app_nil_r l), (get_put_ext _ _ _ _ _ Hp). reflexivity.
Qed.

Lemma generate_page_round_trip_witness :
  exists markdown title html_content template,
    read_file sample_fs (lit "content/index.md") = Ok markdown
    /\ extract_title markdown = Ok title
    /\ sample_renderer markdown = Ok html_content
    /\ read_file sample_fs (lit "template.html") = Ok template
    /\ get
         (fs_root
            (fst (generate_page sample_renderer (lit "content/index.md")
                    (lit "template.html") (lit "index.html") (lit "myrepo")
                    sample_fs)))
         (abspath_components (fs_cwd sample_fs) (lit "index.html"))
       = Some (File (render_page title html_content template (lit "myrepo")))
    /\ read_file
         (fst (generate_page sample_renderer (lit "content/index.md")
                 (lit "template.html") (lit "index.html") (lit "myrepo")
                 sample_fs))
         (lit "index.html")
       = Ok (universal_newlines
               (render_page title html_content template (lit "myrepo"))).
Proof.
  apply (generate_page_round_trip sample_renderer (lit "content/index.md")
           (lit "template.html") (lit "index.html") (lit "myrepo")
           sample_fs).
  - exact sample_fs_sound.
  - vm_compute. reflexivity.
Defined.

(** X13: a run of [generate_page] that raises leaves every file other
    than the output file with its text.  It leaves the file system as it
    was, unless the exception comes from [write()] or the close on lines
    38-39: then the input, the title, the body and the template were
    obtained, the output file was opened, and it holds what the device
    left of the page. *)
Theorem generate_page_raise_effect
    (markdown_to_html : str -> result str)
    (input_path template_path output_path basepath : str)
    (st st' : fs) (e : exn) :
  generate_page markdown_to_html input_path template_path output_path
    basepath st = (st', Raise e) ->
  (forall l d,
     get (fs_root st) l = Some (File d) ->
     l = abspath_components (fs_cwd st) output_path
     \/ get (fs_root st') l = Some (File d))
  /\ (st' = st
      \/ exists markdown title html_content template root1 remains,
           read_file st input_path = Ok markdown
           /\ extract_title markdown = Ok title
           /\ markdown_to_html markdown = Ok html_content
           /\ read_file st template_path = Ok template
           /\ put (fs_root st) (abspath_components (fs_cwd st) output_path)
                (File []) = Some root1
           /\ fs_device st root1
                (abspath_components (fs_cwd st) output_path)
                (render_page title html_content template basepath)
              = Failed e remains
           /\ get (fs_root st')
                (abspath_components (fs_cwd st) output_path)
              = Some (File remains)).
Proof.
  intros H. apply generate_page_raise_cases in H.
  destruct H as [-> | (markdown & title & html_content & template
                       & H1 & H2 & H3 & H4 & Hw)].
  { split; [intros l d Hd; right; exact Hd | left; reflexivity]. }
  split.
  - intros l d Hd.
    destruct (write_file_keeps _ _ _ _ _ Hw l d Hd) as [<- | Hd'];
      [left; reflexivity | right; exact Hd'].
  - apply write_file_inv in Hw.
    destruct Hw as [[-> _] | (loc & root1 & root' & x & Hr & _ & Hp1 & Hp
                               & -> & [(_ & He & _) | (e' & Hd & He)])];
      [left; reflexivity | discriminate |].
    injection He as <-. apply resolve_abspath in Hr. subst loc.
    right. exists markdown, title, html_content, template, root1, x.
    do 6 (split; [assumption|]). simpl.
    rewrite <- (app_nil_r (abspath_components (fs_cwd st) output_path)) at 1.
    rewrite (get_put_ext _ _ _ _ _ Hp). reflexivity.
Qed.

Lemma generate_page_raise_effect_witness :
  (forall l d,
     get (fs_root sample_fs_full) l = Some (File d) ->
     l = abspath_components (fs_cwd sample_fs_full) (lit "index.html")
     \/ get
          (fs_root
             (fst (generate_page sample_renderer (lit "content/index.md")
                     (lit "template.html") (lit "index.html")
                     default_basepath sample_fs_full)))
          l
        = Some (File d))
  /\ (fst (generate_page sample_renderer (lit "content/index.md")
             (lit "template.html") (lit "index.html") default_basepath
             sample_fs_full)
      = sample_fs_full
      \/ exists markdown title html_content template root1 remains,
           read_file sample_fs_full (lit "content/index.md") = Ok markdown
           /\ extract_title markdown = Ok title
           /\ sample_renderer markdown = Ok html_content
           /\ read_file sample_fs_full (lit "template.html") = Ok template
           /\ put (fs_root sample_fs_full)
                (abspath_components (fs_cwd sample_fs_full)
                   (lit "index.html"))
                (File []) = Some root1
           /\ fs_device sample_fs_full root1
                (abspath_components (fs_cwd sample_fs_full)
                   (lit "index.html"))
                (render_page title html_content template default_basepath)
              = Failed OSError remains
           /\ get
                (fs_root
                   (fst (generate_page sample_renderer
                           (lit "content/index.md") (lit "template.html")
                           (lit "index.html") default_basepath
                           sample_fs_full)))
                (abspath_components (fs_cwd sample_fs_full)
                   (lit "index.html"))
              = Some (File remains)).
Proof.
  apply (generate_page_raise_effect sample_renderer
           (lit "content/index.md") (lit "template.html")
           (lit "index.html") default_basepath sample_fs_full _ OSError).
  vm_compute. reflexivity.
Defined.

(** X14: [generate_page] can be run again.  When the output file is
    neither the input file nor the template, a second run after one that
    returned returns as well and leaves the file system as the first run
    left it: the same page is written over itself. *)
Theorem generate_page_again
    (markdown_to_html : str -> result str)
    (input_path template_path output_path basepath : str) (st st' : fs) :
  sound st ->
  abspath_components (fs_cwd st) input_path
    <> abspath_components (fs_cwd st) output_path ->
  abspath_components (fs_cwd st) template_path
    <> abspath_components (fs_cwd st) output_path ->
  generate_page markdown_to_html input_path template_path output_path
    basepath st = (st', Ok tt) ->
  generate_page markdown_to_html input_path template_path output_path
    basepath st' = (st', Ok tt).
Proof.
  intros Hs Hin Htpl H.
  destruct (generate_page_ok_inv _ _ _ _ _ _ _ H)
    as (markdown & title & html_content & template
        & H1 & H2 & H3 & H4 & Hw).
  rewrite (generate_page_writes markdown_to_html st' input_path
             template_path output_path basepath
             markdown title html_content template);
    [ | apply (read_other_after_write _ _ _ _ _ _ _ Hs Hw H1 Hin)
      | exact H2 | exact H3
      | apply (read_other_after_write _ _ _ _ _ _ _ Hs Hw H4 Htpl) ].
  apply (write_file_again _ _ _ _ Hs Hw).
Qed.

Lemma generate_page_again_witness :
  generate_page sample_renderer (lit "content/index.md")
    (lit "template.html") (lit "index.html") default_basepath
    (fst (generate_page sample_renderer (lit "content/index.md")
            (lit "template.html") (lit "index.html") default_basepath
            sample_fs))
  = (fst (generate_page sample_renderer (lit "content/index.md")
            (lit "template.html") (lit "index.html") default_basepath
            sample_fs),
     Ok tt).
Proof.
  apply (generate_page_again sample_renderer (lit "content/index.md")
           (lit "template.html") (lit "index.html") default_basepath
           sample_fs).
  - exact sample_fs_sound.
  - vm_compute. intros H. discriminate H.
  - vm_compute. intros H. discriminate H.
  - vm_compute. reflexivity.
Defined.

(** ** The title that comes back *)

(** X15: a title that [extract_title] returns is the rest of the first
    heading line of the document.  The document is made of lines that do
    not start with the heading marker, then the line of the marker and
    the title, then the other lines, where a line holds no line break;
    no other title fits the document in this way. *)
Theorem extract_title_returned (markdown title : str) :
  extract_title markdown = Ok title ->
  ~ In newline title
  /\ (exists pre post,
        markdown = join [newline] (pre ++ (heading_marker ++ title) :: post)
        /\ Forall (fun line => ~ In newline line)
                  (pre ++ (heading_marker ++ title) :: post)
        /\ Forall not_heading pre)
  /\ (forall pre post title',
        markdown = join [newline] (pre ++ (heading_marker ++ title') :: post) ->
        Forall (fun line => ~ In newline line)
               (pre ++ (heading_marker ++ title') :: post) ->
        Forall not_heading pre ->
        title' = title).
Proof.
  intros H0. pose proof H0 as H. unfold extract_title in H.
  destruct (first_heading_ok_inv _ _ H) as (pre & post & E & Hpre).
  pose proof (split_char_fields newline markdown) as F. rewrite E in F.
  split; [|split].
  - apply Forall_app in F. destruct F as [_ F].
    inversion F as [|? ? Hl _]. subst.
    intros Hin. apply Hl. right. right. exact Hin.
  - exists pre, post. split; [|split; [exact F | exact Hpre]].
    rewrite <- E. symmetry. apply join_split_char.
  - intros pre' post' title' E' F' Hpre'.
    assert (H' : extract_title markdown = Ok title').
    { rewrite E'. apply extract_title_heading; assumption. }
    congruence.
Qed.

Lemma extract_title_returned_witness :
  ~ In newline (lit "Notes  ")
  /\ (exists pre post,
        sample_notes
        = join [newline] (pre ++ (heading_marker ++ lit "Notes  ") :: post)
        /\ Forall (fun line => ~ In newline line)
                  (pre ++ (heading_marker ++ lit "Notes  ") :: post)
        /\ Forall not_heading pre)
  /\ (forall pre post title',
        sample_notes
        = join [newline] (pre ++ (heading_marker ++ title') :: post) ->
        Forall (fun line => ~ In newline line)
               (pre ++ (heading_marker ++ title') :: post) ->
        Forall not_heading pre ->
        title' = lit "Notes  ").
Proof.
  apply (extract_title_returned sample_notes (lit "Notes  ")).
  vm_compute. reflexivity.
Defined.

(** ** The base path and the URL rewriting *)

(** X16: the base path counts only through its normal form, which ends
    in a slash: normalizing twice is normalizing once, and
    [generate_page] does the same with a base path and with its normal
    form, so a trailing slash on the base path makes no difference. *)
Theorem basepath_normal_form
    (markdown_to_html : str -> result str)
    (input_path template_path output_path basepath : str) (st : fs) :
  endswith [slash] (normalize_basepath basepath) = true
  /\ normalize_basepath (normalize_basepath basepath)
     = normalize_basepath basepath
  /\ (forall title html_content template,
        render_page title html_content template (normalize_basepath basepath)
        = render_page title html_content template basepath)
  /\ generate_page markdown_to_html input_path template_path output_path
       (normalize_basepath basepath) st
     = generate_page markdown_to_html input_path template_path output_path
         basepath st.
Proof.
  split; [apply normalize_basepath_ends|].
  split; [apply normalize_basepath_idem|].
  split.
  - intros. unfold render_page. rewrite normalize_basepath_idem. reflexivity.
  - unfold generate_page. rewrite normalize_basepath_idem. reflexivity.
Qed.

(** X17: whatever the base path, a page whose substituted template holds
    neither [href='] nor [src='] is written as substituted: the URL
    rewriting touches nothing but the text after these two attribute
    openings. *)
Theorem render_page_no_attribute
    (title html_content template basepath : str) :
  contains href_open (substitute title html_content template) = false ->
  contains src_open (substitute title html_content template) = false ->
  render_page title html_content template basepath
  = substitute title html_content template.
Proof. intros H1 H2. apply fix_urls_no_attribute; assumption. Qed.

Lemma render_page_no_attribute_witness :
  render_page (lit "Welcome") (lit "<p>Hello</p>")
    (lit "<title>{{ Title }}</title>{{ Content }}") (lit "myrepo")
  = substitute (lit "Welcome") (lit "<p>Hello</p>")
      (lit "<title>{{ Title }}</title>{{ Content }}").
Proof.
  apply (render_page_no_attribute (lit "Welcome") (lit "<p>Hello</p>")
           (lit "<title>{{ Title }}</title>{{ Content }}") (lit "myrepo")).
  - vm_compute. reflexivity.
  - vm_compute. reflexivity.
Defined.
